(** * Provenance-tag transfer and fee engine of the cluster-tax scripts

    A shallow embedding of the fee and tag mechanism explored by the
    scripts under [cluster-tax/scripts]:

    - [gini_account_model.py]   (module [Account]),
    - [gini_utxo_model.py]      (module [Utxo]),
    - [gini_cluster_model.py]   (module [Cluster]),
    - [gini_3segment.py]        (module [ThreeSegment]),
    - [provenance_reference.py] (module [Reference]),
    - [gini_10yr_model.py]      (module [TenYear], the transfer with fee
      redistribution).

    Conventions of the embedding.
    - A Python [int] is a [Z]; [//] is [Z.div] (both round towards minus
      infinity), [int(x)] on a float is truncation towards zero.
    - A Python [float] is an exact rational ([Q]): rounding of binary64
      arithmetic is not modelled.  [math.exp] is a parameter of the
      sigmoid fee curve.
    - A [Dict[int, _]] is a [gmap Z _]: Python compares dicts without
      regard to insertion order, and so does [gmap] equality.  A loop that
      writes one entry per key of a dict is given pointwise ([omap],
      [merge]); a loop that threads an accumulator through the items is a
      [map_fold].
    - Objects that the scripts mutate in place (accounts, the UTXO set, the
      cluster ledger) live in an explicit store that every operation takes
      and returns. *)

From Stdlib Require Import ZArith QArith Qround Qpower Lia Lqa List Bool.
From stdpp Require Import base option gmap list fin_maps strings sorting.

Open Scope Z_scope.

(** ** Helpers shared by the scripts *)

(** [int(x)] on a float: truncation towards zero. *)
Definition int_of_float (x : Q) : Z :=
  if Qle_bool 0 x then Qfloor x else Qceiling x.

(** [a < b] on floats. *)
Definition Qltb (a b : Q) : bool := negb (Qle_bool b a).

(** [max(a, b)]: Python keeps [a] unless [b] is strictly larger. *)
Definition py_max (a b : Q) : Q := if Qltb a b then b else a.

(** [min(a, b)]: Python keeps [a] unless [b] is strictly smaller. *)
Definition py_min (a b : Q) : Q := if Qltb b a then b else a.

(** [sum(...)] over floats, left to right from [0]. *)
Definition qsum (l : list Q) : Q := fold_left Qplus l 0%Q.

(** [sum(...)] over ints. *)
Definition zsum (l : list Z) : Z := fold_left Z.add l 0.

(** ** Sums over tag vectors *)

(** [sum(tags.values())] *)
Definition tag_sum (tags : gmap Z Z) : Z :=
  map_fold (fun _ w acc => w + acc) 0 tags.

(** [tags.get(cluster, 0)] *)
Definition weight_of (tags : gmap Z Z) (cluster : Z) : Z :=
  default 0 (tags !! cluster).

(** Every explicit weight is non-negative. *)
Definition weights_nonneg (tags : gmap Z Z) : Prop :=
  map_Forall (fun _ w => 0 <= w) tags.

(** ** The sigmoid fee curve

    [FeeConfig] and its method [rate_bps] appear, with the same text, in
    [gini_account_model.py], [gini_utxo_model.py] and
    [gini_cluster_model.py]. *)

Record FeeConfig := mkFeeConfig {
  name : string;
  r_min_bps : Q;
  r_max_bps : Q;
  w_mid : Q;
  steepness : Q
}.

Section Sigmoid.

(** [math.exp] on floats. *)
Variable exp : Q -> Q.

Definition rate_bps (cfg : FeeConfig) (effective_wealth : Q) : Q :=
  if Qeq_bool (r_min_bps cfg) (r_max_bps cfg) then r_min_bps cfg
  else
    let x := ((effective_wealth - w_mid cfg) / py_max (steepness cfg) 1)%Q in
    let sigmoid :=
      if Qltb (-700) x && Qltb x 700 then (1 / (1 + exp (- x)))%Q
      else if Qltb x 0 then 0%Q else 1%Q in
    (r_min_bps cfg + (r_max_bps cfg - r_min_bps cfg) * sigmoid)%Q.

End Sigmoid.

(** ** gini_account_model.py *)

Module Account.

Definition TAG_SCALE : Z := 1000000.
Definition TAG_PRUNE_THRESHOLD : Z := 100.

(** [apply_decay]: one entry per input entry, kept when the decayed
    weight reaches the prune threshold. *)
Definition apply_decay (tags : gmap Z Z) (decay_rate : Z) : gmap Z Z :=
  omap (fun weight =>
          let decay_amount := weight * decay_rate / TAG_SCALE in
          let new_weight := weight - decay_amount in
          if TAG_PRUNE_THRESHOLD <=? new_weight then Some new_weight else None)
       tags.

(** [mix_tags]: the loop runs over the union of both key sets and reads
    each side with [get(cluster, 0)]. *)
Definition mix_tags (self_tags : gmap Z Z) (self_value : Z)
           (incoming_tags : gmap Z Z) (incoming_value : Z) : gmap Z Z :=
  let total_value := self_value + incoming_value in
  if total_value =? 0 then ∅
  else
    merge (fun self_w incoming_w =>
             let self_weight := default 0 self_w in
             let incoming_weight := default 0 incoming_w in
             let new_weight :=
               (self_value * self_weight + incoming_value * incoming_weight)
               / total_value in
             if TAG_PRUNE_THRESHOLD <=? new_weight then Some new_weight else None)
          self_tags incoming_tags.

Record Account := mkAccount {
  id : Z;
  balance : Z;
  agent_type : string;
  tags : gmap Z Z
}.

(** [ClusterWealth]: the ledger of attributed wealth per cluster. *)
Record ClusterWealth := mkClusterWealth {
  wealth : gmap Z Z;
  next_cluster : Z
}.

Definition ClusterWealth_init : ClusterWealth :=
  {| wealth := ∅; next_cluster := 0 |}.

Definition new_cluster (cw : ClusterWealth) : Z * ClusterWealth :=
  let cid := next_cluster cw in
  (cid, {| wealth := <[cid := 0]> (wealth cw); next_cluster := cid + 1 |}).

Definition apply_delta (cluster_id delta : Z) (cw : ClusterWealth) : ClusterWealth :=
  let w0 :=
    match wealth cw !! cluster_id with
    | Some _ => wealth cw
    | None => <[cluster_id := 0]> (wealth cw)
    end in
  {| wealth := <[cluster_id := Z.max 0 (default 0 (w0 !! cluster_id) + delta)]> w0;
     next_cluster := next_cluster cw |}.

Definition get (cw : ClusterWealth) (cluster_id : Z) : Z :=
  default 0 (wealth cw !! cluster_id).

Section WithExp.

(** [math.exp] on floats. *)
Variable exp : Q -> Q.

(** [effective_fee_rate]: the running maximum over the account's tags. *)
Definition effective_fee_rate (account : Account) (cluster_wealth : ClusterWealth)
           (fee_config : FeeConfig) : Q :=
  let max_effective :=
    map_fold (fun cluster_id weight max_effective =>
                let cw := get cluster_wealth cluster_id in
                let effective :=
                  ((inject_Z weight / inject_Z TAG_SCALE) * inject_Z cw)%Q in
                py_max max_effective effective)
             0%Q (tags account) in
  rate_bps exp fee_config max_effective.

(** The objects [execute_transfer] mutates: the accounts (by position in
    [state.accounts]) and the cluster ledger. *)
Record Store := mkStore {
  accounts : list Account;
  cluster_wealth : ClusterWealth
}.

Definition set_balance (a : Account) (b : Z) : Account :=
  {| id := id a; balance := b; agent_type := agent_type a; tags := tags a |}.

Definition set_tags (a : Account) (t : gmap Z Z) : Account :=
  {| id := id a; balance := balance a; agent_type := agent_type a; tags := t |}.

(** [execute_transfer sender receiver amount decay_rate fee_config
    cluster_wealth]; [sender] and [receiver] are references to the
    accounts at positions [s] and [r] (possibly the same object).  The
    result is [None] only when a position names no account, a call the
    script cannot make. *)
Definition execute_transfer (s r : nat) (amount decay_rate : Z)
           (fee_config : FeeConfig) (st : Store)
  : option ((bool * Z) * Store) :=
  sender ← accounts st !! s;
  _ ← accounts st !! r;
  if (balance sender <? amount) || (amount <=? 0) then Some ((false, 0), st)
  else
    (* 1. fee from the sender's effective rate *)
    let fee_rate := effective_fee_rate sender (cluster_wealth st) fee_config in
    let fee := int_of_float (inject_Z amount * fee_rate / 10000)%Q in
    let net_amount := amount - fee in
    (* 2. sender.balance -= amount *)
    let accs1 := <[s := set_balance sender (balance sender - amount)]> (accounts st) in
    (* 3. tags of the transferred coins *)
    let transferred_tags := apply_decay (tags sender) decay_rate in
    (* 4. cluster wealth: mass leaving, then mass arriving *)
    let cw1 :=
      map_fold (fun cluster_id weight cw =>
                  let mass_leaving := amount * weight / TAG_SCALE in
                  apply_delta cluster_id (- mass_leaving) cw)
               (cluster_wealth st) (tags sender) in
    let cw2 :=
      map_fold (fun cluster_id weight cw =>
                  let mass_arriving := net_amount * weight / TAG_SCALE in
                  apply_delta cluster_id mass_arriving cw)
               cw1 transferred_tags in
    (* 5. mix into the receiver, read after the sender was debited *)
    receiver ← accs1 !! r;
    let receiver_balance_before := balance receiver in
    let receiver1 :=
      set_tags receiver
               (mix_tags (tags receiver) receiver_balance_before
                         transferred_tags net_amount) in
    let receiver2 := set_balance receiver1 (balance receiver1 + net_amount) in
    Some ((true, fee),
          {| accounts := <[r := receiver2]> accs1; cluster_wealth := cw2 |}).

(** The simulation state, as far as minting and transfers use it. *)
Record SimState := mkSimState {
  store : Store;
  fee_config : FeeConfig;
  decay_rate : Z;
  total_fees : Z
}.

Definition SimState_init (cfg : FeeConfig) (decay : Z) : SimState :=
  {| store := {| accounts := []; cluster_wealth := ClusterWealth_init |};
     fee_config := cfg; decay_rate := decay; total_fees := 0 |}.

(** One account of [create_accounts]: a fresh cluster seeded with the
    balance, and full attribution to it. *)
Definition mint (atype : string) (bal : Z) (st : SimState) : SimState :=
  let '(cluster_id, cw1) := new_cluster (cluster_wealth (store st)) in
  let cw2 := apply_delta cluster_id bal cw1 in
  let account :=
    {| id := Z.of_nat (length (accounts (store st)));
       balance := bal; agent_type := atype;
       tags := {[cluster_id := TAG_SCALE]} |} in
  {| store := {| accounts := accounts (store st) ++ [account];
                 cluster_wealth := cw2 |};
     fee_config := fee_config st; decay_rate := decay_rate st;
     total_fees := total_fees st |}.

(** A transfer as [run_round] issues it: the fee is added to
    [state.total_fees] when the transfer succeeded. *)
Definition transfer_step (s r : nat) (amount : Z) (st : SimState) : SimState :=
  match execute_transfer s r amount (decay_rate st) (fee_config st) (store st) with
  | Some ((success, fee), store') =>
      {| store := store'; fee_config := fee_config st;
         decay_rate := decay_rate st;
         total_fees := if success then total_fees st + fee else total_fees st |}
  | None => st
  end.

Inductive op :=
| Mint (atype : string) (bal : Z)
| Transfer (s r : nat) (amount : Z).

Definition run_op (o : op) (st : SimState) : SimState :=
  match o with
  | Mint atype bal => mint atype bal st
  | Transfer s r amount => transfer_step s r amount st
  end.

Definition run (ops : list op) (st : SimState) : SimState :=
  fold_left (fun st o => run_op o st) ops st.

(** Sum of the minted balances of a sequence of operations. *)
Definition minted (ops : list op) : Z :=
  zsum (map (fun o => match o with Mint _ bal => bal | Transfer _ _ _ => 0 end) ops).

(** [sum(a.balance for a in state.accounts)] *)
Definition total_balance (st : SimState) : Z :=
  zsum (map balance (accounts (store st))).

End WithExp.

(** Operations on the ledger alone. *)
Inductive ledger_op :=
| NewCluster
| ApplyDelta (cluster_id delta : Z).

Definition run_ledger_op (o : ledger_op) (cw : ClusterWealth) : ClusterWealth :=
  match o with
  | NewCluster => snd (new_cluster cw)
  | ApplyDelta cluster_id delta => apply_delta cluster_id delta cw
  end.

Definition run_ledger (ops : list ledger_op) (cw : ClusterWealth) : ClusterWealth :=
  fold_left (fun cw o => run_ledger_op o cw) ops cw.

End Account.

(** ** gini_utxo_model.py *)

(** [sorted(l, key=key)]: stable, ascending in [key]. *)
Fixpoint sorted_insert {A} (key : A -> Q) (x : A) (l : list A) : list A :=
  match l with
  | [] => [x]
  | y :: ys => if Qltb (key y) (key x) then y :: sorted_insert key x ys
               else x :: y :: ys
  end.

Definition sorted {A} (key : A -> Q) (l : list A) : list A :=
  foldr (sorted_insert key) [] l.

Module Utxo.

Definition TAG_SCALE : Z := 1000000.
Definition TAG_PRUNE_THRESHOLD : Z := 1000.

Record UTXO := mkUTXO {
  id : Z;
  value : Q;
  tags : gmap Z Z;
  owner : Z
}.

(** [==] of the dataclass: field by field. *)
Definition UTXO_eqb (a b : UTXO) : bool :=
  (id a =? id b) && Qeq_bool (value a) (value b)
  && bool_decide (tags a = tags b) && (owner a =? owner b).

(** [u in l] *)
Definition UTXO_in (u : UTXO) (l : list UTXO) : bool := existsb (UTXO_eqb u) l.

Record UTXOSet := mkUTXOSet {
  utxos : gmap Z UTXO;
  by_owner : gmap Z (list Z);
  next_id : Z;
  next_cluster : Z
}.

Definition UTXOSet_init : UTXOSet :=
  {| utxos := ∅; by_owner := ∅; next_id := 0; next_cluster := 0 |}.

Definition create_utxo (v : Q) (t : gmap Z Z) (o : Z) (us : UTXOSet) : UTXO * UTXOSet :=
  let utxo := {| id := next_id us; value := v; tags := t; owner := o |} in
  (utxo,
   {| utxos := <[id utxo := utxo]> (utxos us);
      by_owner := <[o := default [] (by_owner us !! o) ++ [id utxo]]> (by_owner us);
      next_id := next_id us + 1;
      next_cluster := next_cluster us |}).

Definition spend_utxo (utxo_id : Z) (us : UTXOSet) : UTXOSet :=
  match utxos us !! utxo_id with
  | Some utxo =>
      {| utxos := delete utxo_id (utxos us);
         by_owner :=
           match by_owner us !! owner utxo with
           | Some ids =>
               <[owner utxo := List.filter (fun u => negb (u =? utxo_id)) ids]> (by_owner us)
           | None => by_owner us
           end;
         next_id := next_id us;
         next_cluster := next_cluster us |}
  | None => us
  end.

Definition get_owner_utxos (us : UTXOSet) (o : Z) : list UTXO :=
  omap (fun uid => utxos us !! uid) (default [] (by_owner us !! o)).

Definition get_owner_balance (us : UTXOSet) (o : Z) : Q :=
  qsum (map value (get_owner_utxos us o)).

Definition new_cluster (us : UTXOSet) : Z * UTXOSet :=
  (next_cluster us,
   {| utxos := utxos us; by_owner := by_owner us; next_id := next_id us;
      next_cluster := next_cluster us + 1 |}).

(** [blended[cluster_id] += delta], with a missing entry read as [0.0],
    for every cluster of [t]; [delta] is computed from the tag weight. *)
Definition accumulate (delta : Z -> Q) (blended : gmap Z Q) (t : gmap Z Z) : gmap Z Q :=
  merge (fun old tag_weight =>
           match tag_weight with
           | Some w => Some (default 0 old + delta w)%Q
           | None => old
           end)
        blended t.

Definition compute_cluster_wealth (us : UTXOSet) : gmap Z Q :=
  map_fold (fun _ utxo wealth =>
              accumulate (fun weight => value utxo * inject_Z weight / inject_Z TAG_SCALE)%Q
                         wealth (tags utxo))
           ∅ (utxos us).

Definition blend_tags (inputs : list (Q * gmap Z Z)) : gmap Z Z :=
  let total_value := qsum (map fst inputs) in
  if Qeq_bool total_value 0 then ∅
  else
    let blended :=
      fold_left (fun blended '(v, t) =>
                   let weight := (v / total_value)%Q in
                   accumulate (fun tag_weight => inject_Z tag_weight * weight)%Q blended t)
                inputs ∅ in
    omap (fun weight =>
            let int_weight := int_of_float weight in
            if TAG_PRUNE_THRESHOLD <=? int_weight then Some int_weight else None)
         blended.

Definition apply_decay (t : gmap Z Z) (decay_rate : Z) : gmap Z Z :=
  omap (fun weight =>
          let decayed := weight - weight * decay_rate / TAG_SCALE in
          if TAG_PRUNE_THRESHOLD <=? decayed then Some decayed else None)
       t.

Definition compute_effective_wealth (l : list UTXO) (initial_cluster_wealth : gmap Z Q) : Q :=
  match l with
  | [] => 0%Q
  | _ =>
      let total_value := qsum (map value l) in
      if Qeq_bool total_value 0 then 0%Q
      else
        let blended_tags :=
          fold_left (fun blended utxo =>
                       accumulate (fun weight =>
                                     (value utxo / total_value)
                                     * (inject_Z weight / inject_Z TAG_SCALE))%Q
                                  blended (tags utxo))
                    l ∅ in
        map_fold (fun cluster_id tag_weight max_wealth =>
                    match initial_cluster_wealth !! cluster_id with
                    | Some w => py_max max_wealth (tag_weight * w)%Q
                    | None => max_wealth
                    end)
                 0%Q blended_tags
  end.

(** The fields of [SimState] that minting and [transfer] read or write. *)
Record SimState := mkSimState {
  utxo_set : UTXOSet;
  fee_config : FeeConfig;
  initial_cluster_wealth : gmap Z Q;
  total_fees : Q;
  decay_rate : Z
}.

Section WithExp.

Variable exp : Q -> Q.

(** The fee of [amount] for a set of selected inputs. *)
Definition fee_for (st : SimState) (amount : Q) (selected : list UTXO) : Q :=
  let effective_wealth := compute_effective_wealth selected (initial_cluster_wealth st) in
  let rate := rate_bps exp (fee_config st) effective_wealth in
  (amount * rate / 10000)%Q.

(** First selection loop: append inputs, largest first, until the estimate
    is covered. *)
Fixpoint select_estimated (estimated_total : Q) (candidates : list UTXO)
         (selected : list UTXO) (selected_value : Q) : list UTXO * Q :=
  match candidates with
  | [] => (selected, selected_value)
  | utxo :: rest =>
      let selected := selected ++ [utxo] in
      let selected_value := (selected_value + value utxo)%Q in
      if Qle_bool estimated_total selected_value then (selected, selected_value)
      else select_estimated estimated_total rest selected selected_value
  end.

(** Second selection loop: append the remaining inputs, recomputing the fee
    after each, until amount plus fee is covered.  [fee] and
    [total_needed] keep their value when the loop body never runs. *)
Fixpoint select_more (st : SimState) (amount : Q) (candidates : list UTXO)
         (selected : list UTXO) (selected_value fee total_needed : Q)
  : list UTXO * Q * Q * Q :=
  match candidates with
  | [] => (selected, selected_value, fee, total_needed)
  | utxo :: rest =>
      let selected := selected ++ [utxo] in
      let selected_value := (selected_value + value utxo)%Q in
      let fee := fee_for st amount selected in
      let total_needed := (amount + fee)%Q in
      if Qle_bool total_needed selected_value
      then (selected, selected_value, fee, total_needed)
      else select_more st amount rest selected selected_value fee total_needed
  end.

(** First pass of [transfer]: inputs covering the amount plus the fee at
    the maximum rate, largest first. *)
Definition select_first (st : SimState) (sender_utxos : list UTXO) (amount : Q)
  : list UTXO * Q :=
  let max_rate := r_max_bps (fee_config st) in
  let estimated_fee := (amount * max_rate / 10000)%Q in
  let estimated_total := (amount + estimated_fee)%Q in
  select_estimated estimated_total
                   (sorted (fun u => - value u)%Q sender_utxos) [] 0%Q.

(** Second pass: the actual fee of the selected inputs, and more inputs
    when they do not cover it.  The result is the final
    [(selected_utxos, selected_value, fee, total_needed)]. *)
Definition select_final (st : SimState) (sender_utxos : list UTXO) (amount : Q)
           (selected : list UTXO) (selected_value : Q) : list UTXO * Q * Q * Q :=
  let fee := fee_for st amount selected in
  let total_needed := (amount + fee)%Q in
  if Qltb selected_value total_needed then
    let remaining := List.filter (fun u => negb (UTXO_in u selected)) sender_utxos in
    select_more st amount (sorted (fun u => - value u)%Q remaining)
                selected selected_value fee total_needed
  else (selected, selected_value, fee, total_needed).

Definition transfer (st : SimState) (sender_id receiver_id : Z) (amount : Q)
  : bool * SimState :=
  let sender_utxos := get_owner_utxos (utxo_set st) sender_id in
  let sender_balance := qsum (map value sender_utxos) in
  if Qltb sender_balance amount || Qle_bool amount 0 then (false, st)
  else
    let '(selected0, selected_value0) := select_first st sender_utxos amount in
    match selected0 with
    | [] => (false, st)
    | _ =>
        let '(selected, selected_value, fee, total_needed) :=
          select_final st sender_utxos amount selected0 selected_value0 in
        if Qltb selected_value total_needed then (false, st)
        else
          let inputs_for_blend := map (fun u => (value u, tags u)) selected in
          let blended_tags := blend_tags inputs_for_blend in
          let decayed_tags := apply_decay blended_tags (decay_rate st) in
          (* spend the selected inputs *)
          let us1 := fold_left (fun us u => spend_utxo (id u) us) selected (utxo_set st) in
          (* output to the receiver *)
          let us2 := snd (create_utxo amount decayed_tags receiver_id us1) in
          (* change output to the sender, above the dust threshold *)
          let change := (selected_value - total_needed)%Q in
          let us3 :=
            if Qltb (1 # 100) change
            then snd (create_utxo change decayed_tags sender_id us2)
            else us2 in
          (* record the fee *)
          (true,
           {| utxo_set := us3;
              fee_config := fee_config st;
              initial_cluster_wealth := initial_cluster_wealth st;
              total_fees := (total_fees st + fee)%Q;
              decay_rate := decay_rate st |})
    end.

(** [run]: a list of [(sender_id, receiver_id, amount)] transfers in turn. *)
Definition run (transfers : list (Z * Z * Q)) (st : SimState) : SimState :=
  fold_left (fun st '(s, r, amount) => snd (transfer st s r amount)) transfers st.

End WithExp.

(** The minting loop of [create_initial_state]: agent [i] receives the
    [i]-th wealth as one UTXO fully attributed to a fresh cluster. *)
Definition mint (o : Z) (v : Q) (us : UTXOSet) : UTXOSet :=
  let '(cluster_id, us1) := new_cluster us in
  snd (create_utxo v {[cluster_id := TAG_SCALE]} o us1).

Fixpoint mint_all (i : Z) (wealths : list Q) (us : UTXOSet) : UTXOSet :=
  match wealths with
  | [] => us
  | v :: rest => mint_all (i + 1) rest (mint i v us)
  end.

(** [create_initial_state]; [wealths] is given in agent order and [p90] is
    [np.percentile(wealths, 90)]. *)
Definition create_initial_state (wealths : list Q) (p90 : Q) (cfg : FeeConfig)
           (decay : Z) : SimState :=
  let us := mint_all 0 wealths UTXOSet_init in
  let cfg' :=
    if negb (Qeq_bool (r_min_bps cfg) (r_max_bps cfg))
    then {| name := name cfg; r_min_bps := r_min_bps cfg; r_max_bps := r_max_bps cfg;
            w_mid := (p90 * (3 # 10))%Q; steepness := (p90 * (15 # 100))%Q |}
    else cfg in
  {| utxo_set := us; fee_config := cfg';
     initial_cluster_wealth := compute_cluster_wealth us;
     total_fees := 0; decay_rate := decay |}.

(** [sum(u.value for u in utxo_set.utxos.values())] *)
Definition total_live (us : UTXOSet) : Q :=
  map_fold (fun _ u acc => (acc + value u)%Q) 0%Q (utxos us).

End Utxo.

(** ** gini_cluster_model.py *)

Module Cluster.

Record Agent := mkAgent {
  id : Z;
  balance : Q;
  agent_type : string;
  tags : gmap Z Q
}.

Record ClusterRegistry := mkClusterRegistry { next_id : Z }.

(** [acc[cluster_id] += delta] for every cluster of [t], a new key starting
    from [0.0]. *)
Definition accumulate (delta : Q -> Q) (acc t : gmap Z Q) : gmap Z Q :=
  merge (fun old weight =>
           match weight with
           | Some w => Some (default 0 old + delta w)%Q
           | None => old
           end)
        acc t.

(** [mixed[cluster_id] += delta] for a key already in [mixed], and
    [mixed[cluster_id] = delta] for a new one, for every cluster of [t]. *)
Definition mix_in (delta : Q -> Q) (mixed t : gmap Z Q) : gmap Z Q :=
  merge (fun old weight =>
           match weight, old with
           | Some w, Some o => Some (o + delta w)%Q
           | Some w, None => Some (delta w)
           | None, _ => old
           end)
        mixed t.

Definition compute_cluster_wealth (agents : list Agent) : gmap Z Q :=
  fold_left (fun wealth agent =>
               accumulate (fun weight => balance agent * weight)%Q wealth (tags agent))
            agents ∅.

Record SimState := mkSimState {
  agents : list Agent;
  registry : ClusterRegistry;
  fee_config : FeeConfig;
  round : Z;
  total_fees : Q
}.

Definition set_balance (a : Agent) (b : Q) : Agent :=
  {| id := id a; balance := b; agent_type := agent_type a; tags := tags a |}.

Definition set_tags (a : Agent) (t : gmap Z Q) : Agent :=
  {| id := id a; balance := balance a; agent_type := agent_type a; tags := t |}.

Section WithExp.

Variable exp : Q -> Q.

(** The fee [transfer] charges the sender: the rate at the largest
    [tag_weight * cluster_wealth] of the sender's tags. *)
Definition transfer_fee (st : SimState) (sender : Agent) (amount : Q)
           (cluster_wealth_cache : option (gmap Z Q)) : Q :=
  let cache :=
    match cluster_wealth_cache with
    | Some c => c
    | None => compute_cluster_wealth (agents st)
    end in
  let effective_wealth :=
    map_fold (fun cluster_id tag_weight effective_wealth =>
                match cache !! cluster_id with
                | Some w => py_max effective_wealth (tag_weight * w)%Q
                | None => effective_wealth
                end)
             0%Q (tags sender) in
  let rate := rate_bps exp (fee_config st) effective_wealth in
  (amount * rate / 10000)%Q.

(** [transfer state sender receiver amount decay cluster_wealth_cache];
    [sender] and [receiver] are the agents at positions [s] and [r] of
    [state.agents].  [None] only when a position names no agent. *)
Definition transfer (st : SimState) (s r : nat) (amount decay : Q)
           (cluster_wealth_cache : option (gmap Z Q)) : option (bool * SimState) :=
  sender ← agents st !! s;
  _ ← agents st !! r;
  if Qltb (balance sender) amount || Qle_bool amount 0 then Some (false, st)
  else
    let fee := transfer_fee st sender amount cluster_wealth_cache in
    let total_cost := (amount + fee)%Q in
    if Qltb (balance sender) total_cost then Some (false, st)
    else
      (* 1. the sender's tags *)
      let sender_tag_rates := tags sender in
      (* 2. sender.balance -= total_cost *)
      let agents1 := <[s := set_balance sender (balance sender - total_cost)%Q]> (agents st) in
      (* 3. incoming tags: the sender's, decayed and pruned *)
      let incoming_tags :=
        omap (fun weight =>
                let decayed_weight := (weight * (1 - decay))%Q in
                if Qltb (1 # 1000) decayed_weight then Some decayed_weight else None)
             sender_tag_rates in
      (* 4. mix into the receiver, read after the sender was debited *)
      receiver ← agents1 !! r;
      let old_balance := balance receiver in
      let new_balance := (old_balance + amount)%Q in
      let receiver1 :=
        if Qltb 0 new_balance then
          let mixed0 := (fun w => w * (old_balance / new_balance))%Q <$> tags receiver in
          let mixed_tags :=
            mix_in (fun w => w * (amount / new_balance))%Q mixed0 incoming_tags in
          set_tags receiver
                   (omap (fun v => if Qltb (1 # 1000) v then Some v else None) mixed_tags)
        else receiver in
      (* 5. receiver.balance = new_balance *)
      let agents2 := <[r := set_balance receiver1 new_balance]> agents1 in
      (* 6. record the fee *)
      Some (true,
            {| agents := agents2; registry := registry st;
               fee_config := fee_config st; round := round st;
               total_fees := (total_fees st + fee)%Q |}).

End WithExp.

End Cluster.

(** ** gini_3segment.py: the fee curves *)

Module ThreeSegment.

(** [linear_fee_rate] *)
Definition linear_fee_rate (effective_wealth max_wealth r_min r_max : Q) : Q :=
  if Qle_bool max_wealth 0 then r_min
  else
    let ratio := py_min 1 (effective_wealth / max_wealth)%Q in
    (r_min + (r_max - r_min) * ratio)%Q.

(** [three_segment_fee_rate], every keyword argument explicit. *)
Definition three_segment_fee_rate (effective_wealth max_wealth : Q)
           (w1_frac w2_frac r_poor r_mid_start r_mid_end r_rich : Q) : Q :=
  if Qle_bool max_wealth 0 then r_poor
  else
    let w1 := (max_wealth * w1_frac)%Q in
    let w2 := (max_wealth * w2_frac)%Q in
    if Qltb effective_wealth w1 then r_poor
    else if Qltb effective_wealth w2 then
      let t := ((effective_wealth - w1) / (w2 - w1))%Q in
      (r_mid_start + t * (r_mid_end - r_mid_start))%Q
    else r_rich.

(** The defaults of the keyword arguments. *)
Definition w1_frac_default : Q := 1 # 10.
Definition w2_frac_default : Q := 5 # 10.
Definition r_poor_default : Q := 1 # 100.
Definition r_mid_start_default : Q := 2 # 100.
Definition r_mid_end_default : Q := 12 # 100.
Definition r_rich_default : Q := 15 # 100.

End ThreeSegment.

(** ** provenance_reference.py *)

Module Reference.

Record UTXO := mkUTXO {
  id : Z;
  value : Z;
  source_wealth : Z;
  owner : string
}.

Record UTXOSet := mkUTXOSet {
  utxos : gmap Z UTXO;
  next_id : Z
}.

Definition UTXOSet_init : UTXOSet := {| utxos := ∅; next_id := 0 |}.

Definition mint (o : string) (v sw : Z) (us : UTXOSet) : UTXO * UTXOSet :=
  let utxo := {| id := next_id us; value := v; source_wealth := sw; owner := o |} in
  (utxo, {| utxos := <[id utxo := utxo]> (utxos us); next_id := next_id us + 1 |}).

(** [spend]: [dict.pop] raises [KeyError] on a missing id ([None]). *)
Definition spend (utxo_id : Z) (us : UTXOSet) : option (UTXO * UTXOSet) :=
  utxo ← utxos us !! utxo_id;
  Some (utxo, {| utxos := delete utxo_id (utxos us); next_id := next_id us |}).

Definition r_min_default : Q := 1 # 100.
Definition r_max_default : Q := 15 # 100.

Definition compute_fee_rate (source_wealth max_wealth : Z) (r_min r_max : Q) : Q :=
  if max_wealth <=? 0 then r_min
  else
    let ratio := py_min 1 (inject_Z source_wealth / inject_Z max_wealth)%Q in
    (r_min + (r_max - r_min) * ratio)%Q.

(** What a call of [transfer] does: it returns its triple and leaves the
    UTXO set in some state, or an exception escapes. *)
Inductive exn := ZeroDivisionError | KeyError.

Inductive outcome :=
| Returned (success : bool) (fee : Z) (new_utxos : list UTXO) (us : UTXOSet)
| Raised (e : exn).

(** The gathering loop: [None] when an id is not in the set. *)
Fixpoint gather (us : UTXOSet) (input_ids : list Z) : option (list UTXO) :=
  match input_ids with
  | [] => Some []
  | uid :: rest =>
      match utxos us !! uid with
      | None => None
      | Some u => cons u <$> gather us rest
      end
  end.

(** The spending loop: [None] when a [spend] raised. *)
Fixpoint spend_all (input_ids : list Z) (us : UTXOSet) : option UTXOSet :=
  match input_ids with
  | [] => Some us
  | uid :: rest =>
      match spend uid us with
      | None => None
      | Some (_, us') => spend_all rest us'
      end
  end.

(** The output loop: one minted UTXO per requested output, in order. *)
Fixpoint mint_outputs (outputs : list (string * Z)) (sw : Z) (us : UTXOSet)
  : list UTXO * UTXOSet :=
  match outputs with
  | [] => ([], us)
  | (o, v) :: rest =>
      let '(utxo, us1) := mint o v sw us in
      let '(more, us2) := mint_outputs rest sw us1 in
      (utxo :: more, us2)
  end.

(** The value-weighted average source wealth of a list of inputs. *)
Definition blended_source_wealth_of (inputs : list UTXO) : Z :=
  zsum (map (fun u => value u * source_wealth u) inputs) / zsum (map value inputs).

Definition transfer (us : UTXOSet) (input_ids : list Z) (outputs : list (string * Z))
           (max_wealth : Z) : outcome :=
  match gather us input_ids with
  | None => Returned false 0 [] us
  | Some inputs =>
      let total_input_value := zsum (map value inputs) in
      let total_output_value := zsum (map snd outputs) in
      if total_input_value =? 0 then Raised ZeroDivisionError
      else
        let blended_source_wealth := blended_source_wealth_of inputs in
        let fee_rate :=
          compute_fee_rate blended_source_wealth max_wealth r_min_default r_max_default in
        let fee := int_of_float (inject_Z total_output_value * fee_rate)%Q in
        if total_input_value <? total_output_value + fee then Returned false 0 [] us
        else
          match spend_all input_ids us with
          | None => Raised KeyError
          | Some us1 =>
              let '(new_utxos, us2) := mint_outputs outputs blended_source_wealth us1 in
              Returned true fee new_utxos us2
          end
  end.

(** The scenario of [test_split_resistance]. *)
Definition split_scenario : outcome :=
  let '(whale_utxo, us) := mint "whale" 1000000 1000000 UTXOSet_init in
  transfer us [id whale_utxo] (replicate 10 ("whale"%string, 100000)) 1000000.

(** The scenario of [test_blend_on_combine]. *)
Definition blend_scenario : outcome :=
  let '(whale_utxo, us1) := mint "merchant" 100000 1000000 UTXOSet_init in
  let '(poor_utxo, us2) := mint "merchant" 10000 10000 us1 in
  transfer us2 [id whale_utxo; id poor_utxo] [("recipient"%string, 95000)] 1000000.

End Reference.

(** ** gini_10yr_model.py: the transfer with fee redistribution *)

Module TenYear.

Record Agent := mkAgent {
  id : Z;
  balance : Q;
  agent_type : string;
  cluster_wealth : Q
}.

(** The fields of [SimState] that [transfer] reads or writes. *)
Record SimState := mkSimState {
  agents : list Agent;
  fee_config : FeeConfig;
  total_fees : Q
}.

Definition add_balance (x : Q) (a : Agent) : Agent :=
  {| id := id a; balance := (balance a + x)%Q; agent_type := agent_type a;
     cluster_wealth := cluster_wealth a |}.

Definition set_cluster_wealth (f : Q -> Q) (a : Agent) : Agent :=
  {| id := id a; balance := balance a; agent_type := agent_type a;
     cluster_wealth := f (cluster_wealth a) |}.

Definition is_retail (a : Agent) : bool := String.eqb (agent_type a) "retail".

Section WithExp.

Variable exp : Q -> Q.

(** [transfer state sender receiver amount redistribute decay]; [sender] and
    [receiver] are the agents at positions [s] and [r] of [state.agents],
    updated in place one assignment after the other.  [None] only when a
    position names no agent. *)
Definition transfer (st : SimState) (s r : nat) (amount : Q) (redistribute : bool)
           (decay : Q) : option (bool * SimState) :=
  sender ← agents st !! s;
  _ ← agents st !! r;
  if Qltb (balance sender) amount || Qle_bool amount 0 then Some (false, st)
  else
    let rate := rate_bps exp (fee_config st) (cluster_wealth sender) in
    let fee := (amount * rate / 10000)%Q in
    let net := (amount - fee)%Q in
    let l1 := alter (add_balance (- amount)) s (agents st) in
    let l2 := alter (add_balance net) r l1 in
    let l3 := alter (set_cluster_wealth (fun cw => py_max 0 (cw - amount)%Q)) s l2 in
    let l4 := alter (set_cluster_wealth (fun cw => cw * (1 - decay) + net * decay)%Q) r l3 in
    let l5 :=
      if redistribute && Qltb 0 fee then
        let retail := List.filter is_retail l4 in
        match retail with
        | [] => l4
        | _ =>
            let share := (fee / inject_Z (Z.of_nat (length retail)))%Q in
            map (fun a => if is_retail a then add_balance share a else a) l4
        end
      else l4 in
    Some (true,
          {| agents := l5; fee_config := fee_config st;
             total_fees := (total_fees st + fee)%Q |}).

(** The fee [transfer] charges a sender. *)
Definition fee_of (st : SimState) (sender : Agent) (amount : Q) : Q :=
  (amount * rate_bps exp (fee_config st) (cluster_wealth sender) / 10000)%Q.

End WithExp.

(** [sum(a.balance for a in state.agents)] *)
Definition total_balance (st : SimState) : Q := qsum (map balance (agents st)).

End TenYear.

(** ** Notions used to state the properties *)

(** The entries of a tag vector that reach [threshold]: what pruning keeps. *)
Definition pruned (threshold : Z) (tags : gmap Z Z) : gmap Z Z :=
  omap (fun w => if threshold <=? w then Some w else None) tags.

(** Both [apply_decay] functions, with the threshold and the scale as
    parameters. *)
Definition decay_with (threshold scale : Z) (tags : gmap Z Z) (decay_rate : Z) : gmap Z Z :=
  omap (fun weight =>
          let new_weight := weight - weight * decay_rate / scale in
          if threshold <=? new_weight then Some new_weight else None) tags.

(** Every wealth recorded in the cluster ledger is non-negative. *)
Definition ledger_nonneg (cw : Account.ClusterWealth) : Prop :=
  map_Forall (fun _ w => 0 <= w) (Account.wealth cw).

(** [sum(a * f(tags) for (a, tags) in l)] over floats. *)
Definition lin (f : gmap Z Z -> Z) (l : list (Q * gmap Z Z)) : Q :=
  foldr (fun '(a, t) acc => a * inject_Z (f t) + acc)%Q 0%Q l.

(** A list of value-weighted inputs is well formed when every value and
    every tag weight is non-negative. *)
Definition inputs_nonneg (l : list (Q * gmap Z Z)) : Prop :=
  Forall (fun '(a, t) => (0 <= a)%Q /\ weights_nonneg t) l.

(** The explicit weights of every input sum to at most [scale]. *)
Definition inputs_within (scale : Z) (l : list (Q * gmap Z Z)) : Prop :=
  Forall (fun '(_, t) => tag_sum t <= scale) l.

(** A positive and monotone function on the rationals, [2 ^ floor x], to
    instantiate [math.exp] with. *)
Definition exp_standin (x : Q) : Q := (2 ^ Qfloor x)%Q.

(** Small states to run the transfers on. *)
Definition flat_config : FeeConfig :=
  {| name := "flat"; r_min_bps := 30; r_max_bps := 30; w_mid := 0; steepness := 1 |}.

Definition progressive_config : FeeConfig :=
  {| name := "progressive"; r_min_bps := 5; r_max_bps := 3000;
     w_mid := 1000; steepness := 200 |}.

Definition utxo_example : Utxo.SimState :=
  Utxo.create_initial_state [100; 50]%Q 95 flat_config 50000.

Definition cluster_example : Cluster.SimState :=
  {| Cluster.agents :=
       [ {| Cluster.id := 0; Cluster.balance := 100; Cluster.agent_type := "retail";
            Cluster.tags := {[0 := 1%Q]} |};
         {| Cluster.id := 1; Cluster.balance := 5000; Cluster.agent_type := "whale";
            Cluster.tags := {[1 := 1%Q]} |} ];
     Cluster.registry := {| Cluster.next_id := 2 |};
     Cluster.fee_config := progressive_config;
     Cluster.round := 0;
     Cluster.total_fees := 0 |}.

Definition account_example : Account.SimState :=
  Account.run exp_standin [Account.Mint "retail" 100000; Account.Mint "whale" 5000000]
              (Account.SimState_init progressive_config 50000).

(** The validations and the input selection of [Utxo.transfer]: the final
    [(selected_utxos, selected_value, fee, total_needed)] of a transfer
    that goes through, [None] for one that returns [False]. *)
Definition transfer_plan (exp : Q -> Q) (st : Utxo.SimState) (sender_id : Z) (amount : Q)
  : option (list Utxo.UTXO * Q * Q * Q) :=
  let sender_utxos := Utxo.get_owner_utxos (Utxo.utxo_set st) sender_id in
  let sender_balance := qsum (map Utxo.value sender_utxos) in
  if Qltb sender_balance amount || Qle_bool amount 0 then None
  else
    let '(selected0, selected_value0) := Utxo.select_first st sender_utxos amount in
    match selected0 with
    | [] => None
    | _ =>
        let '(selected, selected_value, fee, total_needed) :=
          Utxo.select_final exp st sender_utxos amount selected0 selected_value0 in
        if Qltb selected_value total_needed then None
        else Some (selected, selected_value, fee, total_needed)
    end.

(** The change a transfer leaves out of the UTXO set: the change of a
    successful transfer when it does not exceed the dust threshold. *)
Definition dropped_change (exp : Q -> Q) (st : Utxo.SimState) (sender_id : Z) (amount : Q)
  : Q :=
  match transfer_plan exp st sender_id amount with
  | Some (_, selected_value, _, total_needed) =>
      let change := (selected_value - total_needed)%Q in
      if Qltb (1 # 100) change then 0%Q else change
  | None => 0%Q
  end.

(** The change dropped along a run of transfers. *)
Fixpoint dropped_along (exp : Q -> Q) (transfers : list (Z * Z * Q)) (st : Utxo.SimState)
  : Q :=
  match transfers with
  | [] => 0%Q
  | (s, r, amount) :: rest =>
      (dropped_change exp st s amount
       + dropped_along exp rest (snd (Utxo.transfer exp st s r amount)))%Q
  end.

(** The UTXO set is well formed: every UTXO is stored under its own id,
    ids in use are below [next_id], and no owner lists an id twice. *)
Record utxo_wf (us : Utxo.UTXOSet) : Prop := {
  wf_key : forall k u, Utxo.utxos us !! k = Some u -> Utxo.id u = k /\ k < Utxo.next_id us;
  wf_nodup : forall o ids, Utxo.by_owner us !! o = Some ids -> NoDup ids;
  wf_bound : forall o ids k, Utxo.by_owner us !! o = Some ids -> k ∈ ids -> k < Utxo.next_id us
}.

(** [sum(u.value for u in m.values())] *)
Definition live (m : gmap Z Utxo.UTXO) : Q :=
  map_fold (fun _ u acc => (acc + Utxo.value u)%Q) 0%Q m.

Definition zero_fee_config : FeeConfig :=
  {| name := "free"; r_min_bps := 0; r_max_bps := 0; w_mid := 0; steepness := 1 |}.

(** One UTXO of value 100 + 1/128, and no fee. *)
Definition dust_example : Utxo.SimState :=
  Utxo.create_initial_state [12801 # 128]%Q (12801 # 128) zero_fee_config 50000.

Definition tenyear_example : TenYear.SimState :=
  {| TenYear.agents :=
       [ {| TenYear.id := 0; TenYear.balance := 100; TenYear.agent_type := "retail";
            TenYear.cluster_wealth := 100 |};
         {| TenYear.id := 1; TenYear.balance := 5000; TenYear.agent_type := "whale";
            TenYear.cluster_wealth := 5000 |} ];
     TenYear.fee_config := flat_config;
     TenYear.total_fees := 0 |}.

(** Every input with cluster [k] removed from its tags. *)
Definition delete_all (k : Z) (l : list (Q * gmap Z Z)) : list (Q * gmap Z Z) :=
  map (fun '(a, t) => (a, delete k t)) l.

(** The coefficients of a blend: [value / total_value] for every input. *)
Definition coefficients (total_value : Q) (inputs : list (Q * gmap Z Z))
  : list (Q * gmap Z Z) :=
  map (fun '(v, t) => (v / total_value, t)%Q) inputs.

(** The sigmoid of [rate_bps], as a function of the scaled argument. *)
Definition sigmoid_of (exp : Q -> Q) (x : Q) : Q :=
  if Qltb (-700) x && Qltb x 700 then (1 / (1 + exp (- x)))%Q
  else if Qltb x 0 then 0%Q else 1%Q.

(** [sum(a.balance for a in accounts)] *)
Definition balances (l : list Account.Account) : Z := zsum (map Account.balance l).


(** ** Notions used to state the further properties *)

(** An account is in order when its balance is non-negative, its tag
    weights are non-negative and they sum to at most [TAG_SCALE]. *)
Definition account_ok (a : Account.Account) : Prop :=
  0 <= Account.balance a
  /\ weights_nonneg (Account.tags a)
  /\ tag_sum (Account.tags a) <= Account.TAG_SCALE.

(** Every mint of a sequence of operations has a non-negative balance. *)
Definition mints_nonneg (ops : list Account.op) : Prop :=
  Forall (fun o => match o with
                   | Account.Mint _ bal => 0 <= bal
                   | Account.Transfer _ _ _ => True
                   end) ops.

(** Every id an owner lists names a UTXO of that owner, as far as it names
    a live UTXO at all. *)
Definition utxo_owned (us : Utxo.UTXOSet) : Prop :=
  forall o ids k u,
    Utxo.by_owner us !! o = Some ids -> k ∈ ids -> Utxo.utxos us !! k = Some u ->
    Utxo.owner u = o.

(** The states the UTXO model reaches: minting, then transfers. *)
Definition utxo_reached (exp : Q -> Q) (st : Utxo.SimState) : Prop :=
  exists wealths p90 cfg decay transfers,
    st = Utxo.run exp transfers (Utxo.create_initial_state wealths p90 cfg decay).

(** The reference UTXO set is well formed: every UTXO is stored under its
    own id and ids in use are below [next_id]. *)
Definition ref_wf (us : Reference.UTXOSet) : Prop :=
  forall k u, Reference.utxos us !! k = Some u ->
              Reference.id u = k /\ k < Reference.next_id us.

(** [sum(u.value for u in utxo_set.utxos.values())] *)
Definition ref_total_value (us : Reference.UTXOSet) : Z :=
  map_fold (fun _ u acc => acc + Reference.value u) 0 (Reference.utxos us).


(** The UTXO set of [test_blend_on_combine] before its transfer: a UTXO of
    100,000 from a source of 1,000,000 and one of 10,000 from a source of
    10,000, both of the merchant. *)
Definition ref_example : Reference.UTXOSet :=
  snd (Reference.mint "merchant" 10000 10000
         (snd (Reference.mint "merchant" 100000 1000000 Reference.UTXOSet_init))).

(** ** gini_account_model.py: the Gini coefficient *)

(** [sum((i + 1) * b for i, b in enumerate(sorted_b))] *)
Definition sum_idx (sorted_b : list Z) : Z :=
  zsum (imap (fun i b => (Z.of_nat i + 1) * b) sorted_b).

(** [calculate_gini(balances)]: the balances are ints, the quotient is a
    float, clamped to [[0, 1]]. *)
Definition calculate_gini (balances : list Z) : Q :=
  if (length balances <? 2)%nat then 0%Q
  else
    let total := zsum balances in
    if total =? 0 then 0%Q
    else
      let sorted_b := sorted inject_Z balances in
      let n := Z.of_nat (length sorted_b) in
      py_max 0 (py_min 1 (inject_Z (2 * sum_idx sorted_b - (n + 1) * total)
                          / inject_Z (n * total)))%Q.

(** * Properties *)

(** ** Sums over tag vectors *)

Lemma tag_sum_empty : tag_sum ∅ = 0.
Proof. unfold tag_sum. apply map_fold_empty. Qed.

Lemma tag_sum_insert (tags : gmap Z Z) k w :
  tags !! k = None -> tag_sum (<[k:=w]> tags) = w + tag_sum tags.
Proof.
  intros Hk. unfold tag_sum.
  apply (map_fold_insert_L (fun _ w acc => w + acc)); [|exact Hk].
  intros. lia.
Qed.

Lemma tag_sum_delete (tags : gmap Z Z) k :
  tag_sum tags = weight_of tags k + tag_sum (delete k tags).
Proof.
  unfold weight_of. destruct (tags !! k) as [w|] eqn:Hk; simpl.
  - rewrite <- (insert_delete_id tags k w Hk) at 1.
    apply tag_sum_insert. apply lookup_delete_eq.
  - rewrite delete_id by exact Hk. lia.
Qed.

Lemma tag_sum_nonneg (tags : gmap Z Z) :
  weights_nonneg tags -> 0 <= tag_sum tags.
Proof.
  induction tags as [|k w tags Hk IH] using map_ind; intros Hnn.
  - rewrite tag_sum_empty. lia.
  - rewrite tag_sum_insert by exact Hk.
    apply map_Forall_insert in Hnn as [Hw Hrest]; [|exact Hk].
    specialize (IH Hrest). lia.
Qed.

Lemma weights_nonneg_delete (tags : gmap Z Z) k :
  weights_nonneg tags -> weights_nonneg (delete k tags).
Proof. intros H. apply map_Forall_delete. exact H. Qed.

Lemma weight_of_nonneg (tags : gmap Z Z) k :
  weights_nonneg tags -> 0 <= weight_of tags k.
Proof.
  intros H. unfold weight_of.
  destruct (tags !! k) as [w|] eqn:Hk; simpl; [|lia].
  exact (H k w Hk).
Qed.

Lemma weight_of_delete_eq (tags : gmap Z Z) k : weight_of (delete k tags) k = 0.
Proof. unfold weight_of. by rewrite lookup_delete_eq. Qed.

Lemma weight_of_delete_ne (tags : gmap Z Z) k k' :
  k <> k' -> weight_of (delete k tags) k' = weight_of tags k'.
Proof. intros. unfold weight_of. by rewrite lookup_delete_ne. Qed.

(** Domination: when [t] times every weight of [r] is bounded by a
    non-negative combination of the weights of [m1] and [m2] at the same
    cluster, the same bound holds between the sums. *)
Lemma tag_sum_dominated (t a b : Z) (r m1 m2 : gmap Z Z) :
  0 <= a -> 0 <= b ->
  weights_nonneg m1 -> weights_nonneg m2 ->
  (forall k, t * weight_of r k <= a * weight_of m1 k + b * weight_of m2 k) ->
  t * tag_sum r <= a * tag_sum m1 + b * tag_sum m2.
Proof.
  intros Ha Hb. revert m1 m2.
  induction r as [|k w r Hk IH] using map_ind; intros m1 m2 H1 H2 Hdom.
  - rewrite tag_sum_empty.
    pose proof (tag_sum_nonneg m1 H1). pose proof (tag_sum_nonneg m2 H2). nia.
  - rewrite tag_sum_insert by exact Hk.
    rewrite (tag_sum_delete m1 k), (tag_sum_delete m2 k).
    specialize (IH (delete k m1) (delete k m2)
                   (weights_nonneg_delete _ k H1) (weights_nonneg_delete _ k H2)).
    assert (Hrest : forall k', t * weight_of r k' <=
              a * weight_of (delete k m1) k' + b * weight_of (delete k m2) k').
    { intros k'. destruct (decide (k = k')) as [<-|Hne].
      - rewrite !weight_of_delete_eq. unfold weight_of. rewrite Hk. simpl. lia.
      - rewrite !weight_of_delete_ne by exact Hne.
        specialize (Hdom k'). unfold weight_of in Hdom at 1.
        rewrite lookup_insert_ne in Hdom by exact Hne. exact Hdom. }
    specialize (IH Hrest).
    specialize (Hdom k). unfold weight_of in Hdom at 1.
    rewrite lookup_insert_eq in Hdom. simpl in Hdom. lia.
Qed.

(** ** The cluster ledger (gini_account_model.py, [ClusterWealth]) *)

Section Ledger.

Import Account.

Lemma ledger_nonneg_init : ledger_nonneg ClusterWealth_init.
Proof. unfold ledger_nonneg. simpl. apply map_Forall_empty. Qed.

Lemma new_cluster_nonneg cw : ledger_nonneg cw -> ledger_nonneg (snd (new_cluster cw)).
Proof.
  unfold ledger_nonneg, new_cluster. simpl. intros H.
  apply map_Forall_insert_2; [lia | exact H].
Qed.

Lemma apply_delta_wealth cluster_id delta cw :
  wealth (apply_delta cluster_id delta cw)
  = <[cluster_id := Z.max 0 (get cw cluster_id + delta)]> (wealth cw).
Proof.
  unfold apply_delta, get. simpl.
  destruct (wealth cw !! cluster_id) as [w|] eqn:Hw; simpl.
  - by rewrite Hw.
  - rewrite lookup_insert_eq. simpl. by rewrite insert_insert_eq.
Qed.

Lemma apply_delta_nonneg cluster_id delta cw :
  ledger_nonneg cw -> ledger_nonneg (apply_delta cluster_id delta cw).
Proof.
  unfold ledger_nonneg. rewrite apply_delta_wealth. intros H.
  apply map_Forall_insert_2; [lia | exact H].
Qed.

Lemma run_ledger_op_nonneg o cw : ledger_nonneg cw -> ledger_nonneg (run_ledger_op o cw).
Proof.
  destruct o; simpl; [apply new_cluster_nonneg | apply apply_delta_nonneg].
Qed.

Lemma run_ledger_nonneg ops cw : ledger_nonneg cw -> ledger_nonneg (run_ledger ops cw).
Proof.
  revert cw. induction ops as [|o ops IH]; intros cw H; simpl; [exact H|].
  apply IH. by apply run_ledger_op_nonneg.
Qed.

Lemma get_nonneg cw cluster_id : ledger_nonneg cw -> 0 <= get cw cluster_id.
Proof.
  intros H. unfold get. destruct (wealth cw !! cluster_id) as [w|] eqn:Hw; simpl; [|lia].
  exact (H _ _ Hw).
Qed.

Lemma get_apply_delta cluster_id delta cw :
  get (apply_delta cluster_id delta cw) cluster_id = Z.max 0 (get cw cluster_id + delta).
Proof.
  unfold get at 1. rewrite apply_delta_wealth, lookup_insert_eq. reflexivity.
Qed.

(** C7.  Whatever sequence of [new_cluster] and [apply_delta] calls is run
    on a fresh ledger, every cluster reads back a wealth of at least zero;
    and a further [apply_delta], which is a total function, leaves
    [max(0, wealth + delta)] in the cluster, hence [0] when the negative
    delta exceeds the current wealth. *)
Theorem ledger_wealth_clamped_at_zero (ops : list ledger_op) (cluster_id delta : Z) :
  let cw := run_ledger ops ClusterWealth_init in
  0 <= get cw cluster_id
  /\ get (apply_delta cluster_id delta cw) cluster_id = Z.max 0 (get cw cluster_id + delta)
  /\ (if get cw cluster_id + delta <? 0
      then get (apply_delta cluster_id delta cw) cluster_id = 0
      else get (apply_delta cluster_id delta cw) cluster_id = get cw cluster_id + delta).
Proof.
  intros cw.
  assert (Hnn : ledger_nonneg cw) by (apply run_ledger_nonneg, ledger_nonneg_init).
  split; [by apply get_nonneg|]. split; [apply get_apply_delta|].
  rewrite get_apply_delta. destruct (Z.ltb_spec (get cw cluster_id + delta) 0); lia.
Qed.

End Ledger.

(** ** Decay of a tag vector *)

Lemma account_decay_with tags d :
  Account.apply_decay tags d = decay_with Account.TAG_PRUNE_THRESHOLD Account.TAG_SCALE tags d.
Proof. reflexivity. Qed.

Lemma utxo_decay_with tags d :
  Utxo.apply_decay tags d = decay_with Utxo.TAG_PRUNE_THRESHOLD Utxo.TAG_SCALE tags d.
Proof. reflexivity. Qed.

Lemma decay_with_lookup threshold scale tags d k :
  decay_with threshold scale tags d !! k
  = tags !! k ≫= (fun weight =>
      let new_weight := weight - weight * d / scale in
      if threshold <=? new_weight then Some new_weight else None).
Proof. unfold decay_with. apply lookup_omap. Qed.

Lemma decay_with_zero threshold scale tags :
  map_Forall (fun _ w => threshold <= w) tags ->
  decay_with threshold scale tags 0 = tags.
Proof.
  intros H. apply map_eq. intros k. rewrite decay_with_lookup.
  destruct (tags !! k) as [w|] eqn:Hk; simpl; [|reflexivity].
  rewrite Z.mul_0_r, Zdiv_0_l, Z.sub_0_r.
  specialize (H k w Hk). simpl in H.
  destruct (Z.leb_spec threshold w); [reflexivity | lia].
Qed.

Lemma decay_with_full threshold scale tags :
  0 < threshold -> scale <> 0 ->
  decay_with threshold scale tags scale = ∅.
Proof.
  intros Ht Hs. apply map_eq. intros k. rewrite decay_with_lookup, lookup_empty.
  destruct (tags !! k) as [w|] eqn:Hk; simpl; [|reflexivity].
  rewrite Z.div_mul by exact Hs. rewrite Z.sub_diag.
  destruct (Z.leb_spec threshold 0); [lia | reflexivity].
Qed.

(** C9.  On a vector whose entries all reach the prune threshold, decay at
    rate [0] changes nothing and decay at rate [TAG_SCALE] leaves no entry,
    in the account model (threshold 100) and in the UTXO model (threshold
    1000). *)
Theorem decay_rate_zero_and_full (tags : gmap Z Z) :
  (map_Forall (fun _ w => Account.TAG_PRUNE_THRESHOLD <= w) tags ->
   Account.apply_decay tags 0 = tags
   /\ Account.apply_decay tags Account.TAG_SCALE = ∅)
  /\ (map_Forall (fun _ w => Utxo.TAG_PRUNE_THRESHOLD <= w) tags ->
      Utxo.apply_decay tags 0 = tags
      /\ Utxo.apply_decay tags Utxo.TAG_SCALE = ∅).
Proof.
  split; intros H.
  - rewrite !account_decay_with. split.
    + by apply decay_with_zero.
    + by apply decay_with_full.
  - rewrite !utxo_decay_with. split.
    + by apply decay_with_zero.
    + by apply decay_with_full.
Qed.

Lemma decay_rate_zero_and_full_witness :
  let tags : gmap Z Z := {[0 := 1000000; 1 := 1000]} in
  (Account.apply_decay tags 0 = tags /\ Account.apply_decay tags Account.TAG_SCALE = ∅)
  /\ (Utxo.apply_decay tags 0 = tags /\ Utxo.apply_decay tags Utxo.TAG_SCALE = ∅).
Proof.
  intros tags.
  assert (H1 : map_Forall (fun (_ : Z) w => Account.TAG_PRUNE_THRESHOLD <= w) tags).
  { intros k w. unfold tags. rewrite lookup_insert. case_decide.
    - intros [= <-]. unfold Account.TAG_PRUNE_THRESHOLD. lia.
    - rewrite lookup_singleton. case_decide; [|discriminate].
      intros [= <-]. unfold Account.TAG_PRUNE_THRESHOLD. lia. }
  assert (H2 : map_Forall (fun (_ : Z) w => Utxo.TAG_PRUNE_THRESHOLD <= w) tags).
  { intros k w. unfold tags. rewrite lookup_insert. case_decide.
    - intros [= <-]. unfold Utxo.TAG_PRUNE_THRESHOLD. lia.
    - rewrite lookup_singleton. case_decide; [|discriminate].
      intros [= <-]. unfold Utxo.TAG_PRUNE_THRESHOLD. lia. }
  destruct (decay_rate_zero_and_full tags) as [Ha Hu].
  split; [exact (Ha H1) | exact (Hu H2)].
Defined.

Lemma decay_with_weight threshold scale tags d k :
  let w := weight_of tags k in
  let new_weight := w - w * d / scale in
  0 < threshold ->
  weight_of (decay_with threshold scale tags d) k
  = if threshold <=? new_weight then new_weight else 0.
Proof.
  intros w new_weight Ht. unfold weight_of in *. rewrite decay_with_lookup.
  subst new_weight w.
  destruct (tags !! k) as [w|]; simpl.
  - destruct (threshold <=? w - w * d / scale); reflexivity.
  - rewrite Z.mul_0_l, Zdiv_0_l.
    destruct (threshold <=? 0 - 0); reflexivity.
Qed.

(** One hop of decay on a non-negative weight: the decay amount
    [w * d // scale] is rounded down, so the new weight lies in
    [[(1 - d/scale) w, (1 - d/scale) w + 1)]. *)
Lemma decay_with_bounds threshold scale tags d k :
  0 < threshold -> 0 < scale -> 0 <= d <= scale -> weights_nonneg tags ->
  let w := weight_of tags k in
  let w' := weight_of (decay_with threshold scale tags d) k in
  w' <= w
  /\ scale * w' <= (scale - d) * w + (scale - 1)
  /\ (scale <= w * d -> w' < w)
  /\ (is_Some (decay_with threshold scale tags d !! k) -> (scale - d) * w <= scale * w').
Proof.
  intros Ht Hs Hd Hnn w w'.
  assert (Hw : 0 <= w) by (by apply weight_of_nonneg).
  assert (Hw' : w' = if threshold <=? w - w * d / scale then w - w * d / scale else 0)
    by (by apply decay_with_weight).
  assert (Hq0 : 0 <= w * d / scale) by (apply Z.div_pos; nia).
  pose proof (Z.mul_div_le (w * d) scale Hs) as Hle.
  pose proof (Z.mul_succ_div_gt (w * d) scale Hs) as Hgt.
  assert (Hsome : is_Some (decay_with threshold scale tags d !! k) ->
                  (threshold <=? w - w * d / scale) = true).
  { intros [x Hx]. rewrite decay_with_lookup in Hx. subst w. unfold weight_of.
    destruct (tags !! k) as [w0|]; simpl in *; [|discriminate].
    destruct (threshold <=? w0 - w0 * d / scale); [reflexivity | discriminate]. }
  destruct (Z.leb_spec threshold (w - w * d / scale)) as [Hkeep|Hdrop].
  - rewrite Hw'. split; [nia|]. split; [nia|]. split.
    + intros Hbig.
      assert (1 <= w * d / scale) by (apply Z.div_le_lower_bound; lia). lia.
    + intros _. nia.
  - rewrite Hw'. split; [nia|]. split; [nia|]. split.
    + intros Hbig. nia.
    + intros Hsm. specialize (Hsome Hsm). discriminate.
Qed.

(** C4, as the claim states it, fails: the decay amount is rounded down, so
    a weight of 999,999 decayed at 5% becomes 950,000, which is more than
    95% of 999,999; and at a rate of one part per million a weight of 1,000
    does not decrease at all. *)
Lemma decay_bound_counterexample :
  let tags : gmap Z Z := {[0 := 999999]} in
  let small : gmap Z Z := {[0 := 1000]} in
  weight_of (Account.apply_decay tags 50000) 0 = 950000
  /\ weight_of (Utxo.apply_decay tags 50000) 0 = 950000
  /\ ~ (950000 * Account.TAG_SCALE <= (Account.TAG_SCALE - 50000) * weight_of tags 0)
  /\ weight_of (Account.apply_decay small 1) 0 = 1000
  /\ weight_of (Utxo.apply_decay small 1) 0 = 1000
  /\ ~ (weight_of (Utxo.apply_decay small 1) 0 < weight_of small 0)
  /\ ~ (forall (t : gmap Z Z) (d k : Z),
          0 < d -> is_Some (t !! k) ->
          weight_of (Utxo.apply_decay t d) k * Utxo.TAG_SCALE
          <= (Utxo.TAG_SCALE - d) * weight_of t k
          /\ weight_of (Utxo.apply_decay t d) k < weight_of t k).
Proof.
  intros tags small.
  assert (E1 : weight_of (Account.apply_decay tags 50000) 0 = 950000) by reflexivity.
  assert (E2 : weight_of (Utxo.apply_decay tags 50000) 0 = 950000) by reflexivity.
  assert (E3 : weight_of tags 0 = 999999) by reflexivity.
  assert (E4 : weight_of (Account.apply_decay small 1) 0 = 1000) by reflexivity.
  assert (E5 : weight_of (Utxo.apply_decay small 1) 0 = 1000) by reflexivity.
  assert (E6 : weight_of small 0 = 1000) by reflexivity.
  repeat split; try assumption.
  - rewrite E3. unfold Account.TAG_SCALE. lia.
  - rewrite E5, E6. lia.
  - intros H. specialize (H tags 50000 0).
    rewrite E2, E3 in H. unfold Utxo.TAG_SCALE in H.
    assert (Hs : is_Some (tags !! 0)) by (eexists; reflexivity).
    destruct (H ltac:(lia) Hs) as [Hb _]. lia.
Qed.

(** C4, amended.  For a vector of non-negative weights and a decay rate
    [0 < d <= TAG_SCALE], in both models: the weight a cluster has after
    one hop is at most its weight before, and below
    [(1 - d/TAG_SCALE) * weight + 1]; an entry that is kept is at least
    [(1 - d/TAG_SCALE) * weight]; and the weight strictly decreases once
    [weight * d >= TAG_SCALE], that is once the rounded decay amount is at
    least one unit. *)
Theorem decay_bound_rounded (tags : gmap Z Z) (d k : Z) :
  weights_nonneg tags -> 0 < d <= 1000000 ->
  let w := weight_of tags k in
  (let w' := weight_of (Account.apply_decay tags d) k in
   w' <= w
   /\ Account.TAG_SCALE * w' <= (Account.TAG_SCALE - d) * w + (Account.TAG_SCALE - 1)
   /\ (Account.TAG_SCALE <= w * d -> w' < w)
   /\ (is_Some (Account.apply_decay tags d !! k) ->
       (Account.TAG_SCALE - d) * w <= Account.TAG_SCALE * w'))
  /\ (let w' := weight_of (Utxo.apply_decay tags d) k in
      w' <= w
      /\ Utxo.TAG_SCALE * w' <= (Utxo.TAG_SCALE - d) * w + (Utxo.TAG_SCALE - 1)
      /\ (Utxo.TAG_SCALE <= w * d -> w' < w)
      /\ (is_Some (Utxo.apply_decay tags d !! k) ->
          (Utxo.TAG_SCALE - d) * w <= Utxo.TAG_SCALE * w')).
Proof.
  intros Hnn Hd w. split.
  - rewrite account_decay_with.
    apply decay_with_bounds; unfold Account.TAG_PRUNE_THRESHOLD, Account.TAG_SCALE; try lia.
    exact Hnn.
  - rewrite utxo_decay_with.
    apply decay_with_bounds; unfold Utxo.TAG_PRUNE_THRESHOLD, Utxo.TAG_SCALE; try lia.
    exact Hnn.
Qed.

Lemma decay_bound_rounded_witness :
  let tags : gmap Z Z := {[0 := 999999]} in
  weight_of (Account.apply_decay tags 50000) 0 <= weight_of tags 0
  /\ weight_of (Utxo.apply_decay tags 50000) 0 < weight_of tags 0.
Proof.
  intros tags.
  assert (Hnn : weights_nonneg tags).
  { intros k w. unfold tags. rewrite lookup_singleton. case_decide; [|discriminate].
    intros [= <-]. lia. }
  destruct (decay_bound_rounded tags 50000 0 Hnn ltac:(lia)) as [[Ha _] [_ [_ [Hu _]]]].
  split; [exact Ha|]. apply Hu. vm_compute. discriminate.
Defined.

(** ** Mixing incoming tags into a receiver (gini_account_model.py) *)

Lemma pruned_lookup threshold tags k :
  pruned threshold tags !! k
  = tags !! k ≫= (fun w => if threshold <=? w then Some w else None).
Proof. unfold pruned. apply lookup_omap. Qed.

Lemma pruned_id threshold tags :
  map_Forall (fun _ w => threshold <= w) tags -> pruned threshold tags = tags.
Proof.
  intros H. apply map_eq. intros k. rewrite pruned_lookup.
  destruct (tags !! k) as [w|] eqn:Hk; simpl; [|reflexivity].
  specialize (H k w Hk). simpl in H.
  destruct (Z.leb_spec threshold w); [reflexivity | lia].
Qed.

Lemma mix_tags_lookup self_tags self_value incoming_tags incoming_value k :
  self_value + incoming_value <> 0 ->
  Account.mix_tags self_tags self_value incoming_tags incoming_value !! k
  = match self_tags !! k, incoming_tags !! k with
    | None, None => None
    | s, i =>
        let new_weight :=
          (self_value * default 0 s + incoming_value * default 0 i)
          / (self_value + incoming_value) in
        if Account.TAG_PRUNE_THRESHOLD <=? new_weight then Some new_weight else None
    end.
Proof.
  intros Hne. unfold Account.mix_tags.
  destruct (Z.eqb_spec (self_value + incoming_value) 0) as [E|_]; [contradiction|].
  rewrite lookup_merge.
  destruct (self_tags !! k), (incoming_tags !! k); reflexivity.
Qed.

Lemma mix_tags_self_zero self_tags incoming_tags incoming_value :
  incoming_value <> 0 ->
  Account.mix_tags self_tags 0 incoming_tags incoming_value
  = pruned Account.TAG_PRUNE_THRESHOLD incoming_tags.
Proof.
  intros Hne. apply map_eq. intros k.
  rewrite mix_tags_lookup by lia. rewrite pruned_lookup.
  rewrite Z.add_0_l.
  destruct (self_tags !! k) as [s|], (incoming_tags !! k) as [i|]; simpl;
    rewrite ?Z.mul_0_r, ?Z.add_0_l, ?Z.add_0_r, ?Zdiv_0_l;
    try rewrite (Z.mul_comm incoming_value i), Z.div_mul by exact Hne;
    reflexivity.
Qed.

Lemma mix_tags_incoming_zero self_tags self_value incoming_tags :
  self_value <> 0 ->
  Account.mix_tags self_tags self_value incoming_tags 0
  = pruned Account.TAG_PRUNE_THRESHOLD self_tags.
Proof.
  intros Hne. apply map_eq. intros k.
  rewrite mix_tags_lookup by lia. rewrite pruned_lookup.
  rewrite Z.add_0_r.
  destruct (self_tags !! k) as [s|], (incoming_tags !! k) as [i|]; simpl;
    rewrite ?Z.mul_0_r, ?Z.add_0_l, ?Z.add_0_r, ?Zdiv_0_l;
    try rewrite (Z.mul_comm self_value s), Z.div_mul by exact Hne;
    reflexivity.
Qed.

(** C8, as the claim states it, fails when both values are zero: the guard
    on [total_value == 0] returns the empty vector, which is neither the
    incoming vector nor the receiver's own. *)
Lemma mix_both_zero_counterexample :
  let v : gmap Z Z := {[0 := 1000000]} in
  Account.mix_tags ∅ 0 v 0 = ∅
  /\ Account.mix_tags ∅ 0 v 0 <> pruned Account.TAG_PRUNE_THRESHOLD v
  /\ Account.mix_tags v 0 ∅ 0 = ∅
  /\ Account.mix_tags v 0 ∅ 0 <> v.
Proof.
  intros v.
  assert (Hv : v !! 0 = Some 1000000) by reflexivity.
  assert (Hp : pruned Account.TAG_PRUNE_THRESHOLD v !! 0 = Some 1000000) by reflexivity.
  assert (E1 : Account.mix_tags ∅ 0 v 0 = ∅) by reflexivity.
  assert (E2 : Account.mix_tags v 0 ∅ 0 = ∅) by reflexivity.
  repeat split; try assumption.
  - rewrite E1. intros E. rewrite <- E, lookup_empty in Hp. discriminate.
  - rewrite E2. intros E. rewrite <- E, lookup_empty in Hv. discriminate.
Qed.

(** C8, amended.  When the incoming value is not zero, mixing into a
    receiver of value [0] returns the incoming vector with the entries
    below the prune threshold dropped; when the receiver's value is not
    zero, mixing in a value of [0] returns the receiver's vector with the
    entries below the threshold dropped, hence unchanged when all its
    entries reach the threshold; when both values are zero the result is
    the empty vector. *)
Theorem mix_with_a_zero_value (self_tags incoming_tags : gmap Z Z) (v : Z) :
  v <> 0 ->
  Account.mix_tags self_tags 0 incoming_tags v
  = pruned Account.TAG_PRUNE_THRESHOLD incoming_tags
  /\ Account.mix_tags self_tags v incoming_tags 0
     = pruned Account.TAG_PRUNE_THRESHOLD self_tags
  /\ (map_Forall (fun _ w => Account.TAG_PRUNE_THRESHOLD <= w) self_tags ->
      Account.mix_tags self_tags v incoming_tags 0 = self_tags)
  /\ Account.mix_tags self_tags 0 incoming_tags 0 = ∅.
Proof.
  intros Hv. split; [by apply mix_tags_self_zero|].
  split; [by apply mix_tags_incoming_zero|]. split; [|reflexivity].
  intros Hall. rewrite mix_tags_incoming_zero by exact Hv. by apply pruned_id.
Qed.

Lemma mix_with_a_zero_value_witness :
  let incoming : gmap Z Z := {[0 := 1000000; 3 := 5]} in
  Account.mix_tags {[1 := 700000]} 0 incoming 250
  = pruned Account.TAG_PRUNE_THRESHOLD incoming.
Proof.
  intros incoming.
  refine (proj1 (mix_with_a_zero_value {[1 := 700000]} incoming 250 _)). lia.
Defined.

(** ** The reference implementation (provenance_reference.py) *)

Section ReferenceFacts.

Import Reference.

Lemma mint_outputs_source_wealth outputs sw us :
  Forall (fun u => source_wealth u = sw) (fst (mint_outputs outputs sw us))
  /\ map (fun u => (owner u, value u)) (fst (mint_outputs outputs sw us)) = outputs.
Proof.
  revert us. induction outputs as [|[o v] rest IH]; intros us; simpl.
  - split; [constructor | reflexivity].
  - destruct (mint_outputs rest sw _) as [more us2] eqn:E. simpl.
    specialize (IH {| utxos := <[next_id us := {| id := next_id us; value := v;
                                                   source_wealth := sw; owner := o |}]>
                                 (utxos us);
                      next_id := next_id us + 1 |}).
    rewrite E in IH. simpl in IH. destruct IH as [IH1 IH2]. split.
    + constructor; [reflexivity | exact IH1].
    + by rewrite IH2.
Qed.

(** Every output of a successful transfer carries the value-weighted
    average source wealth of the inputs, rounded down. *)
Lemma transfer_outputs_blended us input_ids outputs max_wealth fee new_utxos us' :
  transfer us input_ids outputs max_wealth = Returned true fee new_utxos us' ->
  exists inputs,
    gather us input_ids = Some inputs
    /\ Forall (fun u => source_wealth u = blended_source_wealth_of inputs) new_utxos
    /\ map (fun u => (owner u, value u)) new_utxos = outputs.
Proof.
  unfold transfer. destruct (gather us input_ids) as [inputs|]; [|discriminate].
  destruct (zsum (map value inputs) =? 0); [discriminate|].
  destruct (_ <? _); [discriminate|].
  destruct (spend_all input_ids us) as [us1|]; [|discriminate].
  pose proof (mint_outputs_source_wealth outputs (blended_source_wealth_of inputs) us1) as H.
  destruct (mint_outputs outputs _ us1) as [new us2]. simpl in H.
  intros [= <- <- <-]. exists inputs. split; [reflexivity | exact H].
Qed.

(** C2, as the claim states it, fails on the number: the two inputs blend to
    [(100,000 * 1,000,000 + 10,000 * 10,000) // 110,000], and that quotient
    is 910,000, not 909,909. *)
Lemma blend_value_counterexample :
  exists fee u us,
    blend_scenario = Returned true fee [u] us
    /\ source_wealth u = 910000
    /\ source_wealth u <> 909909
    /\ (100000 * 1000000 + 10000 * 10000) / 110000 <> 909909.
Proof.
  assert (E : exists fee u us, blend_scenario = Returned true fee [u] us
                               /\ source_wealth u = 910000).
  { vm_compute. eexists _, _, _. split; reflexivity. }
  destruct E as (fee & u & us & E & Hu).
  exists fee, u, us. repeat split; try assumption.
  - rewrite Hu. discriminate.
  - vm_compute. discriminate.
Qed.

(** C2, amended.  Combining an input of value 100,000 and source wealth
    1,000,000 with an input of value 10,000 and source wealth 10,000 into
    one output succeeds, and the output has source wealth exactly
    [(100,000 * 1,000,000 + 10,000 * 10,000) // 110,000 = 910,000]. *)
Theorem blend_on_combine :
  exists fee u us,
    blend_scenario = Returned true fee [u] us
    /\ value u = 95000
    /\ source_wealth u = (100000 * 1000000 + 10000 * 10000) / 110000
    /\ source_wealth u = 910000.
Proof.
  vm_compute. eexists _, _, _. repeat split; reflexivity.
Qed.

(** C6: the scenario of [test_split_resistance] on the code.  The fee on
    the requested outputs (15% of 1,000,000) does not fit in the single
    input, so [transfer] returns failure with no outputs and the minted
    UTXO stays unspent. *)
Theorem split_scenario_fails :
  split_scenario
  = Returned false 0 [] (snd (mint "whale" 1000000 1000000 UTXOSet_init))
  /\ compute_fee_rate 1000000 1000000 r_min_default r_max_default == (15 # 100)%Q
  /\ int_of_float (inject_Z (10 * 100000)
                   * compute_fee_rate 1000000 1000000 r_min_default r_max_default)%Q
     = 150000.
Proof.
  split; [|split]; vm_compute; reflexivity.
Qed.

(** What does hold for a split: when a transfer from a single input of
    non-zero value succeeds, every output has the source wealth of that
    input. *)
Lemma split_keeps_source_wealth us uid u outputs max_wealth fee new_utxos us' :
  utxos us !! uid = Some u -> value u <> 0 ->
  transfer us [uid] outputs max_wealth = Returned true fee new_utxos us' ->
  Forall (fun o => source_wealth o = source_wealth u) new_utxos.
Proof.
  intros Hu Hv Ht. apply transfer_outputs_blended in Ht as (inputs & Hg & Hall & _).
  simpl in Hg. rewrite Hu in Hg. simpl in Hg. injection Hg as <-.
  unfold blended_source_wealth_of, zsum in Hall. simpl in Hall.
  replace ((0 + value u * source_wealth u) / (0 + value u)) with (source_wealth u) in Hall.
  - exact Hall.
  - rewrite !Z.add_0_l, (Z.mul_comm (value u)), Z.div_mul by exact Hv. reflexivity.
Qed.

End ReferenceFacts.

(** ** Explicit weights never exceed the scale *)

Lemma lin_nonneg f l :
  inputs_nonneg l -> (forall t, weights_nonneg t -> 0 <= f t) -> (0 <= lin f l)%Q.
Proof.
  intros Hl Hf. induction Hl as [|[a t] l [Ha Ht] _ IH]; simpl.
  - apply Qle_refl.
  - specialize (Hf t Ht).
    assert (0 <= inject_Z (f t))%Q by (change 0%Q with (inject_Z 0); by rewrite <- Zle_Qle).
    nra.
Qed.

Lemma inputs_nonneg_delete k l : inputs_nonneg l -> inputs_nonneg (delete_all k l).
Proof.
  intros H. induction H as [|[a t] l [Ha Ht] _ IH]; simpl; constructor.
  - split; [exact Ha | by apply weights_nonneg_delete].
  - exact IH.
Qed.

Lemma lin_tag_sum_delete k l :
  (lin tag_sum l == lin (fun t => weight_of t k) l + lin tag_sum (delete_all k l))%Q.
Proof.
  induction l as [|[a t] l IH]; simpl.
  - reflexivity.
  - rewrite IH, (tag_sum_delete t k), inject_Z_plus. ring.
Qed.

Lemma lin_weight_delete_eq k l : (lin (fun t => weight_of t k) (delete_all k l) == 0)%Q.
Proof.
  induction l as [|[a t] l IH]; simpl.
  - reflexivity.
  - rewrite IH, weight_of_delete_eq. ring.
Qed.

Lemma lin_weight_delete_ne k k' l :
  k <> k' ->
  lin (fun t => weight_of t k') (delete_all k l) = lin (fun t => weight_of t k') l.
Proof.
  intros Hne. induction l as [|[a t] l IH]; simpl.
  - reflexivity.
  - by rewrite IH, weight_of_delete_ne.
Qed.

(** Domination for value-weighted inputs: a vector that lies, cluster by
    cluster, below the weighted combination of the inputs has a sum below
    the weighted combination of their sums. *)
Lemma tag_sum_lin_dominated (r : gmap Z Z) (l : list (Q * gmap Z Z)) :
  inputs_nonneg l ->
  (forall k, inject_Z (weight_of r k) <= lin (fun t => weight_of t k) l)%Q ->
  (inject_Z (tag_sum r) <= lin tag_sum l)%Q.
Proof.
  revert l. induction r as [|k w r Hk IH] using map_ind; intros l Hl Hdom.
  - rewrite tag_sum_empty. apply lin_nonneg; [exact Hl | apply tag_sum_nonneg].
  - rewrite tag_sum_insert by exact Hk. rewrite inject_Z_plus.
    rewrite (lin_tag_sum_delete k l).
    assert (Hrest : (inject_Z (tag_sum r) <= lin tag_sum (delete_all k l))%Q).
    { apply IH; [by apply inputs_nonneg_delete|].
      intros k'. destruct (decide (k = k')) as [<-|Hne].
      - rewrite lin_weight_delete_eq. unfold weight_of. rewrite Hk. simpl. apply Qle_refl.
      - rewrite lin_weight_delete_ne by exact Hne.
        specialize (Hdom k'). unfold weight_of in Hdom at 1.
        rewrite lookup_insert_ne in Hdom by exact Hne. exact Hdom. }
    specialize (Hdom k). unfold weight_of in Hdom at 1.
    rewrite lookup_insert_eq in Hdom. simpl in Hdom. lra.
Qed.

Lemma fold_left_Qplus l a : (fold_left Qplus l a == a + fold_left Qplus l 0)%Q.
Proof.
  revert a. induction l as [|x l IH]; intros a; simpl.
  - ring.
  - rewrite (IH (a + x)%Q), (IH (0 + x)%Q). ring.
Qed.

Lemma qsum_cons x l : (qsum (x :: l) == x + qsum l)%Q.
Proof. unfold qsum. simpl. rewrite fold_left_Qplus. ring. Qed.

Lemma qsum_nonneg l : Forall (fun x => 0 <= x)%Q l -> (0 <= qsum l)%Q.
Proof.
  induction 1 as [|x l Hx _ IH].
  - apply Qle_refl.
  - rewrite qsum_cons. lra.
Qed.

Lemma Qltb_spec a b : reflect (a < b)%Q (Qltb a b).
Proof.
  unfold Qltb. destruct (Qle_bool b a) eqn:E; simpl; constructor.
  - apply Qle_bool_iff in E. lra.
  - apply Qnot_le_lt. intros H. apply Qle_bool_iff in H. congruence.
Qed.

Lemma Qle_bool_spec a b : reflect (a <= b)%Q (Qle_bool a b).
Proof.
  destruct (Qle_bool a b) eqn:E; constructor.
  - by apply Qle_bool_iff.
  - intros H. apply Qle_bool_iff in H. congruence.
Qed.

Lemma int_of_float_le x : (0 <= x)%Q -> (inject_Z (int_of_float x) <= x)%Q.
Proof.
  intros Hx. unfold int_of_float.
  destruct (Qle_bool_spec 0 x); [apply Qfloor_le | contradiction].
Qed.

Section BlendFacts.

Import Utxo.

Lemma accumulate_lookup delta blended t k :
  accumulate delta blended t !! k
  = match t !! k with
    | Some w => Some (default 0 (blended !! k) + delta w)%Q
    | None => blended !! k
    end.
Proof.
  unfold accumulate. rewrite lookup_merge.
  destruct (blended !! k), (t !! k); reflexivity.
Qed.

Lemma blended_lookup total_value inputs acc k :
  (default 0 (fold_left (fun blended '(v, t) =>
                           accumulate (fun tag_weight =>
                                         inject_Z tag_weight * (v / total_value))
                                      blended t)
                        inputs acc !! k)
   == default 0 (acc !! k)
      + lin (fun t => weight_of t k) (coefficients total_value inputs))%Q.
Proof.
  revert acc. induction inputs as [|[v t] inputs IH]; intros acc; simpl.
  - ring.
  - rewrite IH. rewrite accumulate_lookup. unfold weight_of.
    destruct (t !! k) as [w|]; simpl; ring.
Qed.

Lemma coefficients_nonneg total_value inputs :
  (0 < total_value)%Q -> inputs_nonneg inputs ->
  inputs_nonneg (coefficients total_value inputs).
Proof.
  intros HV H. induction H as [|[v t] l [Hv Ht] _ IH]; simpl; constructor.
  - split; [|exact Ht]. apply Qle_shift_div_l; [exact HV | lra].
  - exact IH.
Qed.

Lemma coefficients_within scale total_value inputs :
  inputs_within scale inputs -> inputs_within scale (coefficients total_value inputs).
Proof.
  intros H. induction H as [|[v t] l Ht _ IH]; simpl; constructor; assumption.
Qed.

Lemma lin_ones total_value inputs :
  (lin (fun _ => 1%Z) (coefficients total_value inputs)
   == qsum (map fst inputs) / total_value)%Q.
Proof.
  induction inputs as [|[v t] l IH]; simpl.
  - unfold qsum. simpl. unfold Qdiv. ring.
  - rewrite IH, qsum_cons. unfold Qdiv. ring.
Qed.

Lemma lin_within scale l :
  inputs_nonneg l -> inputs_within scale l ->
  (lin tag_sum l <= inject_Z scale * lin (fun _ => 1%Z) l)%Q.
Proof.
  intros Hnn Hw. induction Hnn as [|[a t] l [Ha Ht] _ IH]; simpl.
  - lra.
  - inversion Hw as [|? ? Hs Hrest]; subst. specialize (IH Hrest).
    assert (inject_Z (tag_sum t) <= inject_Z scale)%Q by (by rewrite <- Zle_Qle).
    change (inject_Z 1) with 1%Q.
    assert (a * inject_Z (tag_sum t) <= a * inject_Z scale)%Q by nra.
    lra.
Qed.

Lemma blend_tags_weight inputs k :
  inputs_nonneg inputs ->
  let total_value := qsum (map fst inputs) in
  ~ (total_value == 0)%Q ->
  (inject_Z (weight_of (blend_tags inputs) k)
   <= lin (fun t => weight_of t k) (coefficients total_value inputs))%Q.
Proof.
  intros Hnn total_value Hne.
  assert (HV : (0 < total_value)%Q).
  { assert (0 <= total_value)%Q.
    { apply qsum_nonneg. clear -Hnn.
      induction Hnn as [|[v t] l [Hv _] _ IH]; simpl; constructor; assumption. }
    destruct (Qle_lt_or_eq _ _ H) as [|E]; [assumption|]. symmetry in E. contradiction. }
  pose proof (coefficients_nonneg _ _ HV Hnn) as Hc.
  assert (HA : (0 <= lin (fun t => weight_of t k) (coefficients total_value inputs))%Q).
  { apply lin_nonneg; [exact Hc|]. intros t Ht. by apply weight_of_nonneg. }
  unfold blend_tags. fold total_value.
  destruct (Qeq_bool total_value 0) eqn:E.
  { apply Qeq_bool_iff in E. contradiction. }
  pose proof (blended_lookup total_value inputs ∅ k) as HB.
  rewrite lookup_empty in HB. simpl in HB.
  unfold weight_of at 1. rewrite lookup_omap.
  destruct (fold_left _ inputs ∅ !! k) as [b|]; simpl in *; [|exact HA].
  assert (Hb : (0 <= b)%Q) by lra.
  destruct (TAG_PRUNE_THRESHOLD <=? int_of_float b); simpl; [|exact HA].
  pose proof (int_of_float_le b Hb). lra.
Qed.

Lemma blend_tags_within inputs :
  inputs_nonneg inputs -> inputs_within TAG_SCALE inputs ->
  tag_sum (blend_tags inputs) <= TAG_SCALE.
Proof.
  intros Hnn Hw.
  destruct (Qeq_bool (qsum (map fst inputs)) 0) eqn:E.
  { unfold blend_tags. rewrite E, tag_sum_empty. unfold TAG_SCALE. lia. }
  assert (Hne : ~ (qsum (map fst inputs) == 0)%Q).
  { intros H. apply Qeq_bool_iff in H. congruence. }
  set (V := qsum (map fst inputs)) in *.
  assert (HV : (0 < V)%Q).
  { assert (0 <= V)%Q.
    { apply qsum_nonneg. clear -Hnn.
      induction Hnn as [|[v t] l [Hv _] _ IH]; simpl; constructor; assumption. }
    destruct (Qle_lt_or_eq _ _ H) as [|E']; [assumption|]. symmetry in E'. contradiction. }
  pose proof (coefficients_nonneg _ _ HV Hnn) as Hc.
  assert (Hcw : inputs_within TAG_SCALE (coefficients V inputs))
    by (by apply coefficients_within).
  assert (H1 : (inject_Z (tag_sum (blend_tags inputs)) <= lin tag_sum (coefficients V inputs))%Q).
  { apply tag_sum_lin_dominated; [exact Hc|]. intros k. by apply blend_tags_weight. }
  pose proof (lin_within _ _ Hc Hcw) as H2.
  rewrite lin_ones in H2. fold V in H2.
  assert (H3 : (V / V == 1)%Q) by (field; exact Hne).
  rewrite H3, Qmult_1_r in H2.
  rewrite Zle_Qle. lra.
Qed.

End BlendFacts.

Lemma decay_with_within threshold scale tags d :
  0 < threshold -> 0 < scale -> 0 <= d -> weights_nonneg tags ->
  tag_sum (decay_with threshold scale tags d) <= tag_sum tags.
Proof.
  intros Ht Hs Hd Hnn.
  pose proof (tag_sum_dominated 1 1 0 (decay_with threshold scale tags d) tags ∅) as H.
  rewrite tag_sum_empty in H.
  assert (Hdom : forall k, 1 * weight_of (decay_with threshold scale tags d) k
                           <= 1 * weight_of tags k + 0 * weight_of ∅ k).
  { intros k. rewrite decay_with_weight by exact Ht.
    pose proof (weight_of_nonneg tags k Hnn) as Hw.
    assert (0 <= weight_of tags k * d / scale) by (apply Z.div_pos; nia).
    destruct (threshold <=? _); lia. }
  specialize (H ltac:(lia) ltac:(lia) Hnn (map_Forall_empty _) Hdom). lia.
Qed.

Lemma mix_tags_weight self_tags self_value incoming_tags incoming_value k :
  0 <= self_value -> 0 <= incoming_value ->
  weights_nonneg self_tags -> weights_nonneg incoming_tags ->
  (self_value + incoming_value)
  * weight_of (Account.mix_tags self_tags self_value incoming_tags incoming_value) k
  <= self_value * weight_of self_tags k + incoming_value * weight_of incoming_tags k.
Proof.
  intros Hs Hi Hns Hni.
  pose proof (weight_of_nonneg self_tags k Hns) as Hws.
  pose proof (weight_of_nonneg incoming_tags k Hni) as Hwi.
  destruct (decide (self_value + incoming_value = 0)) as [E|Hne].
  { rewrite E. nia. }
  unfold weight_of at 1. rewrite mix_tags_lookup by exact Hne.
  unfold weight_of in *.
  assert (Hfloor : (self_value + incoming_value)
                   * ((self_value * default 0 (self_tags !! k)
                       + incoming_value * default 0 (incoming_tags !! k))
                      / (self_value + incoming_value))
                   <= self_value * default 0 (self_tags !! k)
                      + incoming_value * default 0 (incoming_tags !! k))
    by (apply Z.mul_div_le; lia).
  destruct (self_tags !! k) as [s|], (incoming_tags !! k) as [i|]; simpl in *;
    try (destruct (Account.TAG_PRUNE_THRESHOLD <=? _); simpl; nia).
  nia.
Qed.

Lemma mix_tags_within scale self_tags self_value incoming_tags incoming_value :
  0 <= self_value -> 0 <= incoming_value ->
  weights_nonneg self_tags -> weights_nonneg incoming_tags ->
  0 <= scale -> tag_sum self_tags <= scale -> tag_sum incoming_tags <= scale ->
  tag_sum (Account.mix_tags self_tags self_value incoming_tags incoming_value) <= scale.
Proof.
  intros Hs Hi Hns Hni Hsc Hss Hsi.
  destruct (decide (self_value + incoming_value = 0)) as [E|Hne].
  { unfold Account.mix_tags. rewrite E. simpl. rewrite tag_sum_empty. exact Hsc. }
  pose proof (tag_sum_dominated (self_value + incoming_value) self_value incoming_value
                _ self_tags incoming_tags Hs Hi Hns Hni
                (fun k => mix_tags_weight self_tags self_value incoming_tags
                                          incoming_value k Hs Hi Hns Hni)) as H.
  nia.
Qed.

(** C10.  On well-formed inputs (non-negative weights and values, a
    non-negative decay rate), a vector whose explicit weights sum to at most
    [TAG_SCALE] stays so through [blend_tags], both [apply_decay] functions
    and [mix_tags]: the background weight [TAG_SCALE - sum] of the result
    is never negative. *)
Theorem explicit_weights_within_scale :
  (forall inputs : list (Q * gmap Z Z),
      inputs_nonneg inputs -> inputs_within Utxo.TAG_SCALE inputs ->
      0 <= Utxo.TAG_SCALE - tag_sum (Utxo.blend_tags inputs))
  /\ (forall (tags : gmap Z Z) (decay_rate : Z),
         weights_nonneg tags -> 0 <= decay_rate ->
         tag_sum tags <= Utxo.TAG_SCALE ->
         0 <= Utxo.TAG_SCALE - tag_sum (Utxo.apply_decay tags decay_rate)
         /\ 0 <= Account.TAG_SCALE - tag_sum (Account.apply_decay tags decay_rate))
  /\ (forall (self_tags incoming_tags : gmap Z Z) (self_value incoming_value : Z),
         weights_nonneg self_tags -> weights_nonneg incoming_tags ->
         0 <= self_value -> 0 <= incoming_value ->
         tag_sum self_tags <= Account.TAG_SCALE ->
         tag_sum incoming_tags <= Account.TAG_SCALE ->
         0 <= Account.TAG_SCALE
              - tag_sum (Account.mix_tags self_tags self_value incoming_tags incoming_value)).
Proof.
  split; [|split].
  - intros inputs Hnn Hw. pose proof (blend_tags_within inputs Hnn Hw). lia.
  - intros tags d Hnn Hd Hs. rewrite utxo_decay_with, account_decay_with.
    pose proof (decay_with_within Utxo.TAG_PRUNE_THRESHOLD Utxo.TAG_SCALE tags d
                  ltac:(reflexivity) ltac:(reflexivity) Hd Hnn).
    pose proof (decay_with_within Account.TAG_PRUNE_THRESHOLD Account.TAG_SCALE tags d
                  ltac:(reflexivity) ltac:(reflexivity) Hd Hnn).
    unfold Utxo.TAG_SCALE, Account.TAG_SCALE in *. lia.
  - intros s i sv iv Hns Hni Hsv Hiv Hss Hsi.
    pose proof (mix_tags_within Account.TAG_SCALE s sv i iv Hsv Hiv Hns Hni
                  ltac:(unfold Account.TAG_SCALE; lia) Hss Hsi). lia.
Qed.

Lemma explicit_weights_within_scale_witness :
  let whale : gmap Z Z := {[0 := 1000000]} in
  let mixed : gmap Z Z := {[0 := 300000; 1 := 600000]} in
  0 <= Utxo.TAG_SCALE - tag_sum (Utxo.blend_tags [(100 # 1, whale); (50 # 1, mixed)])
  /\ 0 <= Utxo.TAG_SCALE - tag_sum (Utxo.apply_decay mixed 50000)
  /\ 0 <= Account.TAG_SCALE - tag_sum (Account.mix_tags whale 700 mixed 300).
Proof.
  intros whale mixed.
  assert (Hw : weights_nonneg whale)
    by (apply (bool_decide_unpack _); vm_compute; exact I).
  assert (Hm : weights_nonneg mixed)
    by (apply (bool_decide_unpack _); vm_compute; exact I).
  assert (Sw : tag_sum whale <= 1000000) by (vm_compute; discriminate).
  assert (Sm : tag_sum mixed <= 1000000) by (vm_compute; discriminate).
  destruct explicit_weights_within_scale as [Hblend [Hdecay Hmix]].
  split; [|split].
  - apply Hblend.
    + repeat constructor; try assumption; unfold Qle; simpl; lia.
    + repeat constructor; assumption.
  - apply (Hdecay mixed 50000); [exact Hm | lia | exact Sm].
  - apply Hmix; try assumption; lia.
Defined.
(** ** Monotone fee curves *)

Lemma int_of_float_mono x y : (x <= y)%Q -> int_of_float x <= int_of_float y.
Proof.
  intros Hxy. unfold int_of_float.
  destruct (Qle_bool_spec 0 x) as [Hx|Hx], (Qle_bool_spec 0 y) as [Hy|Hy].
  - by apply Qfloor_resp_le.
  - exfalso. apply Hy. lra.
  - assert (Qceiling x <= 0).
    { change 0 with (Qceiling 0). apply Qceiling_resp_le. lra. }
    assert (0 <= Qfloor y).
    { change 0 with (Qfloor 0). by apply Qfloor_resp_le. }
    lia.
  - by apply Qceiling_resp_le.
Qed.

Lemma py_max_ge_r a b : (b <= py_max a b)%Q.
Proof. unfold py_max. destruct (Qltb_spec a b); lra. Qed.

Lemma py_min_mono a x y : (x <= y)%Q -> (py_min a x <= py_min a y)%Q.
Proof.
  intros H. unfold py_min.
  destruct (Qltb_spec x a), (Qltb_spec y a); lra.
Qed.

Lemma Qdiv_le_mono a b c : (0 < c)%Q -> (a <= b)%Q -> (a / c <= b / c)%Q.
Proof.
  intros Hc Hab. unfold Qdiv. apply Qmult_le_compat_r; [exact Hab|].
  apply Qinv_le_0_compat. lra.
Qed.

Lemma Qinv_le_contravar u v : (0 < v)%Q -> (v <= u)%Q -> (1 / u <= 1 / v)%Q.
Proof.
  intros Hv Hvu. assert (Hu : (0 < u)%Q) by lra.
  apply Qle_shift_div_l; [exact Hv|].
  assert (E : (1 / u * v == v / u)%Q) by (field; lra).
  rewrite E. apply Qle_shift_div_r; [exact Hu | lra].
Qed.

Lemma scale_mono lo hi s t : (lo <= hi)%Q -> (s <= t)%Q ->
  (lo + (hi - lo) * s <= lo + (hi - lo) * t)%Q.
Proof. intros. nra. Qed.

Section SigmoidFacts.

Variable exp : Q -> Q.
Hypothesis exp_pos : forall x, (0 < exp x)%Q.
Hypothesis exp_mono : forall x y, (x <= y)%Q -> (exp x <= exp y)%Q.

Lemma logistic_bounds x : (0 <= 1 / (1 + exp (- x)) <= 1)%Q.
Proof.
  pose proof (exp_pos (- x)) as H. split.
  - apply Qle_shift_div_l; lra.
  - apply Qle_shift_div_r; lra.
Qed.

Lemma sigmoid_of_mono x y : (x <= y)%Q -> (sigmoid_of exp x <= sigmoid_of exp y)%Q.
Proof.
  intros Hxy. unfold sigmoid_of.
  pose proof (logistic_bounds x) as Hbx. pose proof (logistic_bounds y) as Hby.
  destruct (Qltb_spec (-700) x), (Qltb_spec x 700), (Qltb_spec (-700) y),
    (Qltb_spec y 700); simpl;
    repeat match goal with |- context [Qltb ?a ?b] => destruct (Qltb_spec a b) end;
    try lra.
  apply Qinv_le_contravar.
  - pose proof (exp_pos (- y)). lra.
  - assert (exp (- y) <= exp (- x))%Q by (apply exp_mono; lra). lra.
Qed.

Lemma rate_bps_sigmoid cfg w :
  Qeq_bool (r_min_bps cfg) (r_max_bps cfg) = false ->
  rate_bps exp cfg w
  = (r_min_bps cfg + (r_max_bps cfg - r_min_bps cfg)
     * sigmoid_of exp ((w - w_mid cfg) / py_max (steepness cfg) 1))%Q.
Proof. intros E. unfold rate_bps, sigmoid_of. rewrite E. reflexivity. Qed.

Lemma rate_bps_mono cfg wa wb :
  (r_min_bps cfg <= r_max_bps cfg)%Q -> (wb <= wa)%Q ->
  (rate_bps exp cfg wb <= rate_bps exp cfg wa)%Q.
Proof.
  intros Hr Hw.
  destruct (Qeq_bool (r_min_bps cfg) (r_max_bps cfg)) eqn:E.
  - unfold rate_bps. rewrite E. apply Qle_refl.
  - rewrite !rate_bps_sigmoid by exact E.
    apply scale_mono; [exact Hr|]. apply sigmoid_of_mono.
    apply Qdiv_le_mono; [|lra].
    pose proof (py_max_ge_r (steepness cfg) 1). lra.
Qed.

End SigmoidFacts.

Lemma linear_fee_rate_mono wa wb max_wealth r_min r_max :
  (r_min <= r_max)%Q -> (wb <= wa)%Q ->
  (ThreeSegment.linear_fee_rate wb max_wealth r_min r_max
   <= ThreeSegment.linear_fee_rate wa max_wealth r_min r_max)%Q.
Proof.
  intros Hr Hw. unfold ThreeSegment.linear_fee_rate.
  destruct (Qle_bool_spec max_wealth 0); [apply Qle_refl|].
  apply scale_mono; [exact Hr|]. apply py_min_mono.
  apply Qdiv_le_mono; lra.
Qed.

Lemma compute_fee_rate_mono sa sb max_wealth r_min r_max :
  (r_min <= r_max)%Q -> sb <= sa ->
  (Reference.compute_fee_rate sb max_wealth r_min r_max
   <= Reference.compute_fee_rate sa max_wealth r_min r_max)%Q.
Proof.
  intros Hr Hs. unfold Reference.compute_fee_rate.
  destruct (Z.leb_spec max_wealth 0); [apply Qle_refl|].
  apply scale_mono; [exact Hr|]. apply py_min_mono.
  apply Qdiv_le_mono.
  - change 0%Q with (inject_Z 0). rewrite <- Zlt_Qlt. lia.
  - by rewrite <- Zle_Qle.
Qed.

Lemma interpolation_bounds a c : (0 < c)%Q -> (0 <= a)%Q -> (a <= c)%Q ->
  (0 <= a / c <= 1)%Q.
Proof.
  intros Hc Ha Hac. split.
  - apply Qle_shift_div_l; lra.
  - apply Qle_shift_div_r; lra.
Qed.

Lemma three_segment_fee_rate_mono wa wb max_wealth w1_frac w2_frac
      r_poor r_mid_start r_mid_end r_rich :
  (r_poor <= r_mid_start)%Q -> (r_mid_start <= r_mid_end)%Q -> (r_mid_end <= r_rich)%Q ->
  (wb <= wa)%Q ->
  (ThreeSegment.three_segment_fee_rate wb max_wealth w1_frac w2_frac
                                       r_poor r_mid_start r_mid_end r_rich
   <= ThreeSegment.three_segment_fee_rate wa max_wealth w1_frac w2_frac
                                          r_poor r_mid_start r_mid_end r_rich)%Q.
Proof.
  intros H1 H2 H3 Hw. unfold ThreeSegment.three_segment_fee_rate.
  destruct (Qle_bool_spec max_wealth 0); [apply Qle_refl|].
  set (w1 := (max_wealth * w1_frac)%Q). set (w2 := (max_wealth * w2_frac)%Q).
  assert (Hmid : forall w, (w1 <= w)%Q -> (w < w2)%Q ->
                           (r_mid_start
                            <= r_mid_start + (w - w1) / (w2 - w1) * (r_mid_end - r_mid_start)
                            <= r_mid_end)%Q).
  { intros w Hl Hu.
    destruct (interpolation_bounds (w - w1) (w2 - w1)) as [Ht0 Ht1]; try lra.
    split; nra. }
  destruct (Qltb_spec wb w1) as [Hb1|Hb1].
  - (* the poorer sender is in the first segment *)
    destruct (Qltb_spec wa w1) as [Ha1|Ha1]; [lra|].
    destruct (Qltb_spec wa w2) as [Ha|Ha]; [|lra].
    pose proof (Hmid wa ltac:(lra) Ha). lra.
  - destruct (Qltb_spec wa w1) as [Ha1|Ha1]; [lra|].
    destruct (Qltb_spec wb w2) as [Hb|Hb], (Qltb_spec wa w2) as [Ha|Ha].
    + (* both in the middle segment *)
      assert ((wb - w1) / (w2 - w1) <= (wa - w1) / (w2 - w1))%Q
        by (apply Qdiv_le_mono; lra).
      nra.
    + pose proof (Hmid wb ltac:(lra) Hb). lra.
    + lra.
    + lra.
Qed.

(** C5, as the claim states it, fails for the three-segment curve: its
    hypothesis orders only the lowest and the highest rate, and with
    [r_poor = 1% <= r_rich = 15%] but a middle segment ending at 20% the
    rate at wealth 499 is above the rate at wealth 500, and so is the fee
    of a transfer of 1,000. *)
Lemma fee_monotone_counterexample :
  let rate w :=
    ThreeSegment.three_segment_fee_rate w 1000 (1 # 10) (5 # 10)
                                        (1 # 100) (2 # 100) (20 # 100) (15 # 100) in
  (1 # 100 <= 15 # 100)%Q
  /\ (499 < 500)%Q
  /\ (rate 500 == 15 # 100)%Q
  /\ (rate 499 == 19955 # 100000)%Q
  /\ ~ (1000 * rate 499 <= 1000 * rate 500)%Q
  /\ ~ (rate 499 <= rate 500)%Q.
Proof.
  intros rate.
  assert (E1 : (rate 500 == 15 # 100)%Q) by reflexivity.
  assert (E2 : (rate 499 == 19955 # 100000)%Q) by reflexivity.
  repeat split; try assumption; try (unfold Qle, Qlt; simpl; lia).
Qed.

(** C5, amended.  For a fixed non-negative amount the fee does not decrease
    when the effective wealth increases:
    - with the sigmoid curve [FeeConfig.rate_bps] when
      [r_min_bps <= r_max_bps] ([math.exp] being positive and monotone),
      for the fee [amount * rate / 10000] and for its truncation to an int;
    - with the linear curve [compute_fee_rate] (and [linear_fee_rate]) when
      [r_min <= r_max];
    - with [three_segment_fee_rate] when the segment rates are ordered,
      [r_poor <= r_mid_start <= r_mid_end <= r_rich]. *)
Theorem fee_monotone_in_wealth :
  (forall (exp : Q -> Q) (cfg : FeeConfig) (wa wb amount : Q),
      (forall x, 0 < exp x)%Q -> (forall x y, x <= y -> exp x <= exp y)%Q ->
      (r_min_bps cfg <= r_max_bps cfg)%Q -> (wb < wa)%Q -> (0 <= amount)%Q ->
      (rate_bps exp cfg wb <= rate_bps exp cfg wa)%Q
      /\ (amount * rate_bps exp cfg wb / 10000 <= amount * rate_bps exp cfg wa / 10000)%Q
      /\ int_of_float (amount * rate_bps exp cfg wb / 10000)
         <= int_of_float (amount * rate_bps exp cfg wa / 10000))
  /\ (forall (sa sb max_wealth total_output_value : Z) (r_min r_max : Q),
         (r_min <= r_max)%Q -> sb < sa -> 0 <= total_output_value ->
         (Reference.compute_fee_rate sb max_wealth r_min r_max
          <= Reference.compute_fee_rate sa max_wealth r_min r_max)%Q
         /\ int_of_float (inject_Z total_output_value
                          * Reference.compute_fee_rate sb max_wealth r_min r_max)
            <= int_of_float (inject_Z total_output_value
                             * Reference.compute_fee_rate sa max_wealth r_min r_max))
  /\ (forall (wa wb max_wealth amount r_min r_max : Q),
         (r_min <= r_max)%Q -> (wb < wa)%Q -> (0 <= amount)%Q ->
         (amount * ThreeSegment.linear_fee_rate wb max_wealth r_min r_max
          <= amount * ThreeSegment.linear_fee_rate wa max_wealth r_min r_max)%Q)
  /\ (forall (wa wb max_wealth amount w1_frac w2_frac
                 r_poor r_mid_start r_mid_end r_rich : Q),
         (r_poor <= r_mid_start)%Q -> (r_mid_start <= r_mid_end)%Q ->
         (r_mid_end <= r_rich)%Q -> (wb < wa)%Q -> (0 <= amount)%Q ->
         (amount * ThreeSegment.three_segment_fee_rate wb max_wealth w1_frac w2_frac
                     r_poor r_mid_start r_mid_end r_rich
          <= amount * ThreeSegment.three_segment_fee_rate wa max_wealth w1_frac w2_frac
                        r_poor r_mid_start r_mid_end r_rich)%Q).
Proof.
  split; [|split; [|split]].
  - intros exp cfg wa wb amount Hpos Hmono Hr Hw Ha.
    assert (Hrate : (rate_bps exp cfg wb <= rate_bps exp cfg wa)%Q).
    { apply rate_bps_mono; try assumption. lra. }
    assert (Hfee : (amount * rate_bps exp cfg wb / 10000
                    <= amount * rate_bps exp cfg wa / 10000)%Q).
    { apply Qdiv_le_mono; [reflexivity | nra]. }
    split; [exact Hrate|]. split; [exact Hfee|]. by apply int_of_float_mono.
  - intros sa sb mw total r_min r_max Hr Hs Ht.
    assert (Hrate : (Reference.compute_fee_rate sb mw r_min r_max
                     <= Reference.compute_fee_rate sa mw r_min r_max)%Q).
    { apply compute_fee_rate_mono; [exact Hr | lia]. }
    split; [exact Hrate|]. apply int_of_float_mono.
    assert (0 <= inject_Z total)%Q by (change 0%Q with (inject_Z 0); by rewrite <- Zle_Qle).
    nra.
  - intros wa wb mw amount r_min r_max Hr Hw Ha.
    pose proof (linear_fee_rate_mono wa wb mw r_min r_max Hr ltac:(lra)). nra.
  - intros wa wb mw amount w1f w2f rp rs re rr H1 H2 H3 Hw Ha.
    pose proof (three_segment_fee_rate_mono wa wb mw w1f w2f rp rs re rr H1 H2 H3
                  ltac:(lra)). nra.
Qed.

Lemma exp_standin_pos x : (0 < exp_standin x)%Q.
Proof. unfold exp_standin. apply Qpower_0_lt. reflexivity. Qed.

Lemma exp_standin_mono x y : (x <= y)%Q -> (exp_standin x <= exp_standin y)%Q.
Proof.
  intros H. unfold exp_standin. apply Qpower_le_compat_l.
  - by apply Qfloor_resp_le.
  - unfold Qle. simpl. lia.
Qed.

Lemma fee_monotone_in_wealth_witness :
  let cfg := {| name := "sigmoid"; r_min_bps := 5; r_max_bps := 500;
                w_mid := 1000; steepness := 200 |} in
  (rate_bps exp_standin cfg 500 <= rate_bps exp_standin cfg 2000)%Q
  /\ (Reference.compute_fee_rate 10000 1000000 (1 # 100) (15 # 100)
      <= Reference.compute_fee_rate 1000000 1000000 (1 # 100) (15 # 100))%Q
  /\ (100 * ThreeSegment.linear_fee_rate 200 1000 (1 # 100) (15 # 100)
      <= 100 * ThreeSegment.linear_fee_rate 400 1000 (1 # 100) (15 # 100))%Q
  /\ (100 * ThreeSegment.three_segment_fee_rate
              200 1000 (1 # 10) (5 # 10) (1 # 100) (2 # 100) (12 # 100) (15 # 100)
      <= 100 * ThreeSegment.three_segment_fee_rate
                 400 1000 (1 # 10) (5 # 10) (1 # 100) (2 # 100) (12 # 100) (15 # 100))%Q.
Proof.
  intros cfg.
  destruct fee_monotone_in_wealth as [Hsig [Href [Hlin Hseg]]].
  split; [|split; [|split]].
  - apply (Hsig exp_standin cfg 2000 500 100 exp_standin_pos exp_standin_mono)%Q;
      unfold Qle, Qlt; simpl; lia.
  - apply (Href 1000000 10000 1000000 95000); [unfold Qle; simpl; lia | lia | lia].
  - apply Hlin; unfold Qle, Qlt; simpl; lia.
  - apply Hseg; unfold Qle, Qlt; simpl; lia.
Defined.

(** ** Failed transfers leave the state alone *)

Lemma lookup_after_insert {A} (l : list A) (s r : nat) (x y : A) :
  l !! s = Some x -> is_Some (l !! r) -> is_Some (<[s := y]> l !! r).
Proof.
  intros Hs Hr. destruct (decide (s = r)) as [<-|Hne].
  - rewrite list_lookup_insert_eq; [by eexists|]. by eapply lookup_lt_Some.
  - by rewrite list_lookup_insert_ne.
Qed.

Lemma utxo_transfer_failure exp st sender_id receiver_id amount :
  fst (Utxo.transfer exp st sender_id receiver_id amount) = false ->
  snd (Utxo.transfer exp st sender_id receiver_id amount) = st.
Proof.
  unfold Utxo.transfer.
  destruct (_ || _); [reflexivity|].
  destruct (Utxo.select_first _ _ _) as [selected0 selected_value0].
  destruct selected0 as [|u0 rest0]; [reflexivity|].
  destruct (Utxo.select_final _ _ _ _ _ _) as [[[selected selected_value] fee] total_needed].
  destruct (Qltb selected_value total_needed); [reflexivity|].
  simpl. discriminate.
Qed.

Lemma utxo_transfer_invalid_amount exp st sender_id receiver_id amount :
  (amount <= 0)%Q -> fst (Utxo.transfer exp st sender_id receiver_id amount) = false.
Proof.
  intros Ha. unfold Utxo.transfer.
  destruct (Qle_bool_spec amount 0); [|contradiction].
  rewrite orb_true_r. reflexivity.
Qed.

Lemma utxo_transfer_insufficient_balance exp st sender_id receiver_id amount :
  (Utxo.get_owner_balance (Utxo.utxo_set st) sender_id < amount)%Q ->
  fst (Utxo.transfer exp st sender_id receiver_id amount) = false.
Proof.
  intros Hb. unfold Utxo.transfer. unfold Utxo.get_owner_balance in Hb.
  destruct (Qltb_spec (qsum (map Utxo.value
                                 (Utxo.get_owner_utxos (Utxo.utxo_set st) sender_id)))
                      amount); [|contradiction].
  reflexivity.
Qed.

Lemma utxo_transfer_insufficient_inputs exp st sender_id receiver_id amount
      selected0 selected_value0 selected selected_value fee total_needed :
  let sender_utxos := Utxo.get_owner_utxos (Utxo.utxo_set st) sender_id in
  Utxo.select_first st sender_utxos amount = (selected0, selected_value0) ->
  Utxo.select_final exp st sender_utxos amount selected0 selected_value0
  = (selected, selected_value, fee, total_needed) ->
  (selected_value < total_needed)%Q ->
  fst (Utxo.transfer exp st sender_id receiver_id amount) = false.
Proof.
  intros sender_utxos H0 H1 Hlt. unfold Utxo.transfer. fold sender_utxos.
  destruct (_ || _); [reflexivity|].
  rewrite H0. destruct selected0 as [|u0 rest0]; [reflexivity|].
  rewrite H1. destruct (Qltb_spec selected_value total_needed); [|contradiction].
  reflexivity.
Qed.

Lemma cluster_transfer_cases exp st s r amount decay cache sender receiver :
  Cluster.agents st !! s = Some sender ->
  Cluster.agents st !! r = Some receiver ->
  exists ok st',
    Cluster.transfer exp st s r amount decay cache = Some (ok, st')
    /\ (ok = false -> st' = st)
    /\ ((amount <= 0)%Q -> ok = false)
    /\ ((Cluster.balance sender < amount)%Q -> ok = false)
    /\ ((Cluster.balance sender
         < amount + Cluster.transfer_fee exp st sender amount cache)%Q -> ok = false).
Proof.
  intros Hs Hr. unfold Cluster.transfer. rewrite Hs, Hr. simpl.
  destruct (Qltb_spec (Cluster.balance sender) amount) as [Hb|Hb]; simpl.
  { exists false, st. repeat split; reflexivity. }
  destruct (Qle_bool_spec amount 0) as [Ha|Ha]; simpl.
  { exists false, st. repeat split; reflexivity. }
  destruct (Qltb_spec (Cluster.balance sender)
                      (amount + Cluster.transfer_fee exp st sender amount cache))
    as [Hc|Hc].
  { exists false, st. repeat split; reflexivity. }
  destruct (lookup_after_insert (Cluster.agents st) s r sender
              (Cluster.set_balance sender
                 (Cluster.balance sender
                  - (amount + Cluster.transfer_fee exp st sender amount cache))%Q)
              Hs ltac:(by eexists)) as [receiver' Hr'].
  rewrite Hr'. simpl. eexists true, _. split; [reflexivity|].
  repeat split; intros; try discriminate; contradiction.
Qed.

Lemma account_transfer_cases s r amount decay_rate cfg st sender receiver exp :
  Account.accounts st !! s = Some sender ->
  Account.accounts st !! r = Some receiver ->
  exists ok fee st',
    Account.execute_transfer exp s r amount decay_rate cfg st = Some ((ok, fee), st')
    /\ (ok = false -> st' = st /\ fee = 0)
    /\ (amount <= 0 -> ok = false)
    /\ (Account.balance sender < amount -> ok = false).
Proof.
  intros Hs Hr. unfold Account.execute_transfer. rewrite Hs, Hr. simpl.
  destruct (Z.ltb_spec (Account.balance sender) amount) as [Hb|Hb]; simpl.
  { exists false, 0, st. repeat split; reflexivity. }
  destruct (Z.leb_spec amount 0) as [Ha|Ha]; simpl.
  { exists false, 0, st. repeat split; reflexivity. }
  destruct (lookup_after_insert (Account.accounts st) s r sender
              (Account.set_balance sender (Account.balance sender - amount))
              Hs ltac:(by eexists)) as [receiver' Hr'].
  rewrite Hr'. simpl. eexists true, _, _. split; [reflexivity|].
  repeat split; intros; try discriminate; lia.
Qed.

Lemma sorted_insert_In {A} (key : A -> Q) (x y : A) (l : list A) :
  In x (sorted_insert key y l) <-> x = y \/ In x l.
Proof.
  induction l as [|z l IH]; simpl.
  - intuition congruence.
  - destruct (Qltb (key z) (key y)); simpl; rewrite ?IH; intuition congruence.
Qed.

Lemma sorted_In {A} (key : A -> Q) (x : A) (l : list A) :
  In x (sorted key l) <-> In x l.
Proof.
  unfold sorted. induction l as [|y l IH]; simpl.
  - tauto.
  - rewrite sorted_insert_In, IH. intuition congruence.
Qed.

Lemma UTXO_eqb_refl u : Utxo.UTXO_eqb u u = true.
Proof.
  unfold Utxo.UTXO_eqb. rewrite !Z.eqb_refl.
  rewrite (proj2 (Qeq_bool_iff _ _) (Qeq_refl _)).
  rewrite bool_decide_eq_true_2 by reflexivity. reflexivity.
Qed.

Lemma UTXO_in_In u l : In u l -> Utxo.UTXO_in u l = true.
Proof.
  intros H. unfold Utxo.UTXO_in. apply existsb_exists.
  exists u. split; [exact H | apply UTXO_eqb_refl].
Qed.

Lemma UTXO_in_app u l1 l2 :
  Utxo.UTXO_in u (l1 ++ l2) = Utxo.UTXO_in u l1 || Utxo.UTXO_in u l2.
Proof. unfold Utxo.UTXO_in. apply existsb_app. Qed.

(** When the second selection loop ends without covering amount plus fee,
    it has appended every candidate. *)
Lemma select_more_exhausts exp st amount candidates selected selected_value fee
      total_needed selected' selected_value' fee' total_needed' :
  Utxo.select_more exp st amount candidates selected selected_value fee total_needed
  = (selected', selected_value', fee', total_needed') ->
  (selected_value' < total_needed')%Q ->
  selected' = selected ++ candidates.
Proof.
  revert selected selected_value fee total_needed.
  induction candidates as [|u rest IH]; intros sel v f need; simpl.
  - intros [= <- <- <- <-] _. by rewrite app_nil_r.
  - destruct (Qle_bool_spec (amount + Utxo.fee_for exp st amount (sel ++ [u]))
                            (v + Utxo.value u)) as [Hcov|Hcov].
    + intros [= <- <- <- <-] Hlt. lra.
    + intros Hrec Hlt. rewrite (IH _ _ _ _ Hrec Hlt). by rewrite <- app_assoc.
Qed.

Lemma select_final_exhausts exp st sender_utxos amount selected0 selected_value0
      selected selected_value fee total_needed :
  Utxo.select_final exp st sender_utxos amount selected0 selected_value0
  = (selected, selected_value, fee, total_needed) ->
  (selected_value < total_needed)%Q ->
  Forall (fun u => Utxo.UTXO_in u selected = true) sender_utxos.
Proof.
  unfold Utxo.select_final.
  destruct (Qltb_spec selected_value0
                      (amount + Utxo.fee_for exp st amount selected0)) as [Hlt0|Hge0].
  - intros Hmore Hlt. rewrite (select_more_exhausts _ _ _ _ _ _ _ _ _ _ _ _ Hmore Hlt).
    apply Forall_forall. intros u Hu. rewrite UTXO_in_app.
    destruct (Utxo.UTXO_in u selected0) eqn:E; [reflexivity|]. simpl.
    apply UTXO_in_In, sorted_In, filter_In. split; [|by rewrite E].
    by apply list_elem_of_In.
  - intros [= <- <- <- <-] Hlt. contradiction.
Qed.

(** C3.  In the UTXO model, the cluster model and the account model, a
    transfer that returns failure returns the state it was given: the UTXO
    set, the balances, the tag vectors, the cluster ledger and the fee total
    are those of before the call.  A non-positive amount fails, a sender
    balance below the amount fails, and so does a sender who cannot cover
    amount plus fee: in the UTXO model that last failure occurs only once
    every UTXO of the sender has been selected. *)
Theorem failed_transfer_is_atomic :
  (forall (exp : Q -> Q) (st : Utxo.SimState) (sender_id receiver_id : Z) (amount : Q),
      let sender_utxos := Utxo.get_owner_utxos (Utxo.utxo_set st) sender_id in
      let result := Utxo.transfer exp st sender_id receiver_id amount in
      (fst result = false -> snd result = st)
      /\ ((amount <= 0)%Q -> fst result = false)
      /\ ((Utxo.get_owner_balance (Utxo.utxo_set st) sender_id < amount)%Q ->
          fst result = false)
      /\ (forall selected0 selected_value0 selected selected_value fee total_needed,
             Utxo.select_first st sender_utxos amount = (selected0, selected_value0) ->
             Utxo.select_final exp st sender_utxos amount selected0 selected_value0
             = (selected, selected_value, fee, total_needed) ->
             (selected_value < total_needed)%Q ->
             fst result = false
             /\ Forall (fun u => Utxo.UTXO_in u selected = true) sender_utxos))
  /\ (forall (exp : Q -> Q) (st : Cluster.SimState) (s r : nat) (amount decay : Q)
             (cache : option (gmap Z Q)) (sender receiver : Cluster.Agent),
         Cluster.agents st !! s = Some sender ->
         Cluster.agents st !! r = Some receiver ->
         exists ok st',
           Cluster.transfer exp st s r amount decay cache = Some (ok, st')
           /\ (ok = false -> st' = st)
           /\ ((amount <= 0)%Q -> ok = false)
           /\ ((Cluster.balance sender < amount)%Q -> ok = false)
           /\ ((Cluster.balance sender
                < amount + Cluster.transfer_fee exp st sender amount cache)%Q ->
               ok = false))
  /\ (forall (exp : Q -> Q) (st : Account.Store) (s r : nat) (amount decay_rate : Z)
             (cfg : FeeConfig) (sender receiver : Account.Account),
         Account.accounts st !! s = Some sender ->
         Account.accounts st !! r = Some receiver ->
         exists ok fee st',
           Account.execute_transfer exp s r amount decay_rate cfg st
           = Some ((ok, fee), st')
           /\ (ok = false -> st' = st /\ fee = 0)
           /\ (amount <= 0 -> ok = false)
           /\ (Account.balance sender < amount -> ok = false)).
Proof.
  split; [|split].
  - intros exp st sender_id receiver_id amount sender_utxos result.
    split; [apply utxo_transfer_failure|].
    split; [apply utxo_transfer_invalid_amount|].
    split; [apply utxo_transfer_insufficient_balance|].
    intros sel0 v0 sel v fee need H0 H1 Hlt. split.
    + by eapply utxo_transfer_insufficient_inputs.
    + by eapply select_final_exhausts.
  - intros. by eapply cluster_transfer_cases.
  - intros. by eapply account_transfer_cases.
Qed.

Lemma failed_transfer_is_atomic_witness :
  snd (Utxo.transfer exp_standin utxo_example 0 1 500) = utxo_example
  /\ (exists ok st',
         Cluster.transfer exp_standin cluster_example 0 1 (-5) (5 # 100) None
         = Some (ok, st')
         /\ ok = false /\ st' = cluster_example)
  /\ (exists ok fee st',
         Account.execute_transfer exp_standin 0 1 200000 50000 progressive_config
                                  (Account.store account_example)
         = Some ((ok, fee), st')
         /\ ok = false /\ st' = Account.store account_example).
Proof.
  destruct failed_transfer_is_atomic as [Hutxo [Hcluster Haccount]].
  split; [|split].
  - apply (Hutxo exp_standin utxo_example 0 1 500%Q). vm_compute. reflexivity.
  - destruct (Hcluster exp_standin cluster_example 0%nat 1%nat (-5)%Q (5 # 100)%Q None
                       _ _ eq_refl eq_refl) as (ok & st' & E & Hsame & Hneg & _).
    assert (Hok : ok = false) by (apply Hneg; unfold Qle; simpl; lia).
    exists ok, st'. split; [exact E|]. split; [exact Hok | exact (Hsame Hok)].
  - destruct (Haccount exp_standin (Account.store account_example) 0%nat 1%nat
                       200000 50000 progressive_config _ _ eq_refl eq_refl)
      as (ok & fee & st' & E & Hsame & _ & Hlow).
    assert (Hok : ok = false) by (apply Hlow; vm_compute; reflexivity).
    exists ok, fee, st'. split; [exact E|]. split; [exact Hok | exact (proj1 (Hsame Hok))].
Defined.

(** ** Conservation of value *)

Lemma fold_left_Zadd l a : fold_left Z.add l a = a + zsum l.
Proof.
  unfold zsum. revert a. induction l as [|x l IH]; intros a; simpl.
  - lia.
  - rewrite (IH (a + x)), (IH (0 + x)). lia.
Qed.

Lemma zsum_cons x l : zsum (x :: l) = x + zsum l.
Proof. unfold zsum at 1. simpl. rewrite fold_left_Zadd. lia. Qed.

Lemma zsum_app l1 l2 : zsum (l1 ++ l2) = zsum l1 + zsum l2.
Proof.
  induction l1 as [|x l1 IH]; simpl.
  - reflexivity.
  - rewrite !zsum_cons, IH. lia.
Qed.

Section AccountConservation.

Import Account.

Variable exp : Q -> Q.

Lemma balances_insert l i old new :
  l !! i = Some old ->
  balances (<[i := new]> l) = balances l - balance old + balance new.
Proof.
  intros Hi. unfold balances.
  rewrite <- (take_drop_middle l i old Hi) at 2.
  rewrite insert_take_drop by (by eapply lookup_lt_Some).
  rewrite !map_app, !zsum_app. simpl. rewrite !zsum_cons. lia.
Qed.

Lemma execute_transfer_conserves s r amount decay cfg st ok fee st' :
  execute_transfer exp s r amount decay cfg st = Some ((ok, fee), st') ->
  balances (accounts st') + (if ok then fee else 0) = balances (accounts st).
Proof.
  unfold execute_transfer.
  destruct (accounts st !! s) as [sender|] eqn:Hs; [|discriminate].
  destruct (accounts st !! r) as [receiver0|] eqn:Hr; [|discriminate]. simpl.
  destruct (_ || _).
  { intros [= <- <- <-]. lia. }
  set (fee0 := int_of_float _).
  set (accs1 := <[s := set_balance sender (balance sender - amount)]> (accounts st)).
  destruct (accs1 !! r) as [receiver|] eqn:Hr1; [|discriminate]. simpl.
  intros [= <- <- <-]. simpl.
  rewrite (balances_insert accs1 r receiver _ Hr1). simpl.
  unfold accs1. rewrite (balances_insert (accounts st) s sender _ Hs). simpl. lia.
Qed.

Lemma transfer_step_conserves s r amount st :
  total_balance (transfer_step exp s r amount st) + total_fees (transfer_step exp s r amount st)
  = total_balance st + total_fees st.
Proof.
  unfold transfer_step, total_balance.
  destruct (execute_transfer exp s r amount (decay_rate st) (fee_config st) (store st))
    as [[[ok fee] store']|] eqn:E; [|reflexivity].
  apply execute_transfer_conserves in E. unfold balances in E. simpl.
  destruct ok; lia.
Qed.

Lemma mint_adds atype bal st :
  total_balance (mint atype bal st) + total_fees (mint atype bal st)
  = total_balance st + total_fees st + bal.
Proof.
  unfold mint, total_balance. simpl. rewrite map_app, zsum_app. simpl.
  rewrite zsum_cons. unfold zsum at 2. simpl. lia.
Qed.

Lemma run_conserves ops st :
  total_balance (run exp ops st) + total_fees (run exp ops st)
  = total_balance st + total_fees st + minted ops.
Proof.
  revert st. induction ops as [|o ops IH]; intros st.
  - unfold minted, zsum. simpl. lia.
  - change (run exp (o :: ops) st) with (run exp ops (run_op exp o st)).
    rewrite IH. unfold minted. simpl. rewrite zsum_cons.
    destruct o as [atype bal|s r amount]; simpl.
    + rewrite mint_adds. lia.
    + rewrite transfer_step_conserves. lia.
Qed.

End AccountConservation.

Section UtxoConservation.

Import Utxo.

Lemma live_insert (m : gmap Z UTXO) k u :
  m !! k = None -> (live (<[k := u]> m) == live m + value u)%Q.
Proof.
  intros Hk. unfold live.
  apply (map_fold_insert Qeq (fun _ u acc => (acc + value u)%Q)); [| |exact Hk].
  - intros j z a b Hab. by rewrite Hab.
  - intros. ring.
Qed.

Lemma live_delete (m : gmap Z UTXO) k u :
  m !! k = Some u -> (live (delete k m) == live m - value u)%Q.
Proof.
  intros Hk.
  rewrite <- (insert_delete_id m k u Hk) at 2.
  rewrite live_insert by apply lookup_delete_eq. ring.
Qed.

Lemma utxo_wf_init : utxo_wf UTXOSet_init.
Proof.
  split; simpl.
  - intros k u H. by rewrite lookup_empty in H.
  - intros o ids H. by rewrite lookup_empty in H.
  - intros o ids k H. by rewrite lookup_empty in H.
Qed.

Lemma create_utxo_wf v t o us :
  utxo_wf us -> utxo_wf (snd (create_utxo v t o us)).
Proof.
  intros [Hkey Hnd Hbd]. split; simpl.
  - intros k u. rewrite lookup_insert. case_decide as E.
    + intros [= <-]. simpl. split; [exact E | lia].
    + intros H. destruct (Hkey k u H). split; [assumption | lia].
  - intros o' ids. rewrite lookup_insert. case_decide as E.
    + intros [= <-]. subst o'.
      destruct (by_owner us !! o) as [old|] eqn:Ho; simpl.
      * apply NoDup_app. split; [by eapply Hnd|]. split; [|apply NoDup_singleton].
        intros x Hx Hin. apply list_elem_of_singleton in Hin. subst x.
        specialize (Hbd o old _ Ho Hx). lia.
      * apply NoDup_singleton.
    + intros H. by eapply Hnd.
  - intros o' ids k. rewrite lookup_insert. case_decide as E.
    + intros [= <-]. subst o'. intros Hin. apply elem_of_app in Hin as [Hin|Hin].
      * destruct (by_owner us !! o) as [old|] eqn:Ho; simpl in Hin.
        -- specialize (Hbd o old _ Ho Hin). lia.
        -- by apply elem_of_nil in Hin.
      * apply list_elem_of_singleton in Hin. subst k. lia.
    + intros H Hin. specialize (Hbd o' ids k H Hin). lia.
Qed.

Lemma create_utxo_live v t o us :
  utxo_wf us ->
  (total_live (snd (create_utxo v t o us)) == total_live us + v)%Q.
Proof.
  intros [Hkey _ _]. unfold total_live. simpl. fold (live (utxos us)).
  change (map_fold _ 0%Q ?m) with (live m).
  rewrite live_insert; [reflexivity|].
  destruct (utxos us !! next_id us) as [u|] eqn:E; [|reflexivity].
  destruct (Hkey _ _ E). lia.
Qed.

Lemma spend_utxo_wf k us : utxo_wf us -> utxo_wf (spend_utxo k us).
Proof.
  intros [Hkey Hnd Hbd]. unfold spend_utxo.
  destruct (utxos us !! k) as [u|] eqn:Hk; [|by split].
  split; simpl.
  - intros k' u'. rewrite lookup_delete. case_decide; [discriminate|]. apply Hkey.
  - intros o ids. destruct (by_owner us !! owner u) as [old|] eqn:Ho; [|apply Hnd].
    rewrite lookup_insert. case_decide as E; [|apply Hnd].
    intros [= <-]. apply NoDup_ListNoDup, List.NoDup_filter, NoDup_ListNoDup.
    by eapply Hnd.
  - intros o ids k'. destruct (by_owner us !! owner u) as [old|] eqn:Ho; [|apply Hbd].
    rewrite lookup_insert. case_decide as E; [|apply Hbd].
    intros [= <-] Hin. apply list_elem_of_In, filter_In in Hin as [Hin _].
    apply list_elem_of_In in Hin. by eapply Hbd.
Qed.

Lemma spend_utxo_utxos k u us :
  utxos us !! k = Some u -> utxos (spend_utxo k us) = delete k (utxos us).
Proof. intros H. unfold spend_utxo. by rewrite H. Qed.

(** Spending a list of distinct live UTXOs removes their values. *)
Lemma spend_all_live (l : list UTXO) us :
  NoDup (id <$> l) ->
  (forall u, u ∈ l -> utxos us !! id u = Some u) ->
  (total_live (fold_left (fun us u => spend_utxo (id u) us) l us)
   == total_live us - qsum (map value l))%Q.
Proof.
  revert us. induction l as [|u l IH]; intros us Hnd Hin.
  - unfold qsum. simpl. ring.
  - simpl. rewrite fmap_cons in Hnd. apply NoDup_cons in Hnd as [Hu Hnd].
    rewrite IH.
    + rewrite qsum_cons. unfold total_live at 1.
      rewrite (spend_utxo_utxos (id u) u) by (apply Hin; left).
      change (map_fold _ 0%Q ?m) with (live m).
      rewrite (live_delete _ _ u) by (apply Hin; left).
      unfold total_live. change (map_fold _ 0%Q ?m) with (live m). ring.
    + exact Hnd.
    + intros u' Hu'. rewrite (spend_utxo_utxos (id u) u) by (apply Hin; left).
      rewrite lookup_delete_ne; [apply Hin; by right|].
      intros E. apply Hu. rewrite E. by apply list_elem_of_fmap_2.
Qed.

Lemma spend_all_wf (l : list UTXO) us :
  utxo_wf us -> utxo_wf (fold_left (fun us u => spend_utxo (id u) us) l us).
Proof.
  revert us. induction l as [|u l IH]; intros us H; simpl; [exact H|].
  apply IH. by apply spend_utxo_wf.
Qed.

Lemma qsum_app l1 l2 : (qsum (l1 ++ l2) == qsum l1 + qsum l2)%Q.
Proof.
  induction l1 as [|x l1 IH]; simpl.
  - unfold qsum at 2. simpl. ring.
  - rewrite !qsum_cons, IH. ring.
Qed.

Lemma sorted_insert_Permutation {A} (key : A -> Q) (x : A) (l : list A) :
  sorted_insert key x l ≡ₚ x :: l.
Proof.
  induction l as [|y l IH]; simpl; [reflexivity|].
  destruct (Qltb (key y) (key x)); [|reflexivity].
  rewrite IH. apply Permutation_swap.
Qed.

Lemma sorted_Permutation {A} (key : A -> Q) (l : list A) : sorted key l ≡ₚ l.
Proof.
  unfold sorted. induction l as [|x l IH]; simpl; [reflexivity|].
  rewrite sorted_insert_Permutation. by rewrite IH.
Qed.

Lemma NoDup_fmap_inj_on {A B} (f : A -> B) (l : list A) x y :
  NoDup (f <$> l) -> x ∈ l -> y ∈ l -> f x = f y -> x = y.
Proof.
  induction l as [|z l IH]; intros Hnd Hx Hy E.
  - by apply elem_of_nil in Hx.
  - rewrite fmap_cons in Hnd. apply NoDup_cons in Hnd as [Hz Hnd].
    apply elem_of_cons in Hx as [->|Hx]; apply elem_of_cons in Hy as [->|Hy].
    + reflexivity.
    + exfalso. apply Hz. rewrite E. by apply list_elem_of_fmap_2.
    + exfalso. apply Hz. rewrite <- E. by apply list_elem_of_fmap_2.
    + by apply IH.
Qed.

Lemma NoDup_fmap_sub {A B} (f : A -> B) (l l' : list A) :
  NoDup (f <$> l) -> NoDup l' -> (forall u, u ∈ l' -> u ∈ l) -> NoDup (f <$> l').
Proof.
  intros Hnd Hl' Hsub. apply NoDup_fmap_2_strong; [|exact Hl'].
  intros x y Hx Hy E. eapply NoDup_fmap_inj_on; eauto.
Qed.

Lemma owner_utxos_live us o :
  utxo_wf us ->
  NoDup (id <$> get_owner_utxos us o)
  /\ (forall u, u ∈ get_owner_utxos us o -> utxos us !! id u = Some u).
Proof.
  intros [Hkey Hnd _]. unfold get_owner_utxos.
  assert (Hids : NoDup (default [] (by_owner us !! o))).
  { destruct (by_owner us !! o) as [ids|] eqn:E; simpl; [by eapply Hnd | apply NoDup_nil_2]. }
  assert (Hmem : forall (ids : list Z) u, u ∈ omap (fun uid => utxos us !! uid) ids ->
                               id u ∈ ids /\ utxos us !! id u = Some u).
  { intros ids u Hu. apply list_elem_of_omap in Hu as (k & Hk & Hu).
    destruct (Hkey _ _ Hu) as [E _]. rewrite E. split; assumption. }
  split; [|intros u Hu; by apply (Hmem _ _ Hu)].
  induction Hids as [|k ids Hk Hids IH]; simpl; [apply NoDup_nil_2|].
  destruct (utxos us !! k) as [u|] eqn:Hu; simpl; [|exact IH].
  apply NoDup_cons. split; [|exact IH].
  destruct (Hkey _ _ Hu) as [E _]. rewrite E.
  intros Hin. apply list_elem_of_fmap in Hin as (u' & Eu' & Hu').
  destruct (Hmem _ _ Hu') as [Hin' _]. rewrite <- Eu' in Hin'. contradiction.
Qed.

Lemma select_estimated_spec estimated_total candidates selected selected_value
      selected' selected_value' :
  select_estimated estimated_total candidates selected selected_value
  = (selected', selected_value') ->
  exists pre suf,
    candidates = pre ++ suf /\ selected' = selected ++ pre
    /\ (selected_value' == selected_value + qsum (map value pre))%Q.
Proof.
  revert selected selected_value.
  induction candidates as [|u rest IH]; intros sel v; simpl.
  - intros [= <- <-]. exists [], [].
    split; [reflexivity|]. split; [by rewrite app_nil_r|]. unfold qsum. simpl. ring.
  - destruct (Qle_bool estimated_total (v + value u)).
    + intros [= <- <-]. exists [u], rest.
      split; [reflexivity|]. split; [reflexivity|].
      simpl. rewrite qsum_cons. unfold qsum. simpl. ring.
    + intros H. destruct (IH _ _ H) as (pre & suf & -> & -> & Hv).
      exists (u :: pre), suf. rewrite <- app_assoc.
      split; [reflexivity|]. split; [reflexivity|].
      simpl. rewrite qsum_cons, Hv. ring.
Qed.

Lemma select_more_spec exp st amount candidates selected selected_value fee total_needed
      selected' selected_value' fee' total_needed' :
  select_more exp st amount candidates selected selected_value fee total_needed
  = (selected', selected_value', fee', total_needed') ->
  total_needed = (amount + fee)%Q ->
  exists pre suf,
    candidates = pre ++ suf /\ selected' = selected ++ pre
    /\ (selected_value' == selected_value + qsum (map value pre))%Q
    /\ total_needed' = (amount + fee')%Q.
Proof.
  revert selected selected_value fee total_needed.
  induction candidates as [|u rest IH]; intros sel v f need; simpl.
  - intros [= <- <- <- <-] ->. exists [], [].
    split; [reflexivity|]. split; [by rewrite app_nil_r|]. split; [|reflexivity].
    unfold qsum. simpl. ring.
  - destruct (Qle_bool _ (v + value u)).
    + intros [= <- <- <- <-] _. exists [u], rest.
      split; [reflexivity|]. split; [reflexivity|]. split; [|reflexivity].
      simpl. rewrite qsum_cons. unfold qsum. simpl. ring.
    + intros H _. destruct (IH _ _ _ _ H eq_refl) as (pre & suf & -> & -> & Hv & Hn).
      exists (u :: pre), suf. rewrite <- app_assoc.
      split; [reflexivity|]. split; [reflexivity|]. split; [|exact Hn].
      simpl. rewrite qsum_cons, Hv. ring.
Qed.

Lemma UTXO_in_elem u l : u ∈ l -> UTXO_in u l = true.
Proof. intros H. by apply UTXO_in_In, list_elem_of_In. Qed.

Lemma transfer_plan_spec exp st sender_id amount selected selected_value fee total_needed :
  utxo_wf (utxo_set st) ->
  transfer_plan exp st sender_id amount = Some (selected, selected_value, fee, total_needed) ->
  NoDup (id <$> selected)
  /\ (forall u, u ∈ selected -> utxos (utxo_set st) !! id u = Some u)
  /\ (selected_value == qsum (map value selected))%Q
  /\ total_needed = (amount + fee)%Q
  /\ (total_needed <= selected_value)%Q.
Proof.
  intros Hwf. unfold transfer_plan.
  destruct (owner_utxos_live (utxo_set st) sender_id Hwf) as [Hnd Hlive].
  set (sender_utxos := get_owner_utxos (utxo_set st) sender_id) in *.
  destruct (_ || _); [discriminate|].
  destruct (select_first st sender_utxos amount) as [sel0 v0] eqn:H0.
  destruct sel0 as [|u0 rest0]; [discriminate|].
  destruct (select_final exp st sender_utxos amount (u0 :: rest0) v0)
    as [[[sel v] f] need] eqn:H1.
  destruct (Qltb_spec v need) as [|Hcov]; [discriminate|].
  intros [= <- <- <- <-].
  unfold select_first in H0.
  apply select_estimated_spec in H0 as (pre0 & suf0 & Hsorted0 & Hsel0 & Hv0).
  simpl in Hsel0. subst pre0.
  assert (Hsender : NoDup sender_utxos) by (by eapply NoDup_fmap_1).
  assert (Hpre0 : NoDup (u0 :: rest0) /\ forall u, u ∈ u0 :: rest0 -> u ∈ sender_utxos).
  { pose proof (sorted_Permutation (fun u => - value u)%Q sender_utxos) as HP.
    rewrite Hsorted0 in HP. split.
    - rewrite <- HP in Hsender. by apply NoDup_app in Hsender as [? _].
    - intros u Hu. rewrite <- HP. apply elem_of_app. by left. }
  destruct Hpre0 as [Hnd0 Hsub0].
  assert (Hfinal : NoDup sel /\ (forall u, u ∈ sel -> u ∈ sender_utxos)
                   /\ (v == qsum (map value sel))%Q /\ need = (amount + f)%Q).
  { unfold select_final in H1.
    destruct (Qltb v0 (amount + fee_for exp st amount (u0 :: rest0))).
    - apply select_more_spec in H1 as (pre1 & suf1 & Hsorted1 & -> & Hv1 & Hn1);
        [|reflexivity].
      set (remaining := List.filter (fun u => negb (UTXO_in u (u0 :: rest0))) sender_utxos)
        in *.
      pose proof (sorted_Permutation (fun u => - value u)%Q remaining) as HP.
      rewrite Hsorted1 in HP.
      assert (Hrem : NoDup remaining)
        by (apply NoDup_ListNoDup, List.NoDup_filter, NoDup_ListNoDup, Hsender).
      assert (Hin1 : forall u, u ∈ pre1 ->
                               u ∈ sender_utxos /\ UTXO_in u (u0 :: rest0) = false).
      { intros u Hu. assert (Hr : u ∈ remaining).
        { rewrite <- HP. apply elem_of_app. by left. }
        apply list_elem_of_In, filter_In in Hr as [Hr1 Hr2].
        split; [by apply list_elem_of_In|]. by destruct (UTXO_in u (u0 :: rest0)). }
      split; [|split; [|split]].
      + apply NoDup_app. split; [exact Hnd0|]. split.
        * intros u Hu Hu1. destruct (Hin1 u Hu1) as [_ E].
          rewrite (UTXO_in_elem u _ Hu) in E. discriminate.
        * rewrite <- HP in Hrem. by apply NoDup_app in Hrem as [? _].
      + intros u Hu. apply elem_of_app in Hu as [Hu|Hu]; [by apply Hsub0|].
        by apply Hin1.
      + rewrite Hv1, map_app, qsum_app, Hv0. simpl. ring.
      + exact Hn1.
    - injection H1 as <- <- <- <-. split; [exact Hnd0|]. split; [exact Hsub0|].
      split; [|reflexivity]. rewrite Hv0. simpl. ring. }
  destruct Hfinal as (Hndf & Hsubf & Hvf & Hneed).
  split; [by eapply NoDup_fmap_sub|]. split; [intros u Hu; by apply Hlive, Hsubf|].
  split; [exact Hvf|]. split; [exact Hneed|]. lra.
Qed.

Lemma transfer_by_plan exp st sender_id receiver_id amount :
  transfer exp st sender_id receiver_id amount
  = match transfer_plan exp st sender_id amount with
    | None => (false, st)
    | Some (selected, selected_value, fee, total_needed) =>
        let decayed_tags :=
          apply_decay (blend_tags (map (fun u => (value u, tags u)) selected))
                      (decay_rate st) in
        let us1 := fold_left (fun us u => spend_utxo (id u) us) selected (utxo_set st) in
        let us2 := snd (create_utxo amount decayed_tags receiver_id us1) in
        let change := (selected_value - total_needed)%Q in
        let us3 :=
          if Qltb (1 # 100) change
          then snd (create_utxo change decayed_tags sender_id us2)
          else us2 in
        (true,
         {| utxo_set := us3;
            fee_config := fee_config st;
            initial_cluster_wealth := initial_cluster_wealth st;
            total_fees := (total_fees st + fee)%Q;
            decay_rate := decay_rate st |})
    end.
Proof.
  unfold transfer, transfer_plan.
  destruct (_ || _); [reflexivity|].
  destruct (select_first _ _ _) as [sel0 v0].
  destruct sel0 as [|u0 rest0]; [reflexivity|].
  destruct (select_final _ _ _ _ _ _) as [[[sel v] f] need].
  destruct (Qltb v need); reflexivity.
Qed.

(** One transfer of the UTXO model: the live value plus the fees plus the
    change it dropped as dust is what it was before. *)
Lemma utxo_transfer_conserves exp st sender_id receiver_id amount :
  utxo_wf (utxo_set st) ->
  let st' := snd (transfer exp st sender_id receiver_id amount) in
  utxo_wf (utxo_set st')
  /\ (total_live (utxo_set st') + total_fees st' + dropped_change exp st sender_id amount
      == total_live (utxo_set st) + total_fees st)%Q.
Proof.
  intros Hwf. rewrite transfer_by_plan. unfold dropped_change.
  destruct (transfer_plan exp st sender_id amount) as [[[[sel v] fee] need]|] eqn:Hplan.
  2: { simpl. split; [exact Hwf | ring]. }
  destruct (transfer_plan_spec _ _ _ _ _ _ _ _ Hwf Hplan) as (Hnd & Hlive & Hv & Hneed & Hcov).
  cbv zeta. cbn [snd].
  set (decayed := apply_decay _ _).
  set (us1 := fold_left _ sel (utxo_set st)).
  assert (Hwf1 : utxo_wf us1) by (by apply spend_all_wf).
  assert (Hlive1 : (total_live us1 == total_live (utxo_set st) - qsum (map value sel))%Q)
    by (by apply spend_all_live).
  set (us2 := snd (create_utxo amount decayed receiver_id us1)).
  assert (Hwf2 : utxo_wf us2) by (by apply create_utxo_wf).
  assert (Hlive2 : (total_live us2 == total_live us1 + amount)%Q)
    by (by apply create_utxo_live).
  destruct (Qltb (1 # 100) (v - need)); cbn [utxo_set total_fees].
  - split; [by apply create_utxo_wf|].
    rewrite create_utxo_live by exact Hwf2. fold us2.
    rewrite Hlive2, Hlive1, <- Hv, Hneed. ring.
  - split; [exact Hwf2|]. rewrite Hlive2, Hlive1, <- Hv, Hneed. ring.
Qed.

Lemma dropped_change_bounds exp st sender_id amount :
  utxo_wf (utxo_set st) ->
  (0 <= dropped_change exp st sender_id amount <= 1 # 100)%Q.
Proof.
  intros Hwf. unfold dropped_change.
  destruct (transfer_plan exp st sender_id amount) as [[[[sel v] fee] need]|] eqn:Hplan.
  2: { split; unfold Qle; simpl; lia. }
  destruct (transfer_plan_spec _ _ _ _ _ _ _ _ Hwf Hplan) as (_ & _ & _ & _ & Hcov).
  cbv zeta. destruct (Qltb_spec (1 # 100) (v - need)).
  - split; unfold Qle; simpl; lia.
  - split; lra.
Qed.

Lemma mint_wf o v us : utxo_wf us -> utxo_wf (mint o v us).
Proof.
  intros [Hkey Hnd Hbd]. unfold mint. simpl.
  apply (create_utxo_wf v _ o
           {| utxos := utxos us; by_owner := by_owner us; next_id := next_id us;
              next_cluster := next_cluster us + 1 |}).
  by split.
Qed.

Lemma mint_live o v us :
  utxo_wf us -> (total_live (mint o v us) == total_live us + v)%Q.
Proof.
  intros [Hkey Hnd Hbd]. unfold mint. simpl.
  apply (create_utxo_live v _ o
           {| utxos := utxos us; by_owner := by_owner us; next_id := next_id us;
              next_cluster := next_cluster us + 1 |}).
  by split.
Qed.

Lemma mint_all_spec i wealths us :
  utxo_wf us ->
  utxo_wf (mint_all i wealths us)
  /\ (total_live (mint_all i wealths us) == total_live us + qsum wealths)%Q.
Proof.
  revert i us. induction wealths as [|v rest IH]; intros i us Hwf; simpl.
  - split; [exact Hwf|]. unfold qsum. simpl. ring.
  - destruct (IH (i + 1) (mint i v us) (mint_wf _ _ _ Hwf)) as [Hwf' Hl].
    split; [exact Hwf'|]. rewrite Hl, mint_live, qsum_cons by exact Hwf. ring.
Qed.

Lemma utxo_run_conserves exp transfers st :
  utxo_wf (utxo_set st) ->
  (total_live (utxo_set (run exp transfers st)) + total_fees (run exp transfers st)
   + dropped_along exp transfers st
   == total_live (utxo_set st) + total_fees st)%Q.
Proof.
  revert st. induction transfers as [|[[s r] amount] rest IH]; intros st Hwf.
  - simpl. ring.
  - change (run exp ((s, r, amount) :: rest) st)
      with (run exp rest (snd (transfer exp st s r amount))).
    destruct (utxo_transfer_conserves exp st s r amount Hwf) as [Hwf' Hstep].
    specialize (IH _ Hwf'). simpl dropped_along.
    rewrite <- Hstep, <- IH. ring.
Qed.

End UtxoConservation.

Section RedistributeFacts.

Import TenYear.

Variable exp : Q -> Q.

Lemma balance_sum_alter (f : Agent -> Agent) (l : list Agent) i old :
  l !! i = Some old ->
  (qsum (map balance (alter f i l))
   == qsum (map balance l) - balance old + balance (f old))%Q.
Proof.
  revert i. induction l as [|a l IH]; intros [|i] Hi; try discriminate.
  - injection Hi as ->. simpl. rewrite !qsum_cons. ring.
  - simpl in Hi. simpl. rewrite !qsum_cons. change (list_alter f i l) with (alter f i l).
    rewrite (IH i Hi). ring.
Qed.

Lemma balance_alter_cluster_wealth g (l : list Agent) i :
  map balance (alter (set_cluster_wealth g) i l) = map balance l.
Proof.
  revert i. induction l as [|a l IH]; intros [|i]; simpl; try reflexivity.
  change (list_alter (set_cluster_wealth g) i l) with (alter (set_cluster_wealth g) i l).
  by rewrite IH.
Qed.

Lemma balance_sum_shares share (l : list Agent) :
  (qsum (map balance (map (fun a => if is_retail a then add_balance share a else a) l))
   == qsum (map balance l)
      + share * inject_Z (Z.of_nat (length (List.filter is_retail l))))%Q.
Proof.
  induction l as [|a l IH].
  - unfold qsum. simpl. ring.
  - cbn [map List.filter]. destruct (is_retail a); cbn [map length];
      rewrite !qsum_cons, IH.
    + rewrite Nat2Z.inj_succ. unfold Z.succ. rewrite inject_Z_plus. simpl. ring.
    + ring.
Qed.

Lemma lookup_alter_Some (f : Agent -> Agent) (l : list Agent) i j a :
  l !! j = Some a -> is_Some (alter f i l !! j).
Proof.
  intros H. destruct (decide (i = j)) as [<-|Hne].
  - rewrite list_lookup_alter_eq, H. by eexists.
  - rewrite list_lookup_alter_ne by exact Hne. by eexists.
Qed.

(** A successful transfer adds its fee to [total_fees]; the balances lose
    the fee when it is burned and keep their total when it is redistributed
    to the retail agents. *)
Lemma tenyear_transfer_balances st s r amount redistribute decay sender receiver :
  agents st !! s = Some sender -> agents st !! r = Some receiver ->
  exists ok st',
    transfer exp st s r amount redistribute decay = Some (ok, st')
    /\ (ok = false -> st' = st)
    /\ (ok = true ->
        let fee := fee_of exp st sender amount in
        (total_fees st' == total_fees st + fee)%Q
        /\ (redistribute = false -> (total_balance st' + fee == total_balance st)%Q)
        /\ (redistribute = true -> (0 < fee)%Q ->
            (exists a, a ∈ agents st /\ is_retail a = true) ->
            (total_balance st' == total_balance st)%Q)).
Proof.
  intros Hs Hr. unfold transfer. rewrite Hs, Hr. simpl.
  destruct (_ || _).
  { exists false, st. split; [reflexivity|]. split; [reflexivity | discriminate]. }
  fold (fee_of exp st sender amount). set (fee := fee_of exp st sender amount).
  set (l1 := alter (add_balance (- amount)) s (agents st)).
  set (l2 := alter (add_balance (amount - fee)) r l1).
  set (l3 := alter (set_cluster_wealth _) s l2).
  set (l4 := alter (set_cluster_wealth _) r l3).
  eexists true, _. split; [reflexivity|]. split; [discriminate|]. intros _.
  cbv zeta. unfold total_balance. cbn [agents total_fees].
  assert (H4 : (qsum (map balance l4) == qsum (map balance (agents st)) - fee)%Q).
  { unfold l4, l3. rewrite !balance_alter_cluster_wealth.
    destruct (lookup_alter_Some (add_balance (- amount)) (agents st) s r receiver Hr)
      as [receiver1 Hr1].
    unfold l2. rewrite (balance_sum_alter _ l1 r receiver1 Hr1).
    unfold l1. rewrite (balance_sum_alter _ (agents st) s sender Hs). simpl. ring. }
  split; [reflexivity|]. split.
  - intros ->. simpl. rewrite H4. ring.
  - intros -> Hfee Hretail. destruct (Qltb_spec 0 fee); [|contradiction]. simpl.
    assert (Hn : exists a rest, List.filter is_retail l4 = a :: rest).
    { destruct Hretail as (a & Ha & Hra).
      assert (Hlen : length (List.filter is_retail l4)
                     = length (List.filter is_retail (agents st))).
      { unfold l4, l3, l2, l1. clear.
        generalize (agents st) as l. intros l.
        assert (Hpres : forall (f : Agent -> Agent) i (l : list Agent),
                   (forall a, is_retail (f a) = is_retail a) ->
                   length (List.filter is_retail (alter f i l))
                   = length (List.filter is_retail l)).
        { intros f i l0 Hf. revert i. induction l0 as [|a l0 IH]; intros [|i]; simpl;
            try reflexivity.
          - rewrite Hf. destruct (is_retail a); reflexivity.
          - change (list_alter f i l0) with (alter f i l0).
            destruct (is_retail a); simpl; by rewrite IH. }
        rewrite !Hpres; reflexivity. }
      destruct (List.filter is_retail l4) as [|a' rest] eqn:E; [|by eexists _, _].
      exfalso. apply list_elem_of_In in Ha.
      assert (In a (List.filter is_retail (agents st))) by (apply filter_In; by split).
      destruct (List.filter is_retail (agents st)); [contradiction | discriminate]. }
    destruct Hn as (a' & rest & E). rewrite E.
    rewrite balance_sum_shares, E, H4.
    assert (Hpos : ~ (inject_Z (Z.of_nat (length (a' :: rest))) == 0)%Q).
    { simpl length. rewrite Nat2Z.inj_succ. unfold Qeq. simpl. lia. }
    field. exact Hpos.
Qed.

End RedistributeFacts.

Lemma dropped_along_bounds exp transfers st :
  utxo_wf (Utxo.utxo_set st) ->
  (0 <= dropped_along exp transfers st
   <= (1 # 100) * inject_Z (Z.of_nat (length transfers)))%Q.
Proof.
  revert st. induction transfers as [|[[s r] amount] rest IH]; intros st Hwf.
  - simpl. split; unfold Qle; simpl; lia.
  - destruct (utxo_transfer_conserves exp st s r amount Hwf) as [Hwf' _].
    destruct (IH _ Hwf') as [IH0 IH1].
    destruct (dropped_change_bounds exp st s amount Hwf) as [H0 H1].
    cbn [dropped_along length]. rewrite Nat2Z.inj_succ. unfold Z.succ.
    rewrite inject_Z_plus. change (inject_Z 1) with 1%Q. split; lra.
Qed.

(** C1, as the claim states it, fails in two places.  In the UTXO model a
    change of at most 0.01 is dropped: after minting 100 + 1/128 and
    transferring 100 at a zero fee, the live value is 100 and no fee was
    recorded.  With redistribution (gini_10yr_model.py) the fee is recorded
    in [total_fees] and also paid out to the retail balances: after a
    transfer of 1,000 at 30 basis points the balances still sum to the
    minted 5,100 and [total_fees] is 3. *)
Lemma conservation_counterexample :
  let st := snd (Utxo.transfer exp_standin dust_example 0 1 100) in
  fst (Utxo.transfer exp_standin dust_example 0 1 100) = true
  /\ (Utxo.total_live (Utxo.utxo_set dust_example) == 12801 # 128)%Q
  /\ (Utxo.total_live (Utxo.utxo_set st) == 100)%Q
  /\ (Utxo.total_fees st == 0)%Q
  /\ ~ (Utxo.total_live (Utxo.utxo_set st) + Utxo.total_fees st == 12801 # 128)%Q
  /\ (exists st',
         TenYear.transfer exp_standin tenyear_example 1 0 1000 true (5 # 100)
         = Some (true, st')
         /\ (TenYear.total_balance tenyear_example == 5100)%Q
         /\ (TenYear.total_balance st' == 5100)%Q
         /\ (TenYear.total_fees st' == 3)%Q
         /\ ~ (TenYear.total_balance st' + TenYear.total_fees st' == 5100)%Q).
Proof.
  intros st.
  assert (E0 : fst (Utxo.transfer exp_standin dust_example 0 1 100) = true)
    by (vm_compute; reflexivity).
  assert (E1 : (Utxo.total_live (Utxo.utxo_set dust_example) == 12801 # 128)%Q)
    by (vm_compute; reflexivity).
  assert (E2 : (Utxo.total_live (Utxo.utxo_set st) == 100)%Q)
    by (vm_compute; reflexivity).
  assert (E3 : (Utxo.total_fees st == 0)%Q) by (vm_compute; reflexivity).
  split; [exact E0|]. split; [exact E1|]. split; [exact E2|]. split; [exact E3|].
  split.
  - rewrite E2, E3. unfold Qeq. simpl. lia.
  - destruct (TenYear.transfer exp_standin tenyear_example 1 0 1000 true (5 # 100))
      as [[ok st']|] eqn:E.
    2: { vm_compute in E. discriminate. }
    assert (Hok : ok = true).
    { assert (H : fst <$> TenYear.transfer exp_standin tenyear_example 1 0 1000 true (5 # 100)
                  = Some true) by (vm_compute; reflexivity).
      rewrite E in H. simpl in H. by injection H. }
    assert (Hb : (TenYear.total_balance st' == 5100)%Q).
    { assert (H : match TenYear.transfer exp_standin tenyear_example 1 0 1000 true (5 # 100)
                  with Some (_, s) => Qeq_bool (TenYear.total_balance s) 5100 | None => false
                  end = true) by (vm_compute; reflexivity).
      rewrite E in H. by apply Qeq_bool_iff. }
    assert (Hf : (TenYear.total_fees st' == 3)%Q).
    { assert (H : match TenYear.transfer exp_standin tenyear_example 1 0 1000 true (5 # 100)
                  with Some (_, s) => Qeq_bool (TenYear.total_fees s) 3 | None => false
                  end = true) by (vm_compute; reflexivity).
      rewrite E in H. by apply Qeq_bool_iff. }
    subst ok. exists st'. split; [reflexivity|].
    split; [vm_compute; reflexivity|]. split; [exact Hb|]. split; [exact Hf|].
    rewrite Hb, Hf. unfold Qeq. simpl. lia.
Qed.

(** C1, amended.
    - Account model: after any sequence of mints and transfers run from the
      empty state, the balances plus [total_fees] equal the minted total,
      exactly.
    - UTXO model (floats taken as exact numbers): after minting and any
      sequence of transfers, the live values plus [total_fees] plus the
      change dropped as dust equal the minted total; each transfer drops
      at most 0.01.
    - gini_10yr_model.py: a successful transfer adds its fee to
      [total_fees]; when the fee is burned the balances decrease by the fee,
      and when it is redistributed to the retail agents the balances keep
      their total. *)
Theorem value_conservation :
  (forall (exp : Q -> Q) (cfg : FeeConfig) (decay : Z) (ops : list Account.op),
      let st := Account.run exp ops (Account.SimState_init cfg decay) in
      Account.total_balance st + Account.total_fees st = Account.minted ops)
  /\ (forall (exp : Q -> Q) (wealths : list Q) (p90 : Q) (cfg : FeeConfig) (decay : Z)
             (transfers : list (Z * Z * Q)),
         let st0 := Utxo.create_initial_state wealths p90 cfg decay in
         let st := Utxo.run exp transfers st0 in
         (Utxo.total_live (Utxo.utxo_set st) + Utxo.total_fees st
          + dropped_along exp transfers st0 == qsum wealths)%Q
         /\ (0 <= dropped_along exp transfers st0
             <= (1 # 100) * inject_Z (Z.of_nat (length transfers)))%Q)
  /\ (forall (exp : Q -> Q) (st : TenYear.SimState) (s r : nat) (amount decay : Q)
             (redistribute : bool) (sender receiver : TenYear.Agent),
         TenYear.agents st !! s = Some sender ->
         TenYear.agents st !! r = Some receiver ->
         exists ok st',
           TenYear.transfer exp st s r amount redistribute decay = Some (ok, st')
           /\ (ok = false -> st' = st)
           /\ (ok = true ->
               let fee := TenYear.fee_of exp st sender amount in
               (TenYear.total_fees st' == TenYear.total_fees st + fee)%Q
               /\ (redistribute = false ->
                   (TenYear.total_balance st' + fee == TenYear.total_balance st)%Q)
               /\ (redistribute = true -> (0 < fee)%Q ->
                   (exists a, a ∈ TenYear.agents st /\ TenYear.is_retail a = true) ->
                   (TenYear.total_balance st' == TenYear.total_balance st)%Q))).
Proof.
  split; [|split].
  - intros exp cfg decay ops st. unfold st.
    rewrite run_conserves. unfold Account.total_balance, zsum. simpl. lia.
  - intros exp wealths p90 cfg decay transfers st0 st.
    destruct (mint_all_spec 0 wealths Utxo.UTXOSet_init utxo_wf_init) as [Hwf Hlive].
    assert (Hwf0 : utxo_wf (Utxo.utxo_set st0)) by exact Hwf.
    split; [|by apply dropped_along_bounds].
    unfold st. rewrite (utxo_run_conserves exp transfers st0 Hwf0).
    unfold st0. cbn [Utxo.create_initial_state Utxo.utxo_set Utxo.total_fees].
    rewrite Hlive. unfold Utxo.total_live. simpl Utxo.utxos.
    rewrite map_fold_empty. ring.
  - intros. by eapply tenyear_transfer_balances.
Qed.

Lemma value_conservation_witness :
  exists ok st',
    TenYear.transfer exp_standin tenyear_example 1 0 1000 true (5 # 100) = Some (ok, st')
    /\ (ok = true -> (TenYear.total_balance st' == TenYear.total_balance tenyear_example)%Q).
Proof.
  destruct value_conservation as [_ [_ H]].
  destruct (H exp_standin tenyear_example 1%nat 0%nat 1000%Q (5 # 100)%Q true _ _
              eq_refl eq_refl) as (ok & st' & E & _ & Hok).
  exists ok, st'. split; [exact E|]. intros Htrue.
  destruct (Hok Htrue) as (_ & _ & Hred). apply Hred.
  - reflexivity.
  - vm_compute. reflexivity.
  - eexists. split; [apply list_elem_of_here | reflexivity].
Defined.

(** * Further properties of the scripts *)

(** ** Tag vectors: pruning, clusters, mixing *)

Lemma blended_lookup_Some total_value inputs (acc : gmap Z Q) k :
  is_Some (fold_left (fun blended '(v, t) =>
                        Utxo.accumulate
                          (fun tag_weight => inject_Z tag_weight * (v / total_value))%Q
                          blended t)
                     inputs acc !! k) ->
  is_Some (acc !! k) \/ Exists (fun '(_, t) => is_Some (t !! k)) inputs.
Proof.
  revert acc. induction inputs as [|[v t] inputs IH]; intros acc; simpl.
  - intros H. by left.
  - intros H. destruct (IH _ H) as [Hacc|Hrest].
    + rewrite accumulate_lookup in Hacc. destruct (t !! k) as [w|] eqn:Ht.
      * right. apply Exists_cons_hd. rewrite Ht. by eexists.
      * by left.
    + right. by apply Exists_cons_tl.
Qed.

(** X1.  Whatever the input, every entry that [apply_decay] (either model),
    [mix_tags] or [blend_tags] returns has a weight of at least the prune
    threshold of its model: the results never carry an entry below it. *)
Theorem results_reach_prune_threshold :
  (forall (tags : gmap Z Z) (decay_rate : Z),
      map_Forall (fun _ w => Account.TAG_PRUNE_THRESHOLD <= w)
                 (Account.apply_decay tags decay_rate)
      /\ map_Forall (fun _ w => Utxo.TAG_PRUNE_THRESHOLD <= w)
                    (Utxo.apply_decay tags decay_rate))
  /\ (forall (self_tags incoming_tags : gmap Z Z) (self_value incoming_value : Z),
         map_Forall (fun _ w => Account.TAG_PRUNE_THRESHOLD <= w)
                    (Account.mix_tags self_tags self_value incoming_tags incoming_value))
  /\ (forall inputs : list (Q * gmap Z Z),
         map_Forall (fun _ w => Utxo.TAG_PRUNE_THRESHOLD <= w) (Utxo.blend_tags inputs)).
Proof.
  split; [|split].
  - intros tags d. split; intros k w; unfold Account.apply_decay, Utxo.apply_decay;
      rewrite lookup_omap; destruct (tags !! k) as [w0|]; simpl; try discriminate;
      match goal with |- context [?a <=? ?b] => destruct (Z.leb_spec a b) end;
      try discriminate; intros [= <-]; assumption.
  - intros s i sv iv k w. unfold Account.mix_tags.
    destruct (sv + iv =? 0); [by rewrite lookup_empty|].
    rewrite lookup_merge.
    destruct (s !! k), (i !! k); simpl; try discriminate;
      match goal with |- context [?a <=? ?b] => destruct (Z.leb_spec a b) end;
      try discriminate; intros [= <-]; assumption.
  - intros inputs k w. unfold Utxo.blend_tags.
    destruct (Qeq_bool _ 0); [by rewrite lookup_empty|].
    rewrite lookup_omap. destruct (fold_left _ inputs ∅ !! k) as [b|]; simpl;
      [|discriminate].
    destruct (Z.leb_spec Utxo.TAG_PRUNE_THRESHOLD (int_of_float b)); [|discriminate].
    intros [= <-]. assumption.
Qed.

(** X2.  The operations never attribute weight to a cluster their inputs do
    not mention: a cluster of a decayed vector is a cluster of the input,
    a cluster of a mix is a cluster of one of the two vectors, and a
    cluster of a blend is a cluster of one of the inputs. *)
Theorem results_name_no_new_cluster :
  (forall (tags : gmap Z Z) (decay_rate k : Z),
      (is_Some (Account.apply_decay tags decay_rate !! k) -> is_Some (tags !! k))
      /\ (is_Some (Utxo.apply_decay tags decay_rate !! k) -> is_Some (tags !! k)))
  /\ (forall (self_tags incoming_tags : gmap Z Z) (self_value incoming_value k : Z),
         is_Some (Account.mix_tags self_tags self_value incoming_tags incoming_value !! k) ->
         is_Some (self_tags !! k) \/ is_Some (incoming_tags !! k))
  /\ (forall (inputs : list (Q * gmap Z Z)) (k : Z),
         is_Some (Utxo.blend_tags inputs !! k) ->
         Exists (fun '(_, t) => is_Some (t !! k)) inputs).
Proof.
  split; [|split].
  - intros tags d k. split; unfold Account.apply_decay, Utxo.apply_decay;
      rewrite lookup_omap; destruct (tags !! k); simpl; intros [x Hx];
      try discriminate; by eexists.
  - intros s i sv iv k. unfold Account.mix_tags.
    destruct (sv + iv =? 0).
    { rewrite lookup_empty. intros [x Hx]. discriminate. }
    rewrite lookup_merge.
    destruct (s !! k), (i !! k); simpl; intros [x Hx]; try discriminate;
      (left; by eexists) || (right; by eexists).
  - intros inputs k. unfold Utxo.blend_tags.
    destruct (Qeq_bool _ 0).
    { rewrite lookup_empty. intros [x Hx]. discriminate. }
    rewrite lookup_omap.
    destruct (fold_left _ inputs ∅ !! k) as [b|] eqn:E.
    2: { simpl. intros [x Hx]. discriminate. }
    intros _. destruct (blended_lookup_Some (qsum (map fst inputs)) inputs ∅ k) as [[x Hx]|H].
    + rewrite E. by eexists.
    + by rewrite lookup_empty in Hx.
    + exact H.
Qed.

Lemma results_name_no_new_cluster_witness :
  is_Some (({[7 := 500000]} : gmap Z Z) !! 7)
  /\ Exists (fun '(_, t) => is_Some ((t : gmap Z Z) !! 7))
            [(3 # 1, {[7 := 500000]} : gmap Z Z); (1 # 1, ∅)].
Proof.
  destruct results_name_no_new_cluster as [Hdecay [_ Hblend]]. split.
  - apply (proj1 (Hdecay {[7 := 500000]} 50000 7)). vm_compute. by eexists.
  - apply Hblend. vm_compute. by eexists.
Defined.

(** X3.  [mix_tags] is symmetric: exchanging the receiver's vector and
    value with the incoming vector and value gives the same result. *)
Theorem mix_tags_symmetric (self_tags incoming_tags : gmap Z Z)
        (self_value incoming_value : Z) :
  Account.mix_tags self_tags self_value incoming_tags incoming_value
  = Account.mix_tags incoming_tags incoming_value self_tags self_value.
Proof.
  unfold Account.mix_tags. rewrite (Z.add_comm incoming_value self_value).
  destruct (self_value + incoming_value =? 0); [reflexivity|].
  apply map_eq. intros k. rewrite !lookup_merge.
  destruct (self_tags !! k) as [s|], (incoming_tags !! k) as [i|]; simpl;
    try reflexivity;
    rewrite (Z.add_comm (incoming_value * _) (self_value * _)); reflexivity.
Qed.

(** X4.  Mixing a vector with itself changes nothing but pruning: whenever
    the two values do not cancel, [mix_tags tags v tags w] is [tags] with
    the entries below the threshold dropped. *)
Theorem mix_tags_same_vector (tags : gmap Z Z) (v w : Z) :
  v + w <> 0 ->
  Account.mix_tags tags v tags w = pruned Account.TAG_PRUNE_THRESHOLD tags.
Proof.
  intros Hne. apply map_eq. intros k.
  rewrite mix_tags_lookup by exact Hne. rewrite pruned_lookup.
  destruct (tags !! k) as [x|]; simpl; [|reflexivity].
  replace (v * x + w * x) with (x * (v + w)) by ring.
  rewrite Z.div_mul by exact Hne. reflexivity.
Qed.

Lemma mix_tags_same_vector_witness :
  let tags : gmap Z Z := {[0 := 600000; 1 := 40]} in
  Account.mix_tags tags 300 tags 700 = pruned Account.TAG_PRUNE_THRESHOLD tags.
Proof. intros tags. apply mix_tags_same_vector. lia. Defined.

(** X5.  For non-negative values that are not both zero, the weight a mix
    gives a cluster is a weighted average rounded down: it never exceeds
    the larger of the two weights the vectors give that cluster, and an
    entry that is kept is at least the smaller of the two. *)
Theorem mix_tags_between (self_tags incoming_tags : gmap Z Z)
        (self_value incoming_value k : Z) :
  0 <= self_value -> 0 <= incoming_value -> self_value + incoming_value <> 0 ->
  weights_nonneg self_tags -> weights_nonneg incoming_tags ->
  let mixed := Account.mix_tags self_tags self_value incoming_tags incoming_value in
  weight_of mixed k <= Z.max (weight_of self_tags k) (weight_of incoming_tags k)
  /\ (is_Some (mixed !! k) ->
      Z.min (weight_of self_tags k) (weight_of incoming_tags k) <= weight_of mixed k).
Proof.
  intros Hs Hi Hne Hns Hni mixed.
  pose proof (weight_of_nonneg self_tags k Hns) as Ha.
  pose proof (weight_of_nonneg incoming_tags k Hni) as Hb.
  set (a := weight_of self_tags k) in *. set (b := weight_of incoming_tags k) in *.
  set (t := self_value + incoming_value) in *.
  assert (Ht : 0 < t) by lia.
  set (q := (self_value * a + incoming_value * b) / t).
  assert (Hq : Z.min a b <= q <= Z.max a b).
  { split.
    - apply Z.div_le_lower_bound; [exact Ht|]. unfold t. nia.
    - apply Z.div_le_upper_bound; [exact Ht|]. unfold t. nia. }
  assert (Hlook : mixed !! k
                  = match self_tags !! k, incoming_tags !! k with
                    | None, None => None
                    | _, _ => if Account.TAG_PRUNE_THRESHOLD <=? q then Some q else None
                    end).
  { unfold mixed. rewrite mix_tags_lookup by exact Hne.
    unfold q, a, b, weight_of, t.
    destruct (self_tags !! k), (incoming_tags !! k); reflexivity. }
  unfold weight_of. rewrite Hlook.
  destruct (self_tags !! k) as [x|] eqn:Ex, (incoming_tags !! k) as [y|] eqn:Ey.
  4: { simpl. split; [lia | intros [z Hz]; discriminate]. }
  all: destruct (Account.TAG_PRUNE_THRESHOLD <=? q); simpl.
  all: split; [lia | intros [z Hz]; try discriminate; lia].
Qed.

Lemma mix_tags_between_witness :
  let a : gmap Z Z := {[0 := 900000]} in
  let b : gmap Z Z := {[0 := 300000]} in
  weight_of (Account.mix_tags a 100 b 300) 0 <= Z.max (weight_of a 0) (weight_of b 0).
Proof.
  intros a b.
  assert (Ha : weights_nonneg a) by (apply (bool_decide_unpack _); vm_compute; exact I).
  assert (Hb : weights_nonneg b) by (apply (bool_decide_unpack _); vm_compute; exact I).
  exact (proj1 (mix_tags_between a b 100 300 0 ltac:(lia) ltac:(lia) ltac:(lia) Ha Hb)).
Defined.


Lemma int_of_float_inject_Z z : int_of_float (inject_Z z) = z.
Proof.
  unfold int_of_float. destruct (Qle_bool 0 (inject_Z z));
    [apply Qfloor_Z | apply Qceiling_Z].
Qed.





Lemma decay_with_monotone threshold scale (tags1 tags2 : gmap Z Z) d1 d2 k :
  0 < threshold -> 0 < scale ->
  0 <= weight_of tags1 k <= weight_of tags2 k -> 0 <= d2 <= d1 -> d1 <= scale ->
  weight_of (decay_with threshold scale tags1 d1) k
  <= weight_of (decay_with threshold scale tags2 d2) k.
Proof.
  intros Ht Hs Hw Hd Hd1. rewrite !decay_with_weight by exact Ht.
  set (w1 := weight_of tags1 k) in *. set (w2 := weight_of tags2 k) in *.
  assert (H1 : w1 * d1 / scale <= w1).
  { apply Z.div_le_upper_bound; [exact Hs | nia]. }
  assert (Hmono : w1 - w1 * d1 / scale <= w2 - w2 * d2 / scale).
  { assert (w2 * d2 / scale <= w1 * d1 / scale + (w2 - w1)).
    { rewrite <- Z.div_add by lia. apply Z.div_le_mono; [exact Hs | nia]. }
    lia. }
  destruct (Z.leb_spec threshold (w1 - w1 * d1 / scale)),
    (Z.leb_spec threshold (w2 - w2 * d2 / scale)); lia.
Qed.

(** X7.  Decay is monotone on non-negative weights: for rates within
    [0, TAG_SCALE], a cluster that starts with no more weight and decays at
    no lower a rate ends with no more weight, in both models.  In
    particular a higher decay rate never leaves more attribution. *)
Theorem decay_is_monotone (tags1 tags2 : gmap Z Z) (d1 d2 k : Z) :
  0 <= weight_of tags1 k <= weight_of tags2 k ->
  0 <= d2 <= d1 -> d1 <= 1000000 ->
  weight_of (Account.apply_decay tags1 d1) k <= weight_of (Account.apply_decay tags2 d2) k
  /\ weight_of (Utxo.apply_decay tags1 d1) k <= weight_of (Utxo.apply_decay tags2 d2) k.
Proof.
  intros Hw Hd Hd1. rewrite !account_decay_with, !utxo_decay_with.
  split; apply decay_with_monotone; try assumption; reflexivity.
Qed.

Lemma decay_is_monotone_witness :
  let tags : gmap Z Z := {[0 := 800000]} in
  weight_of (Account.apply_decay tags 100000) 0 <= weight_of (Account.apply_decay tags 50000) 0.
Proof.
  intros tags.
  refine (proj1 (decay_is_monotone tags tags 100000 50000 0 _ _ _)).
  - vm_compute. split; discriminate.
  - lia.
  - lia.
Defined.

(** ** The cluster ledger and the account transfer *)

Lemma ClusterWealth_eq (a b : Account.ClusterWealth) :
  Account.wealth a = Account.wealth b ->
  Account.next_cluster a = Account.next_cluster b -> a = b.
Proof. destruct a, b. simpl. intros -> ->. reflexivity. Qed.

Lemma apply_delta_next_cluster c d cw :
  Account.next_cluster (Account.apply_delta c d cw) = Account.next_cluster cw.
Proof. reflexivity. Qed.

Lemma get_apply_delta_ne c1 d1 c2 cw :
  c1 <> c2 -> Account.get (Account.apply_delta c1 d1 cw) c2 = Account.get cw c2.
Proof.
  intros Hne. unfold Account.get. rewrite apply_delta_wealth.
  by rewrite lookup_insert_ne.
Qed.

Lemma apply_delta_commute c1 d1 c2 d2 cw :
  c1 <> c2 ->
  Account.apply_delta c1 d1 (Account.apply_delta c2 d2 cw)
  = Account.apply_delta c2 d2 (Account.apply_delta c1 d1 cw).
Proof.
  intros Hne. apply ClusterWealth_eq; [|reflexivity].
  rewrite !apply_delta_wealth.
  rewrite get_apply_delta_ne by congruence. rewrite get_apply_delta_ne by exact Hne.
  apply insert_insert_ne. exact Hne.
Qed.

(** X8.  [apply_delta] touches one cluster only: the wealth of every other
    cluster reads back unchanged, a cluster never written reads 0, and two
    deltas to different clusters can be applied in either order.  Deltas to
    the same cluster do not commute, because of the clamp at zero. *)
Theorem apply_delta_is_local (cw : Account.ClusterWealth) (c1 d1 c2 d2 : Z) :
  (Account.wealth cw !! c2 = None -> Account.get cw c2 = 0)
  /\ (c1 <> c2 ->
      Account.get (Account.apply_delta c1 d1 cw) c2 = Account.get cw c2
      /\ Account.apply_delta c1 d1 (Account.apply_delta c2 d2 cw)
         = Account.apply_delta c2 d2 (Account.apply_delta c1 d1 cw))
  /\ Account.get (Account.apply_delta 0 5 (Account.apply_delta 0 (-5)
                                             Account.ClusterWealth_init)) 0
     <> Account.get (Account.apply_delta 0 (-5) (Account.apply_delta 0 5
                                                   Account.ClusterWealth_init)) 0.
Proof.
  split; [|split].
  - intros H. unfold Account.get. by rewrite H.
  - intros Hne. split; [by apply get_apply_delta_ne | by apply apply_delta_commute].
  - vm_compute. discriminate.
Qed.

Lemma apply_delta_is_local_witness :
  let cw := Account.apply_delta 3 40 Account.ClusterWealth_init in
  Account.get cw 9 = 0
  /\ Account.get (Account.apply_delta 3 (-70) cw) 9 = Account.get cw 9.
Proof.
  intros cw. split.
  - apply (proj1 (apply_delta_is_local cw 3 (-70) 9 0)). vm_compute. reflexivity.
  - apply (proj1 (proj2 (apply_delta_is_local cw 3 (-70) 9 0))). lia.
Defined.

Lemma fold_apply_delta_permutation (delta : Z -> Z) (l1 l2 : list (Z * Z)) cw :
  NoDup (l1.*1) -> l1 ≡ₚ l2 ->
  foldr (fun '(c, w) cw => Account.apply_delta c (delta w) cw) cw l1
  = foldr (fun '(c, w) cw => Account.apply_delta c (delta w) cw) cw l2.
Proof.
  intros Hnd Hp.
  apply (foldr_permutation eq (fun '(c, w) cw => Account.apply_delta c (delta w) cw));
    try exact Hp; try apply _.
  intros j1 [c1 w1] j2 [c2 w2] b Hj H1 H2. apply apply_delta_commute.
  intros ->. apply Hj.
  eapply NoDup_lookup; [exact Hnd| |]; rewrite list_lookup_fmap.
  - rewrite H1. reflexivity.
  - rewrite H2. reflexivity.
Qed.

Lemma fold_left_apply_delta_rev (delta : Z -> Z) (items : list (Z * Z)) cw :
  fold_left (fun cw '(c, w) => Account.apply_delta c (delta w) cw) items cw
  = foldr (fun '(c, w) cw => Account.apply_delta c (delta w) cw) cw (rev items).
Proof.
  revert cw. induction items as [|[c w] items IH]; intros cw; simpl; [reflexivity|].
  rewrite IH, foldr_app. reflexivity.
Qed.

(** X9.  The ledger loops of [execute_transfer] do not depend on the order
    in which the dict is iterated: applying a delta per tag in the order of
    any list of the items of a tag vector leaves the same ledger as the
    fold over the vector. *)
Theorem ledger_update_order_independent (delta : Z -> Z) (items : list (Z * Z))
        (cw : Account.ClusterWealth) :
  NoDup (items.*1) ->
  fold_left (fun cw '(c, w) => Account.apply_delta c (delta w) cw) items cw
  = map_fold (fun c w cw => Account.apply_delta c (delta w) cw) cw
             (list_to_map items : gmap Z Z).
Proof.
  intros Hnd. rewrite map_fold_foldr, fold_left_apply_delta_rev.
  assert (Hrev : NoDup ((rev items).*1)).
  { by rewrite <- Permutation_rev. }
  transitivity (foldr (fun '(c, w) cw => Account.apply_delta c (delta w) cw) cw
                      (map_to_list (list_to_map items : gmap Z Z))).
  - rewrite (fold_apply_delta_permutation delta (rev items)
               (map_to_list (list_to_map items : gmap Z Z)) cw Hrev).
    + reflexivity.
    + rewrite (map_to_list_to_map items Hnd). symmetry. apply Permutation_rev.
  - f_equal.
Qed.

Lemma ledger_update_order_independent_witness :
  let items : list (Z * Z) := [(2, 500000); (0, 300000)] in
  let leaving := fun w => - (1000 * w / Account.TAG_SCALE) in
  let cw := Account.apply_delta 2 700 Account.ClusterWealth_init in
  fold_left (fun cw '(c, w) => Account.apply_delta c (leaving w) cw) items cw
  = map_fold (fun c w cw => Account.apply_delta c (leaving w) cw) cw
             (list_to_map items : gmap Z Z).
Proof.
  intros items leaving cw. apply ledger_update_order_independent.
  apply (bool_decide_unpack _). vm_compute. exact I.
Defined.

(** ** Fee rates stay within their bounds *)

Lemma scale_bounds lo hi s : (lo <= hi)%Q -> (0 <= s <= 1)%Q ->
  (lo <= lo + (hi - lo) * s <= hi)%Q.
Proof. intros H [H0 H1]. split; nra. Qed.

Lemma sigmoid_of_bounds exp x :
  (forall y, 0 < exp y)%Q -> (0 <= sigmoid_of exp x <= 1)%Q.
Proof.
  intros Hpos. unfold sigmoid_of.
  destruct (Qltb (-700) x && Qltb x 700).
  - pose proof (Hpos (- x)%Q). split.
    + apply Qle_shift_div_l; lra.
    + apply Qle_shift_div_r; lra.
  - destruct (Qltb x 0); split; unfold Qle; simpl; lia.
Qed.

Lemma rate_bps_bounds exp cfg w :
  (forall y, 0 < exp y)%Q -> (r_min_bps cfg <= r_max_bps cfg)%Q ->
  (r_min_bps cfg <= rate_bps exp cfg w <= r_max_bps cfg)%Q.
Proof.
  intros Hpos Hr.
  destruct (Qeq_bool (r_min_bps cfg) (r_max_bps cfg)) eqn:E.
  - unfold rate_bps. rewrite E. lra.
  - rewrite rate_bps_sigmoid by exact E.
    apply scale_bounds; [exact Hr | by apply sigmoid_of_bounds].
Qed.

Lemma py_min_one_bounds x : (0 <= x)%Q -> (0 <= py_min 1 x <= 1)%Q.
Proof. intros Hx. unfold py_min. destruct (Qltb_spec x 1); lra. Qed.

(** X10.  Every fee curve returns a rate within its bounds: the sigmoid
    [rate_bps] lies in [[r_min_bps, r_max_bps]] for every wealth (for any
    positive [exp]), the linear curves lie in [[r_min, r_max]] for
    non-negative wealth, and the three-segment curve with ordered rates lies
    in [[r_poor, r_rich]]. *)
Theorem fee_rate_within_bounds :
  (forall (exp : Q -> Q) (cfg : FeeConfig) (w : Q),
      (forall y, 0 < exp y)%Q -> (r_min_bps cfg <= r_max_bps cfg)%Q ->
      (r_min_bps cfg <= rate_bps exp cfg w <= r_max_bps cfg)%Q)
  /\ (forall (source_wealth max_wealth : Z) (r_min r_max : Q),
         (r_min <= r_max)%Q -> 0 <= source_wealth ->
         (r_min <= Reference.compute_fee_rate source_wealth max_wealth r_min r_max
          <= r_max)%Q)
  /\ (forall (w max_wealth r_min r_max : Q),
         (r_min <= r_max)%Q -> (0 <= w)%Q ->
         (r_min <= ThreeSegment.linear_fee_rate w max_wealth r_min r_max <= r_max)%Q)
  /\ (forall (w max_wealth w1_frac w2_frac r_poor r_mid_start r_mid_end r_rich : Q),
         (r_poor <= r_mid_start)%Q -> (r_mid_start <= r_mid_end)%Q ->
         (r_mid_end <= r_rich)%Q ->
         (r_poor <= ThreeSegment.three_segment_fee_rate
                      w max_wealth w1_frac w2_frac r_poor r_mid_start r_mid_end r_rich
          <= r_rich)%Q).
Proof.
  split; [|split; [|split]].
  - intros. by apply rate_bps_bounds.
  - intros sw mw r_min r_max Hr Hs. unfold Reference.compute_fee_rate.
    destruct (Z.leb_spec mw 0); [lra|].
    apply scale_bounds; [exact Hr|]. apply py_min_one_bounds.
    apply Qle_shift_div_l.
    + change 0%Q with (inject_Z 0). rewrite <- Zlt_Qlt. lia.
    + rewrite Qmult_0_l. change 0%Q with (inject_Z 0). by rewrite <- Zle_Qle.
  - intros w mw r_min r_max Hr Hw. unfold ThreeSegment.linear_fee_rate.
    destruct (Qle_bool_spec mw 0); [lra|].
    apply scale_bounds; [exact Hr|]. apply py_min_one_bounds.
    apply Qle_shift_div_l; lra.
  - intros w mw w1f w2f rp rs re rr H1 H2 H3. unfold ThreeSegment.three_segment_fee_rate.
    destruct (Qle_bool_spec mw 0); [lra|].
    destruct (Qltb_spec w (mw * w1f)); [lra|].
    destruct (Qltb_spec w (mw * w2f)); [|lra].
    destruct (interpolation_bounds (w - mw * w1f) (mw * w2f - mw * w1f)) as [Ht0 Ht1];
      try lra.
    split; nra.
Qed.

Lemma fee_rate_within_bounds_witness :
  (5 <= rate_bps exp_standin progressive_config 123456 <= 3000)%Q
  /\ (1 # 100 <= Reference.compute_fee_rate 910000 1000000 (1 # 100) (15 # 100)
      <= 15 # 100)%Q.
Proof.
  destruct fee_rate_within_bounds as [Hsig [Href _]]. split.
  - apply (Hsig exp_standin progressive_config 123456%Q exp_standin_pos).
    unfold Qle. simpl. lia.
  - apply Href; [unfold Qle; simpl; lia | lia].
Defined.

(** ** The account transfer *)

Section AccountTransferFacts.

Import Account.

Variable exp : Q -> Q.

(** X11.  A transfer of a positive amount that the sender's balance covers
    succeeds.  Between two different accounts it debits the sender by the
    amount, credits the receiver with the amount less the fee, gives the
    receiver the mix of its tags with the sender's decayed tags, and leaves
    the sender's tags and every other account as they were.  From an
    account to itself it burns the fee: the balance ends lower by the fee
    and the tags are mixed with their own decayed copy, the debited balance
    serving as the receiver's value. *)
Theorem execute_transfer_effects (s r : nat) (amount decay : Z) (cfg : FeeConfig)
        (st : Store) (sender receiver : Account) :
  accounts st !! s = Some sender -> accounts st !! r = Some receiver ->
  amount <= balance sender -> 0 < amount ->
  let fee := int_of_float (inject_Z amount
                           * effective_fee_rate exp sender (cluster_wealth st) cfg
                           / 10000)%Q in
  let moved := apply_decay (tags sender) decay in
  exists st',
    execute_transfer exp s r amount decay cfg st = Some ((true, fee), st')
    /\ length (accounts st') = length (accounts st)
    /\ (forall i, i <> s -> i <> r -> accounts st' !! i = accounts st !! i)
    /\ (s <> r ->
        accounts st' !! s = Some (set_balance sender (balance sender - amount))
        /\ accounts st' !! r
           = Some {| id := id receiver;
                     balance := balance receiver + (amount - fee);
                     agent_type := agent_type receiver;
                     tags := mix_tags (tags receiver) (balance receiver)
                                      moved (amount - fee) |})
    /\ (s = r ->
        accounts st' !! s
        = Some {| id := id sender;
                  balance := balance sender - amount + (amount - fee);
                  agent_type := agent_type sender;
                  tags := mix_tags (tags sender) (balance sender - amount)
                                   moved (amount - fee) |}).
Proof.
  intros Hs Hr Hcov Hpos fee moved. unfold execute_transfer. rewrite Hs, Hr. simpl.
  destruct (Z.ltb_spec (balance sender) amount); [lia|].
  destruct (Z.leb_spec amount 0); [lia|]. simpl.
  fold fee. fold moved.
  pose proof (lookup_lt_Some _ _ _ Hs) as Hls.
  pose proof (lookup_lt_Some _ _ _ Hr) as Hlr.
  destruct (decide (s = r)) as [<-|Hne].
  - rewrite list_lookup_insert_eq by exact Hls. simpl.
    eexists. split; [reflexivity|]. simpl.
    split; [by rewrite !length_insert|].
    split; [intros i H1 H2; by rewrite !list_lookup_insert_ne by congruence|].
    split; [intros Hsr; contradiction|]. intros _.
    rewrite list_lookup_insert_eq by (by rewrite length_insert). reflexivity.
  - rewrite list_lookup_insert_ne by exact Hne. rewrite Hr. simpl.
    eexists. split; [reflexivity|]. simpl.
    split; [by rewrite !length_insert|].
    split; [intros i H1 H2; by rewrite !list_lookup_insert_ne by congruence|].
    split; [|intros Hsr; contradiction]. intros _. split.
    + rewrite list_lookup_insert_ne by congruence.
      by rewrite list_lookup_insert_eq.
    + rewrite list_lookup_insert_eq by (by rewrite length_insert). reflexivity.
Qed.

End AccountTransferFacts.

Lemma execute_transfer_effects_witness :
  exists st',
    Account.execute_transfer exp_standin 1 0 200000 50000 progressive_config
                             (Account.store account_example)
    = Some ((true, 60000), st')
    /\ Account.balance <$> Account.accounts st' !! 0%nat = Some 240000
    /\ Account.balance <$> Account.accounts st' !! 1%nat = Some 4800000.
Proof.
  destruct (execute_transfer_effects exp_standin 1 0 200000 50000 progressive_config
              (Account.store account_example) _ _ eq_refl eq_refl)
    as (st' & E & _ & _ & Hdistinct & _).
  - vm_compute. discriminate.
  - lia.
  - exists st'. split.
    + etransitivity; [exact E|]. vm_compute. reflexivity.
    + destruct (Hdistinct ltac:(lia)) as [H1 H0]. rewrite H1, H0. simpl.
      split; f_equal; vm_compute; reflexivity.
Defined.

(** ** Invariants of the account model along a run *)

Section AccountInvariants.

Import Account.

Variable exp : Q -> Q.

Lemma fold_apply_delta_nonneg (delta : Z -> Z) (tags : gmap Z Z) cw :
  ledger_nonneg cw ->
  ledger_nonneg (map_fold (fun c w cw => apply_delta c (delta w) cw) cw tags).
Proof.
  intros H.
  apply (map_fold_weak_ind (fun r _ => ledger_nonneg r)); [exact H|].
  intros c w m r _ Hr. by apply apply_delta_nonneg.
Qed.

Lemma execute_transfer_ledger_nonneg s r amount decay cfg st res st' :
  ledger_nonneg (cluster_wealth st) ->
  execute_transfer exp s r amount decay cfg st = Some (res, st') ->
  ledger_nonneg (cluster_wealth st').
Proof.
  intros Hnn. unfold execute_transfer.
  destruct (accounts st !! s) as [sender|]; [|discriminate].
  destruct (accounts st !! r) as [receiver0|]; [|discriminate]. simpl.
  destruct (_ || _); [by intros [= <- <-]|].
  destruct (_ !! r) as [receiver|]; [|discriminate]. simpl.
  intros [= <- <-]. simpl.
  apply (fold_apply_delta_nonneg (fun w => (amount - _) * w / TAG_SCALE)).
  apply (fold_apply_delta_nonneg (fun w => - (amount * w / TAG_SCALE))).
  exact Hnn.
Qed.

Lemma run_op_ledger_nonneg o st :
  ledger_nonneg (cluster_wealth (store st)) ->
  ledger_nonneg (cluster_wealth (store (run_op exp o st))).
Proof.
  intros H. destruct o as [atype bal|s r amount]; simpl.
  - unfold mint. simpl. by apply apply_delta_nonneg, new_cluster_nonneg.
  - unfold transfer_step.
    destruct (execute_transfer exp s r amount (decay_rate st) (fee_config st) (store st))
      as [[[ok fee] store']|] eqn:E; [|exact H].
    simpl. by eapply execute_transfer_ledger_nonneg.
Qed.

(** X12.  Along any run of mints and transfers of the account model, the
    wealth the ledger attributes to a cluster never becomes negative. *)
Theorem ledger_nonneg_along_run (cfg : FeeConfig) (decay : Z) (ops : list op) :
  ledger_nonneg (cluster_wealth (store (run exp ops (SimState_init cfg decay)))).
Proof.
  assert (Hgen : forall st, ledger_nonneg (cluster_wealth (store st)) ->
                            ledger_nonneg (cluster_wealth (store (run exp ops st)))).
  { induction ops as [|o ops' IH]; intros st H; [exact H|].
    change (run exp (o :: ops') st) with (run exp ops' (run_op exp o st)).
    apply IH. by apply run_op_ledger_nonneg. }
  apply Hgen. apply ledger_nonneg_init.
Qed.

End AccountInvariants.

Section AccountBalancesInvariant.

Import Account.

Variable exp : Q -> Q.
Hypothesis exp_pos : forall y, (0 < exp y)%Q.

Lemma apply_decay_nonneg tags d : weights_nonneg (apply_decay tags d).
Proof.
  intros k w. unfold apply_decay. rewrite lookup_omap.
  destruct (tags !! k) as [w0|]; simpl; [|discriminate].
  destruct (Z.leb_spec TAG_PRUNE_THRESHOLD (w0 - w0 * d / TAG_SCALE)); [|discriminate].
  intros [= <-]. unfold TAG_PRUNE_THRESHOLD in *. lia.
Qed.

Lemma mix_tags_nonneg a va b vb : weights_nonneg (mix_tags a va b vb).
Proof.
  intros k w. unfold mix_tags. destruct (va + vb =? 0); [by rewrite lookup_empty|].
  rewrite lookup_merge. destruct (a !! k), (b !! k); simpl; try discriminate;
    match goal with |- context [?x <=? ?y] => destruct (Z.leb_spec x y) end;
    try discriminate; intros [= <-]; unfold TAG_PRUNE_THRESHOLD in *; lia.
Qed.

(** The fee of the account model lies between 0 and the amount when the
    rates of the curve lie between 0 and 10,000 basis points. *)
Lemma account_fee_bounds cfg sender cw amount :
  (0 <= r_min_bps cfg)%Q -> (r_min_bps cfg <= r_max_bps cfg)%Q ->
  (r_max_bps cfg <= 10000)%Q -> 0 <= amount ->
  0 <= int_of_float (inject_Z amount * effective_fee_rate exp sender cw cfg / 10000)
  <= amount.
Proof.
  intros H0 Hr H1 Ha. unfold effective_fee_rate.
  set (w := map_fold _ _ _).
  destruct (rate_bps_bounds exp cfg w exp_pos Hr) as [Hlo Hhi].
  set (rate := rate_bps exp cfg w) in *.
  assert (HaQ : (0 <= inject_Z amount)%Q)
    by (change 0%Q with (inject_Z 0); by rewrite <- Zle_Qle).
  assert (Hfee : (0 <= inject_Z amount * rate / 10000 <= inject_Z amount)%Q).
  { split.
    - apply Qle_shift_div_l; [reflexivity|]. nra.
    - apply Qle_shift_div_r; [reflexivity|]. nra. }
  destruct Hfee as [Hf0 Hf1]. split.
  - change 0 with (int_of_float 0). by apply int_of_float_mono.
  - rewrite <- (int_of_float_inject_Z amount) at 2. by apply int_of_float_mono.
Qed.

Lemma execute_transfer_accounts_ok s r amount decay cfg st res st' :
  (0 <= r_min_bps cfg)%Q -> (r_min_bps cfg <= r_max_bps cfg)%Q ->
  (r_max_bps cfg <= 10000)%Q -> 0 <= decay ->
  Forall account_ok (accounts st) ->
  execute_transfer exp s r amount decay cfg st = Some (res, st') ->
  Forall account_ok (accounts st') /\ 0 <= snd res.
Proof.
  intros H0 Hr H1 Hd Hok. unfold execute_transfer.
  destruct (accounts st !! s) as [sender|] eqn:Hs; [|discriminate].
  destruct (accounts st !! r) as [receiver0|] eqn:Hr0; [|discriminate]. simpl.
  destruct (Z.ltb_spec (balance sender) amount) as [|Hcov]; simpl.
  { intros [= <- <-]. split; [exact Hok | simpl; lia]. }
  destruct (Z.leb_spec amount 0) as [|Hpos]; simpl.
  { intros [= <- <-]. split; [exact Hok | simpl; lia]. }
  set (fee := int_of_float _).
  assert (Hfee : 0 <= fee <= amount) by (apply account_fee_bounds; try assumption; lia).
  destruct (Forall_lookup_1 _ _ _ _ Hok Hs) as (Hsb & Hsn & Hss).
  set (sender' := set_balance sender (balance sender - amount)).
  assert (Hsender' : account_ok sender').
  { unfold account_ok, sender'. simpl. repeat split; try assumption. lia. }
  assert (Hok1 : Forall account_ok (<[s := sender']> (accounts st)))
    by (by apply Forall_insert).
  destruct (<[s := sender']> (accounts st) !! r) as [receiver|] eqn:Hr1; [|discriminate].
  simpl. intros [= <- <-]. simpl. split; [|lia].
  destruct (Forall_lookup_1 _ _ _ _ Hok1 Hr1) as (Hrb & Hrn & Hrs).
  apply Forall_insert; [exact Hok1|].
  unfold account_ok. simpl. split; [lia|]. split; [apply mix_tags_nonneg|].
  apply mix_tags_within; try assumption; try lia.
  - apply apply_decay_nonneg.
  - unfold TAG_SCALE. lia.
  - rewrite account_decay_with.
    pose proof (decay_with_within TAG_PRUNE_THRESHOLD TAG_SCALE (tags sender) decay
                  ltac:(reflexivity) ltac:(reflexivity) Hd Hsn). lia.
Qed.

Lemma run_op_keeps_config o st :
  fee_config (run_op exp o st) = fee_config st
  /\ decay_rate (run_op exp o st) = decay_rate st.
Proof.
  destruct o as [atype bal|s r amount]; simpl.
  - unfold mint. simpl. by split.
  - unfold transfer_step. destruct (execute_transfer _ _ _ _ _ _ _) as [[[ok fee] st']|];
      by split.
Qed.

Lemma singleton_tags_ok (cluster_id : Z) :
  weights_nonneg ({[cluster_id := TAG_SCALE]} : gmap Z Z)
  /\ tag_sum ({[cluster_id := TAG_SCALE]} : gmap Z Z) <= TAG_SCALE.
Proof.
  split.
  - intros k w. rewrite lookup_singleton. case_decide; [|discriminate].
    intros [= <-]. unfold TAG_SCALE. lia.
  - rewrite <- insert_empty, tag_sum_insert by apply lookup_empty.
    rewrite tag_sum_empty. lia.
Qed.

Lemma run_op_accounts_ok o st :
  (0 <= r_min_bps (fee_config st))%Q ->
  (r_min_bps (fee_config st) <= r_max_bps (fee_config st))%Q ->
  (r_max_bps (fee_config st) <= 10000)%Q -> 0 <= decay_rate st ->
  match o with Mint _ bal => 0 <= bal | Transfer _ _ _ => True end ->
  Forall account_ok (accounts (store st)) /\ 0 <= total_fees st ->
  Forall account_ok (accounts (store (run_op exp o st)))
  /\ 0 <= total_fees (run_op exp o st).
Proof.
  intros H0 Hr H1 Hd Ho [Hok Hfees]. destruct o as [atype bal|s r amount]; simpl.
  - unfold mint. simpl. split; [|exact Hfees].
    apply Forall_app. split; [exact Hok|]. constructor; [|constructor].
    unfold account_ok. simpl. split; [exact Ho|]. apply singleton_tags_ok.
  - unfold transfer_step.
    destruct (execute_transfer exp s r amount (decay_rate st) (fee_config st) (store st))
      as [[[ok fee] store']|] eqn:E; [|by split].
    destruct (execute_transfer_accounts_ok _ _ _ _ _ _ _ _ H0 Hr H1 Hd Hok E)
      as [Hok' Hfee]. simpl in *.
    split; [exact Hok'|]. destruct ok; lia.
Qed.

(** X13.  With a fee curve whose rates lie between 0 and 10,000 basis
    points, a non-negative decay rate and non-negative minted balances, the
    account model keeps every account in order along any run: no balance
    becomes negative, every tag weight is non-negative, the explicit weights
    of each account sum to at most [TAG_SCALE], and the burned total is
    non-negative. *)
Theorem accounts_in_order_along_run (cfg : FeeConfig) (decay : Z) (ops : list op) :
  (0 <= r_min_bps cfg)%Q -> (r_min_bps cfg <= r_max_bps cfg)%Q ->
  (r_max_bps cfg <= 10000)%Q -> 0 <= decay -> mints_nonneg ops ->
  let st := run exp ops (SimState_init cfg decay) in
  Forall account_ok (accounts (store st)) /\ 0 <= total_fees st.
Proof.
  intros H0 Hr H1 Hd Hm.
  assert (Hgen : forall st,
             fee_config st = cfg -> decay_rate st = decay ->
             Forall account_ok (accounts (store st)) /\ 0 <= total_fees st ->
             Forall account_ok (accounts (store (run exp ops st)))
             /\ 0 <= total_fees (run exp ops st)).
  { induction Hm as [|o ops' Ho _ IH]; intros st Hc Hdc Hinv; [exact Hinv|].
    change (run exp (o :: ops') st) with (run exp ops' (run_op exp o st)).
    destruct (run_op_keeps_config o st) as [Hc' Hd'].
    apply IH; [congruence | congruence|].
    apply run_op_accounts_ok; rewrite ?Hc, ?Hdc; assumption. }
  apply Hgen; try reflexivity. simpl. split; [constructor | lia].
Qed.

End AccountBalancesInvariant.

Lemma accounts_in_order_along_run_witness :
  Forall account_ok
         (Account.accounts
            (Account.store
               (Account.run exp_standin
                            [Account.Mint "retail" 100000; Account.Mint "whale" 5000000;
                             Account.Transfer 1 0 200000]
                            (Account.SimState_init progressive_config 50000)))).
Proof.
  refine (proj1 (accounts_in_order_along_run exp_standin exp_standin_pos
                   progressive_config 50000 _ _ _ _ _ _)).
  - unfold Qle. simpl. lia.
  - unfold Qle. simpl. lia.
  - unfold Qle. simpl. lia.
  - lia.
  - repeat constructor; lia.
Defined.

(** ** The UTXO set: creating, spending, balances *)

Section UtxoSetFacts.

Import Utxo.

Lemma omap_ext_in {A B} (f g : A -> option B) (l : list A) :
  (forall x, x ∈ l -> f x = g x) -> omap f l = omap g l.
Proof.
  induction l as [|x l IH]; intros H; [reflexivity|].
  assert (IH' : omap f l = omap g l).
  { apply IH. intros y Hy. apply H. by apply list_elem_of_further. }
  cbn. rewrite (H x) by apply list_elem_of_here.
  destruct (g x); [f_equal|]; exact IH'.
Qed.

Lemma owner_utxos_member us o u :
  utxo_wf us -> u ∈ get_owner_utxos us o ->
  exists ids, by_owner us !! o = Some ids /\ id u ∈ ids /\ utxos us !! id u = Some u.
Proof.
  intros [Hkey _ _] Hu. unfold get_owner_utxos in Hu.
  destruct (by_owner us !! o) as [ids|] eqn:E; simpl in Hu.
  - apply list_elem_of_omap in Hu as (k & Hk & Hu).
    destruct (Hkey _ _ Hu) as [Eid _]. exists ids. rewrite Eid. by repeat split.
  - by apply elem_of_nil in Hu.
Qed.

Lemma create_utxo_owner_utxos v t o us o' :
  utxo_wf us ->
  get_owner_utxos (snd (create_utxo v t o us)) o'
  = get_owner_utxos us o'
    ++ (if decide (o' = o) then [fst (create_utxo v t o us)] else []).
Proof.
  intros [Hkey Hnd Hbd]. unfold get_owner_utxos. simpl.
  assert (Hold : forall ids, by_owner us !! o' = Some ids ->
                   omap (fun uid => <[next_id us := {| id := next_id us; value := v;
                                                        tags := t; owner := o |}]>
                                      (utxos us) !! uid) ids
                   = omap (fun uid => utxos us !! uid) ids).
  { intros ids Hids. apply omap_ext_in. intros k Hk.
    rewrite lookup_insert_ne; [reflexivity|].
    specialize (Hbd _ _ _ Hids Hk). lia. }
  case_decide as E.
  - subst o'. rewrite lookup_insert_eq. simpl. rewrite omap_app. simpl.
    rewrite lookup_insert_eq. simpl.
    destruct (by_owner us !! o) as [ids|] eqn:Hids; simpl.
    + by rewrite (Hold ids).
    + reflexivity.
  - rewrite lookup_insert_ne by congruence. rewrite app_nil_r.
    destruct (by_owner us !! o') as [ids|] eqn:Hids; simpl.
    + by apply Hold.
    + reflexivity.
Qed.

Lemma omap_delete_filter (m : gmap Z UTXO) k (ids : list Z) :
  (forall i u, m !! i = Some u -> id u = i) ->
  omap (fun i => delete k m !! i) ids
  = List.filter (fun u => negb (id u =? k)) (omap (fun i => m !! i) ids).
Proof.
  intros Hkey. induction ids as [|i ids IH]; [reflexivity|].
  cbn. rewrite lookup_delete. case_decide as E.
  - subst i. destruct (m !! k) as [u|] eqn:Hu; cbn; [|exact IH].
    rewrite (Hkey _ _ Hu), Z.eqb_refl. cbn. exact IH.
  - destruct (m !! i) as [u|] eqn:Hu; cbn; [|exact IH].
    rewrite (Hkey _ _ Hu). destruct (Z.eqb_spec i k); [congruence|]. cbn.
    f_equal. exact IH.
Qed.

Lemma omap_filter_absent {B} (f : Z -> option B) k (ids : list Z) :
  f k = None ->
  omap f (List.filter (fun i => negb (i =? k)) ids) = omap f ids.
Proof.
  intros Hk. induction ids as [|i ids IH]; [reflexivity|].
  cbn. destruct (Z.eqb_spec i k) as [->|Hne]; cbn.
  - rewrite Hk. exact IH.
  - destruct (f i); [f_equal|]; exact IH.
Qed.

Lemma spend_utxo_owner_utxos k us o :
  utxo_wf us ->
  get_owner_utxos (spend_utxo k us) o
  = List.filter (fun u => negb (id u =? k)) (get_owner_utxos us o).
Proof.
  intros [Hkey _ _].
  assert (Hkey' : forall i u, utxos us !! i = Some u -> id u = i)
    by (intros i u H; by destruct (Hkey i u H)).
  unfold spend_utxo, get_owner_utxos.
  destruct (utxos us !! k) as [u|] eqn:Hu; simpl.
  - assert (Hgen : forall ids, omap (fun uid => delete k (utxos us) !! uid) ids
                     = List.filter (fun u => negb (id u =? k))
                                   (omap (fun uid => utxos us !! uid) ids))
      by (intros; by apply omap_delete_filter).
    destruct (by_owner us !! owner u) as [ids_u|] eqn:Hou.
    + destruct (decide (o = owner u)) as [->|Hne].
      * rewrite lookup_insert_eq, Hou. simpl.
        rewrite omap_filter_absent by apply lookup_delete_eq. apply Hgen.
      * rewrite lookup_insert_ne by congruence. apply Hgen.
    + apply Hgen.
  - symmetry. apply forallb_filter_id, forallb_forall. intros u' Hu'.
    destruct (by_owner us !! o) as [ids|]; simpl in Hu'; [|contradiction].
    apply list_elem_of_In, list_elem_of_omap in Hu' as (i & _ & Hi).
    rewrite (Hkey' _ _ Hi). destruct (Z.eqb_spec i k); [congruence | reflexivity].
Qed.

End UtxoSetFacts.

Section UtxoBalanceFacts.

Import Utxo.

Lemma filter_id_noop (l : list UTXO) k :
  (forall u, u ∈ l -> id u <> k) ->
  List.filter (fun u => negb (id u =? k)) l = l.
Proof.
  intros H. apply forallb_filter_id, forallb_forall. intros u Hu.
  apply list_elem_of_In in Hu. specialize (H u Hu).
  destruct (Z.eqb_spec (id u) k); [contradiction | reflexivity].
Qed.

Lemma balance_filter_out (l : list UTXO) u :
  NoDup (id <$> l) -> u ∈ l ->
  (qsum (map value (List.filter (fun u' => negb (id u' =? id u)) l))
   == qsum (map value l) - value u)%Q.
Proof.
  induction l as [|x l IH]; intros Hnd Hu.
  - by apply elem_of_nil in Hu.
  - rewrite fmap_cons in Hnd. apply NoDup_cons in Hnd as [Hx Hnd].
    apply elem_of_cons in Hu as [->|Hu]; cbn [List.filter].
    + rewrite Z.eqb_refl. cbn [negb]. rewrite filter_id_noop.
      * cbn [map]. rewrite qsum_cons. ring.
      * intros u' Hu' E. apply Hx. rewrite <- E. by apply list_elem_of_fmap_2.
    + destruct (Z.eqb_spec (id x) (id u)) as [E|Hne]; cbn [negb].
      * exfalso. apply Hx. rewrite E. by apply list_elem_of_fmap_2.
      * cbn [map]. rewrite !qsum_cons, IH by assumption. ring.
Qed.

Lemma spend_all_balance (sel : list UTXO) us o :
  utxo_wf us -> NoDup (id <$> sel) ->
  (forall u, u ∈ sel -> u ∈ get_owner_utxos us o) ->
  (get_owner_balance (fold_left (fun us u => spend_utxo (id u) us) sel us) o
   == get_owner_balance us o - qsum (map value sel))%Q.
Proof.
  revert us. induction sel as [|u sel IH]; intros us Hwf Hnd Hin.
  - unfold qsum. simpl. ring.
  - rewrite fmap_cons in Hnd. apply NoDup_cons in Hnd as [Hu Hnd]. cbn [fold_left].
    rewrite IH.
    + unfold get_owner_balance. rewrite spend_utxo_owner_utxos by exact Hwf.
      rewrite balance_filter_out.
      * cbn [map]. rewrite qsum_cons. ring.
      * by apply owner_utxos_live.
      * apply Hin. apply list_elem_of_here.
    + by apply spend_utxo_wf.
    + exact Hnd.
    + intros u' Hu'. rewrite spend_utxo_owner_utxos by exact Hwf.
      apply list_elem_of_In, filter_In. split.
      * apply list_elem_of_In, Hin. by apply list_elem_of_further.
      * destruct (Z.eqb_spec (id u') (id u)) as [E|]; [|reflexivity].
        exfalso. apply Hu. rewrite <- E. by apply list_elem_of_fmap_2.
Qed.

Lemma spend_all_other (sel : list UTXO) us o :
  utxo_wf us ->
  (forall u u', u ∈ sel -> u' ∈ get_owner_utxos us o -> id u' <> id u) ->
  get_owner_utxos (fold_left (fun us u => spend_utxo (id u) us) sel us) o
  = get_owner_utxos us o.
Proof.
  revert us. induction sel as [|u sel IH]; intros us Hwf Hdis; [reflexivity|].
  cbn [fold_left].
  assert (Hstep : get_owner_utxos (spend_utxo (id u) us) o = get_owner_utxos us o).
  { rewrite spend_utxo_owner_utxos by exact Hwf. apply filter_id_noop.
    intros u' Hu'. apply (Hdis u u'); [apply list_elem_of_here | exact Hu']. }
  rewrite IH.
  - exact Hstep.
  - by apply spend_utxo_wf.
  - intros u0 u' H0 Hu'. rewrite Hstep in Hu'.
    apply (Hdis u0 u'); [by apply list_elem_of_further | exact Hu'].
Qed.

Lemma create_utxo_owned v t o us :
  utxo_wf us -> utxo_owned us -> utxo_owned (snd (create_utxo v t o us)).
Proof.
  intros [Hkey Hnd Hbd] Hown o' ids k u. simpl.
  rewrite (lookup_insert (by_owner us)). case_decide as E.
  - subst o'. intros [= <-] Hk. rewrite lookup_insert. case_decide as Ek.
    + intros [= <-]. reflexivity.
    + intros Hu. apply elem_of_app in Hk as [Hk|Hk].
      * destruct (by_owner us !! o) as [old|] eqn:Ho; simpl in Hk.
        -- by eapply Hown.
        -- by apply elem_of_nil in Hk.
      * apply list_elem_of_singleton in Hk. congruence.
  - intros Hids Hk. rewrite lookup_insert. case_decide as Ek.
    + subst k. specialize (Hbd _ _ _ Hids Hk). lia.
    + intros Hu. by eapply Hown.
Qed.

Lemma spend_utxo_owned k us : utxo_owned us -> utxo_owned (spend_utxo k us).
Proof.
  intros Hown. unfold spend_utxo.
  destruct (utxos us !! k) as [u|] eqn:Hk; [|exact Hown].
  intros o ids i u'. simpl. intros Hids Hi Hu'.
  rewrite lookup_delete in Hu'. case_decide; [discriminate|].
  destruct (by_owner us !! owner u) as [old|] eqn:Ho.
  - rewrite lookup_insert in Hids. case_decide as E.
    + injection Hids as <-. subst o.
      apply list_elem_of_In, filter_In in Hi as [Hi _]. apply list_elem_of_In in Hi.
      by eapply Hown.
    + by eapply Hown.
  - by eapply Hown.
Qed.

Lemma spend_all_owned (sel : list UTXO) us :
  utxo_owned us -> utxo_owned (fold_left (fun us u => spend_utxo (id u) us) sel us).
Proof.
  revert us. induction sel as [|u sel IH]; intros us H; [exact H|].
  cbn [fold_left]. apply IH. by apply spend_utxo_owned.
Qed.

Lemma utxo_owned_init : utxo_owned UTXOSet_init.
Proof. intros o ids k u H. simpl in H. by rewrite lookup_empty in H. Qed.

Lemma mint_all_owned i wealths us :
  utxo_wf us -> utxo_owned us -> utxo_owned (mint_all i wealths us).
Proof.
  revert i us. induction wealths as [|v rest IH]; intros i us Hwf Hown; [exact Hown|].
  cbn [mint_all]. apply IH; [by apply mint_wf|].
  unfold mint. simpl.
  apply (create_utxo_owned v _ i
           {| utxos := utxos us; by_owner := by_owner us; next_id := next_id us;
              next_cluster := next_cluster us + 1 |}).
  - destruct Hwf. by split.
  - exact Hown.
Qed.

Lemma transfer_keeps_owned exp st s r amount :
  utxo_wf (utxo_set st) -> utxo_owned (utxo_set st) ->
  utxo_owned (utxo_set (snd (transfer exp st s r amount))).
Proof.
  intros Hwf Hown. rewrite transfer_by_plan.
  destruct (transfer_plan exp st s amount) as [[[[sel v] fee] need]|]; [|exact Hown].
  cbv zeta. cbn [snd utxo_set].
  set (decayed := apply_decay _ _).
  set (us1 := fold_left _ sel (utxo_set st)).
  assert (Hwf1 : utxo_wf us1) by (by apply spend_all_wf).
  assert (Hown1 : utxo_owned us1) by (by apply spend_all_owned).
  assert (Hown2 : utxo_owned (snd (create_utxo amount decayed r us1)))
    by (by apply create_utxo_owned).
  destruct (Qltb (1 # 100) (v - need)); [|exact Hown2].
  apply create_utxo_owned; [by apply create_utxo_wf | exact Hown2].
Qed.

Lemma utxo_reached_consistent exp st :
  utxo_reached exp st -> utxo_wf (utxo_set st) /\ utxo_owned (utxo_set st).
Proof.
  intros (wealths & p90 & cfg & decay & transfers & ->).
  set (st0 := create_initial_state wealths p90 cfg decay).
  assert (H0 : utxo_wf (utxo_set st0) /\ utxo_owned (utxo_set st0)).
  { split.
    - apply (mint_all_spec 0 wealths UTXOSet_init utxo_wf_init).
    - apply mint_all_owned; [apply utxo_wf_init | apply utxo_owned_init]. }
  clearbody st0. revert st0 H0.
  induction transfers as [|[[s r] amount] rest IH]; intros st0 H0; [exact H0|].
  change (run exp ((s, r, amount) :: rest) st0)
    with (run exp rest (snd (transfer exp st0 s r amount))).
  apply IH. destruct H0 as [Hwf Hown]. split.
  - apply (utxo_transfer_conserves exp st0 s r amount Hwf).
  - by apply transfer_keeps_owned.
Qed.

End UtxoBalanceFacts.

Section UtxoTransferEffects.

Import Utxo.

Lemma transfer_plan_selected exp st sender_id amount selected selected_value fee
      total_needed :
  transfer_plan exp st sender_id amount
  = Some (selected, selected_value, fee, total_needed) ->
  forall u, u ∈ selected -> u ∈ get_owner_utxos (utxo_set st) sender_id.
Proof.
  unfold transfer_plan.
  set (sender_utxos := get_owner_utxos (utxo_set st) sender_id).
  destruct (_ || _); [discriminate|].
  destruct (select_first st sender_utxos amount) as [sel0 v0] eqn:H0.
  destruct sel0 as [|u0 rest0]; [discriminate|].
  destruct (select_final exp st sender_utxos amount (u0 :: rest0) v0)
    as [[[sel v] f] need] eqn:H1.
  destruct (Qltb v need); [discriminate|]. intros [= <- <- <- <-].
  unfold select_first in H0.
  apply select_estimated_spec in H0 as (pre0 & suf0 & Hsorted0 & Hsel0 & _).
  simpl in Hsel0. subst pre0.
  assert (Hsub0 : forall u, u ∈ u0 :: rest0 -> u ∈ sender_utxos).
  { intros u Hu. rewrite <- (sorted_Permutation (fun u => - value u)%Q sender_utxos).
    rewrite Hsorted0. apply elem_of_app. by left. }
  unfold select_final in H1.
  destruct (Qltb v0 (amount + fee_for exp st amount (u0 :: rest0))).
  - apply select_more_spec in H1 as (pre1 & suf1 & Hsorted1 & -> & _); [|reflexivity].
    intros u Hu. apply elem_of_app in Hu as [Hu|Hu]; [by apply Hsub0|].
    assert (Hr : u ∈ List.filter (fun u => negb (UTXO_in u (u0 :: rest0))) sender_utxos).
    { rewrite <- (sorted_Permutation (fun u => - value u)%Q). rewrite Hsorted1.
      apply elem_of_app. by left. }
    apply list_elem_of_In, filter_In in Hr as [Hr _]. by apply list_elem_of_In.
  - injection H1 as <- <- <- <-. exact Hsub0.
Qed.

Lemma create_utxo_balance v t o us o' :
  utxo_wf us ->
  (get_owner_balance (snd (create_utxo v t o us)) o'
   == get_owner_balance us o' + (if decide (o' = o) then v else 0))%Q.
Proof.
  intros Hwf. unfold get_owner_balance. rewrite create_utxo_owner_utxos by exact Hwf.
  rewrite map_app, qsum_app. case_decide.
  - change (map value [fst (create_utxo v t o us)]) with [v].
    rewrite qsum_cons. change (qsum []) with 0%Q. ring.
  - change (qsum (map value [])) with 0%Q. ring.
Qed.

(** X14.  Creating a UTXO in a well-formed set gives it the id [next_id],
    which no live UTXO has; the UTXO is then stored under that id and is the
    last of its owner's UTXOs; the owner's balance grows by its value, and
    the UTXOs of every other owner are as before. *)
Theorem create_utxo_is_listed (v : Q) (t : gmap Z Z) (o o' : Z) (us : UTXOSet) :
  utxo_wf us ->
  let new := fst (create_utxo v t o us) in
  let us' := snd (create_utxo v t o us) in
  id new = next_id us
  /\ utxos us !! id new = None
  /\ utxos us' !! id new = Some new
  /\ get_owner_utxos us' o = get_owner_utxos us o ++ [new]
  /\ (get_owner_balance us' o == get_owner_balance us o + v)%Q
  /\ (o' <> o -> get_owner_utxos us' o' = get_owner_utxos us o').
Proof.
  intros Hwf new us'. split; [reflexivity|]. split.
  { destruct (utxos us !! id new) as [u|] eqn:E; [|reflexivity].
    destruct (wf_key us Hwf _ _ E) as [_ Hlt]. simpl in Hlt. lia. }
  split; [apply lookup_insert_eq|]. split.
  { unfold us', new. rewrite create_utxo_owner_utxos by exact Hwf.
    by rewrite decide_True. }
  split.
  { unfold us'. rewrite create_utxo_balance by exact Hwf. by rewrite decide_True. }
  intros Hne. unfold us'. rewrite create_utxo_owner_utxos by exact Hwf.
  rewrite decide_False by exact Hne. apply app_nil_r.
Qed.

(** X15.  Spending a live UTXO of a well-formed set removes it from the set
    and from its owner's UTXOs and lowers that owner's balance by its value;
    its id is not handed out again.  Spending an id that is not live changes
    nothing. *)
Theorem spend_utxo_removes (k : Z) (u : UTXO) (us : UTXOSet) :
  utxo_wf us ->
  (utxos us !! k = None -> spend_utxo k us = us)
  /\ (utxos us !! k = Some u ->
      let us' := spend_utxo k us in
      utxos us' !! k = None
      /\ next_id us' = next_id us
      /\ (forall o, u ∉ get_owner_utxos us' o)
      /\ (forall o, u ∈ get_owner_utxos us o ->
                    (get_owner_balance us' o == get_owner_balance us o - value u)%Q)).
Proof.
  intros Hwf. split.
  { intros H. unfold spend_utxo. by rewrite H. }
  intros Hu us'.
  destruct (wf_key us Hwf _ _ Hu) as [Eid _].
  split; [unfold us'; rewrite (spend_utxo_utxos k u us Hu); apply lookup_delete_eq|].
  split; [unfold us', spend_utxo; by rewrite Hu|]. split.
  - intros o Hin. unfold us' in Hin. rewrite spend_utxo_owner_utxos in Hin by exact Hwf.
    apply list_elem_of_In, filter_In in Hin as [_ Hin].
    rewrite Eid, Z.eqb_refl in Hin. discriminate.
  - intros o Hin. unfold us', get_owner_balance.
    rewrite spend_utxo_owner_utxos by exact Hwf. rewrite <- Eid.
    apply balance_filter_out; [by apply owner_utxos_live | exact Hin].
Qed.

(** X16.  In a state the UTXO model reaches, a successful transfer between
    two different owners raises the receiver's balance by exactly the
    amount, lowers the sender's balance by the amount, the fee it records
    and the change it drops as dust, and leaves the UTXOs of every other
    owner untouched. *)
Theorem utxo_transfer_moves_balances (exp : Q -> Q) (st : SimState)
        (sender_id receiver_id : Z) (amount : Q) :
  utxo_reached exp st -> sender_id <> receiver_id ->
  fst (transfer exp st sender_id receiver_id amount) = true ->
  let st' := snd (transfer exp st sender_id receiver_id amount) in
  let fee := (total_fees st' - total_fees st)%Q in
  (get_owner_balance (utxo_set st') receiver_id
   == get_owner_balance (utxo_set st) receiver_id + amount)%Q
  /\ (get_owner_balance (utxo_set st') sender_id
      == get_owner_balance (utxo_set st) sender_id - amount - fee
         - dropped_change exp st sender_id amount)%Q
  /\ (forall o, o <> sender_id -> o <> receiver_id ->
                get_owner_utxos (utxo_set st') o = get_owner_utxos (utxo_set st) o).
Proof.
  intros Hreach Hne. destruct (utxo_reached_consistent exp st Hreach) as [Hwf Hown].
  unfold dropped_change. rewrite transfer_by_plan.
  destruct (transfer_plan exp st sender_id amount) as [[[[sel v] fee0] need]|] eqn:Hplan;
    [|discriminate].
  intros _.
  destruct (transfer_plan_spec _ _ _ _ _ _ _ _ Hwf Hplan) as (Hnd & Hlive & Hv & Hneed & Hcov).
  pose proof (transfer_plan_selected _ _ _ _ _ _ _ _ Hplan) as Hsub.
  cbv zeta. cbn [snd utxo_set total_fees].
  set (decayed := apply_decay _ _).
  set (us1 := fold_left _ sel (utxo_set st)).
  assert (Hwf1 : utxo_wf us1) by (by apply spend_all_wf).
  assert (Hother : forall o, o <> sender_id ->
                             get_owner_utxos us1 o = get_owner_utxos (utxo_set st) o).
  { intros o Ho. apply spend_all_other; [exact Hwf|].
    intros u u' Hu Hu' E.
    destruct (owner_utxos_member _ _ _ Hwf (Hsub u Hu)) as (ids & Hids & Hk & Hlk).
    destruct (owner_utxos_member _ _ _ Hwf Hu') as (ids' & Hids' & Hk' & Hlk').
    pose proof (Hown _ _ _ _ Hids Hk Hlk) as O1.
    pose proof (Hown _ _ _ _ Hids' Hk' Hlk') as O2.
    assert (Euu : u' = u) by (rewrite E in Hlk'; congruence).
    congruence. }
  assert (Hsender1 : (get_owner_balance us1 sender_id
                      == get_owner_balance (utxo_set st) sender_id
                         - qsum (map value sel))%Q)
    by (by apply spend_all_balance).
  set (us2 := snd (create_utxo amount decayed receiver_id us1)).
  assert (Hwf2 : utxo_wf us2) by (by apply create_utxo_wf).
  assert (Hbal2 : forall o, (get_owner_balance us2 o
                             == get_owner_balance us1 o
                                + (if decide (o = receiver_id) then amount else 0))%Q)
    by (intros o; by apply create_utxo_balance).
  assert (Hlist2 : forall o, o <> receiver_id ->
                             get_owner_utxos us2 o = get_owner_utxos us1 o).
  { intros o Ho. unfold us2. rewrite create_utxo_owner_utxos by exact Hwf1.
    rewrite decide_False by exact Ho. apply app_nil_r. }
  assert (Hr1 : (get_owner_balance us1 receiver_id
                 == get_owner_balance (utxo_set st) receiver_id)%Q).
  { unfold get_owner_balance. rewrite Hother by congruence. reflexivity. }
  destruct (Qltb (1 # 100) (v - need)).
  - split; [|split].
    + rewrite create_utxo_balance by exact Hwf2.
      rewrite decide_False by congruence. rewrite Hbal2, decide_True by reflexivity.
      rewrite Hr1. ring.
    + rewrite create_utxo_balance by exact Hwf2. rewrite decide_True by reflexivity.
      rewrite Hbal2, decide_False by exact Hne. rewrite Hsender1, <- Hv, Hneed. ring.
    + intros o Hs Hr. rewrite create_utxo_owner_utxos by exact Hwf2.
      rewrite decide_False by exact Hs. rewrite app_nil_r, Hlist2 by exact Hr.
      by apply Hother.
  - split; [|split].
    + rewrite Hbal2, decide_True by reflexivity. rewrite Hr1. ring.
    + rewrite Hbal2, decide_False by exact Hne. rewrite Hsender1, <- Hv, Hneed. ring.
    + intros o Hs Hr. rewrite Hlist2 by exact Hr. by apply Hother.
Qed.

End UtxoTransferEffects.

Lemma utxo_example_wf : utxo_wf (Utxo.utxo_set utxo_example).
Proof. apply (mint_all_spec 0 [100; 50]%Q Utxo.UTXOSet_init utxo_wf_init). Qed.

Lemma create_utxo_is_listed_witness :
  let us := Utxo.utxo_set utxo_example in
  (Utxo.get_owner_balance (snd (Utxo.create_utxo 7 ∅ 0 us)) 0
   == Utxo.get_owner_balance us 0 + 7)%Q.
Proof.
  intros us.
  destruct (create_utxo_is_listed 7 ∅ 0 1 us utxo_example_wf) as (_ & _ & _ & _ & H & _).
  exact H.
Defined.

Lemma spend_utxo_removes_witness :
  let us := Utxo.utxo_set utxo_example in
  Utxo.utxos (Utxo.spend_utxo 0 us) !! 0 = None.
Proof.
  intros us.
  destruct (spend_utxo_removes 0
              {| Utxo.id := 0; Utxo.value := 100; Utxo.tags := {[0 := 1000000]};
                 Utxo.owner := 0 |} us utxo_example_wf) as [_ H].
  apply H. vm_compute. reflexivity.
Defined.

Lemma utxo_transfer_moves_balances_witness :
  let st' := snd (Utxo.transfer exp_standin utxo_example 0 1 40) in
  (Utxo.get_owner_balance (Utxo.utxo_set st') 1
   == Utxo.get_owner_balance (Utxo.utxo_set utxo_example) 1 + 40)%Q.
Proof.
  intros st'.
  refine (proj1 (utxo_transfer_moves_balances exp_standin utxo_example 0 1 40 _ _ _)).
  - exists [100; 50]%Q, 95%Q, flat_config, 50000, []. reflexivity.
  - lia.
  - vm_compute. reflexivity.
Defined.

(** ** The reference implementation: outcomes of a transfer *)

Section ReferenceOutcomes.

Import Reference.


Lemma gather_Some us input_ids inputs :
  gather us input_ids = Some inputs ->
  Forall2 (fun uid u => utxos us !! uid = Some u) input_ids inputs.
Proof.
  revert inputs. induction input_ids as [|uid rest IH]; intros inputs; simpl.
  - intros [= <-]. constructor.
  - destruct (utxos us !! uid) as [u|] eqn:E; [|discriminate].
    destruct (gather us rest) as [l|]; simpl; [|discriminate].
    intros [= <-]. constructor; [exact E | by apply IH].
Qed.

(** The sequence of [spend] calls goes through exactly when the ids are
    live and pairwise different; it then deletes them. *)
Lemma spend_all_Some input_ids us us' :
  spend_all input_ids us = Some us' ->
  NoDup input_ids
  /\ Forall (fun uid => is_Some (utxos us !! uid)) input_ids
  /\ next_id us' = next_id us
  /\ (forall k, utxos us' !! k = if decide (k ∈ input_ids) then None else utxos us !! k).
Proof.
  revert us. induction input_ids as [|uid rest IH]; intros us; cbn [spend_all].
  - intros [= <-]. split; [constructor|]. split; [constructor|]. split; [reflexivity|].
    intros k. rewrite decide_False; [reflexivity | apply not_elem_of_nil].
  - unfold spend. destruct (utxos us !! uid) as [u|] eqn:E;
      cbn [mbind option_bind]; [|discriminate].
    intros H. destruct (IH _ H) as (Hnd & Hall & Hnext & Hlook).
    cbn [utxos next_id] in Hall, Hnext, Hlook.
    assert (Hnotin : uid ∉ rest).
    { intros Hin. rewrite Forall_forall in Hall. destruct (Hall uid Hin) as [x Hx].
      rewrite lookup_delete_eq in Hx. discriminate. }
    split; [by constructor|]. split.
    { constructor; [by eexists|]. eapply Forall_impl; [exact Hall|].
      intros k [x Hx]. rewrite lookup_delete in Hx. case_decide; [discriminate|].
      by eexists. }
    split; [exact Hnext|]. intros k. rewrite Hlook.
    destruct (decide (k ∈ rest)) as [Hin|Hnin];
      destruct (decide (k ∈ uid :: rest)) as [Hin'|Hnin']; try reflexivity.
    + exfalso. apply Hnin'. by apply list_elem_of_further.
    + apply elem_of_cons in Hin' as [->|?]; [|contradiction]. apply lookup_delete_eq.
    + apply lookup_delete_ne. intros ->. apply Hnin'. apply list_elem_of_here.
Qed.




End ReferenceOutcomes.

Section ReferenceEffects.

Import Reference.


Lemma ref_wf_init : ref_wf UTXOSet_init.
Proof. intros k u. simpl. by rewrite lookup_empty. Qed.

Lemma mint_ref_wf o v sw us : ref_wf us -> ref_wf (snd (mint o v sw us)).
Proof.
  intros Hwf k u. unfold mint. cbn [snd utxos next_id]. rewrite lookup_insert.
  case_decide as Ek.
  - intros [= <-]. cbn [id] in *. split; [exact Ek | lia].
  - intros Hu. destruct (Hwf _ _ Hu). split; [assumption | lia].
Qed.

Lemma ref_example_wf : ref_wf ref_example.
Proof. unfold ref_example. do 2 apply mint_ref_wf. apply ref_wf_init. Qed.

Lemma ref_example_transfer :
  exists fee new_utxos us',
    transfer ref_example [0; 1] [("recipient"%string, 95000)] 1000000
    = Returned true fee new_utxos us'.
Proof. eexists _, _, _. vm_compute. reflexivity. Qed.



Lemma weighted_sum_between (inputs : list UTXO) lo hi :
  Forall (fun u => 0 <= value u /\ lo <= source_wealth u <= hi) inputs ->
  lo * zsum (map value inputs)
  <= zsum (map (fun u => value u * source_wealth u) inputs)
  <= hi * zsum (map value inputs).
Proof.
  induction 1 as [|u l [Hv Hsw] _ IH]; simpl.
  - unfold zsum. simpl. lia.
  - rewrite !zsum_cons. nia.
Qed.

(** X19.  Blending is an average: when the inputs of a successful transfer
    have non-negative values and source wealths between [lo] and [hi], every
    output has a source wealth between [lo] and [hi].  A transfer can
    neither raise the source wealth above the wealthiest input nor push it
    below the poorest. *)
Theorem blended_source_wealth_between (us us' : UTXOSet) (input_ids : list Z)
        (outputs : list (string * Z)) (max_wealth fee lo hi : Z)
        (new_utxos : list UTXO) :
  (forall uid u, uid ∈ input_ids -> utxos us !! uid = Some u ->
                 0 <= value u /\ lo <= source_wealth u <= hi) ->
  transfer us input_ids outputs max_wealth = Returned true fee new_utxos us' ->
  Forall (fun u => lo <= source_wealth u <= hi) new_utxos.
Proof.
  intros Hin Ht.
  assert (Htot : exists inputs, gather us input_ids = Some inputs
                                /\ zsum (map value inputs) <> 0).
  { unfold transfer in Ht. destruct (gather us input_ids) as [inputs|]; [|discriminate].
    exists inputs. split; [reflexivity|].
    destruct (Z.eqb_spec (zsum (map value inputs)) 0); [discriminate | assumption]. }
  destruct Htot as (inputs & Hg & Hne).
  apply transfer_outputs_blended in Ht as (inputs' & Hg' & Hall & _).
  rewrite Hg in Hg'. injection Hg' as <-.
  assert (Hbounds : Forall (fun u => 0 <= value u /\ lo <= source_wealth u <= hi) inputs).
  { apply gather_Some in Hg. clear -Hg Hin.
    induction Hg as [|uid u ids l Hu _ IH]; constructor.
    - apply (Hin uid u); [apply list_elem_of_here | exact Hu].
    - apply IH. intros uid' u' H1 H2. apply (Hin uid' u'); [|exact H2].
      by apply list_elem_of_further. }
  assert (Hpos : 0 < zsum (map value inputs)).
  { assert (0 <= zsum (map value inputs)).
    { clear -Hbounds. induction Hbounds as [|u l [Hv _] _ IH]; simpl.
      - unfold zsum. simpl. lia.
      - rewrite zsum_cons. lia. }
    lia. }
  destruct (weighted_sum_between inputs lo hi Hbounds) as [Hlo Hhi].
  assert (Hb : lo <= blended_source_wealth_of inputs <= hi).
  { unfold blended_source_wealth_of. split.
    - apply Z.div_le_lower_bound; [exact Hpos | lia].
    - apply Z.div_le_upper_bound; [exact Hpos | lia]. }
  eapply Forall_impl; [exact Hall|]. intros u ->. exact Hb.
Qed.

Lemma blended_source_wealth_between_witness :
  exists fee new_utxos us',
    transfer ref_example [0; 1] [("recipient"%string, 95000)] 1000000
    = Returned true fee new_utxos us'
    /\ Forall (fun u => 10000 <= source_wealth u <= 1000000) new_utxos.
Proof.
  destruct ref_example_transfer as (fee & new & us' & E).
  exists fee, new, us'. split; [exact E|].
  apply (blended_source_wealth_between ref_example us' [0; 1]
           [("recipient"%string, 95000)] 1000000 fee 10000 1000000 new); [|exact E].
  intros uid u Hin Hu.
  apply elem_of_cons in Hin as [->|Hin];
    [|apply list_elem_of_singleton in Hin as ->];
    vm_compute in Hu; injection Hu as <-; simpl; lia.
Defined.

Lemma ref_total_insert (m : gmap Z UTXO) k u nid :
  m !! k = None ->
  ref_total_value {| utxos := <[k := u]> m; next_id := nid |}
  = ref_total_value {| utxos := m; next_id := nid |} + value u.
Proof.
  intros Hk. unfold ref_total_value. simpl.
  apply (map_fold_insert_L (fun _ u acc => acc + value u)); [|exact Hk].
  intros. lia.
Qed.

Lemma ref_total_delete (m : gmap Z UTXO) k u nid :
  m !! k = Some u ->
  ref_total_value {| utxos := delete k m; next_id := nid |}
  = ref_total_value {| utxos := m; next_id := nid |} - value u.
Proof.
  intros Hk. rewrite <- (insert_delete_id m k u Hk) at 2.
  rewrite ref_total_insert by apply lookup_delete_eq. lia.
Qed.

Lemma gather_delete us uid rest :
  uid ∉ rest ->
  gather {| utxos := delete uid (utxos us); next_id := next_id us |} rest
  = gather us rest.
Proof.
  induction rest as [|k rest IH]; intros Hnotin; simpl; [reflexivity|].
  apply not_elem_of_cons in Hnotin as [Hne Hnotin].
  rewrite lookup_delete_ne by exact Hne. by rewrite IH.
Qed.

Lemma spend_all_total input_ids us inputs us1 :
  gather us input_ids = Some inputs -> spend_all input_ids us = Some us1 ->
  ref_total_value us1 = ref_total_value us - zsum (map value inputs).
Proof.
  revert us inputs. induction input_ids as [|uid rest IH]; intros us inputs; simpl.
  - intros [= <-] [= <-]. unfold zsum. simpl. lia.
  - unfold spend. destruct (utxos us !! uid) as [u|] eqn:E; [|discriminate].
    destruct (gather us rest) as [l|] eqn:Hg; [|discriminate].
    cbn [mbind option_bind fmap option_fmap option_map].
    intros [= <-] Hs.
    assert (Hnotin : uid ∉ rest).
    { destruct (spend_all_Some _ _ _ Hs) as (_ & Hall & _).
      intros Hin. rewrite Forall_forall in Hall. destruct (Hall uid Hin) as [x Hx].
      cbn [utxos] in Hx. rewrite lookup_delete_eq in Hx. discriminate. }
    rewrite (IH {| utxos := delete uid (utxos us); next_id := next_id us |} l);
      [| by rewrite gather_delete | exact Hs].
    rewrite (ref_total_delete _ _ u) by exact E.
    cbn [map]. rewrite zsum_cons. destruct us. simpl. lia.
Qed.

Lemma mint_outputs_total outputs sw us new us2 :
  ref_wf us -> mint_outputs outputs sw us = (new, us2) ->
  ref_wf us2
  /\ ref_total_value us2 = ref_total_value us + zsum (map snd outputs).
Proof.
  revert us new us2. induction outputs as [|[o v] rest IH]; intros us new us2 Hwf; simpl.
  - intros [= <- <-]. split; [exact Hwf|]. unfold zsum. simpl. lia.
  - destruct (mint_outputs rest sw _) as [more us3] eqn:E. intros [= <- <-].
    assert (Hfresh : utxos us !! next_id us = None).
    { destruct (utxos us !! next_id us) as [u|] eqn:Hu; [|reflexivity].
      destruct (Hwf _ _ Hu). lia. }
    assert (Hwf1 : ref_wf {| utxos := <[next_id us := {| id := next_id us; value := v;
                                                          source_wealth := sw;
                                                          owner := o |}]> (utxos us);
                             next_id := next_id us + 1 |}).
    { intros k u. simpl. rewrite lookup_insert. case_decide as Ek.
      - intros [= <-]. simpl. split; [exact Ek | lia].
      - intros Hu. destruct (Hwf _ _ Hu). split; [assumption | lia]. }
    destruct (IH _ _ _ Hwf1 E) as [Hwf3 Htot]. split; [exact Hwf3|].
    rewrite Htot, ref_total_insert by exact Hfresh. cbn [map snd]. rewrite zsum_cons.
    unfold ref_total_value. cbn [utxos value]. lia.
Qed.

(** X20.  A successful reference transfer on a well-formed set changes the
    total value of the set by exactly the outputs minus the inputs.  Since
    the inputs cover the outputs plus the fee, the total never grows: it
    falls by at least the fee, and whatever the inputs hold beyond outputs
    and fee is destroyed as well, no change output being made.  The set
    stays well formed. *)
Theorem reference_transfer_value (us us' : UTXOSet) (input_ids : list Z)
        (outputs : list (string * Z)) (max_wealth fee : Z) (new_utxos : list UTXO) :
  ref_wf us ->
  transfer us input_ids outputs max_wealth = Returned true fee new_utxos us' ->
  exists inputs,
    gather us input_ids = Some inputs
    /\ ref_total_value us'
       = ref_total_value us - zsum (map value inputs) + zsum (map snd outputs)
    /\ ref_total_value us' + fee <= ref_total_value us
    /\ ref_wf us'.
Proof.
  intros Hwf. unfold transfer.
  destruct (gather us input_ids) as [inputs|] eqn:Hg; [|discriminate].
  destruct (zsum (map value inputs) =? 0); [discriminate|].
  destruct (Z.ltb_spec (zsum (map value inputs))
                       (zsum (map snd outputs)
                        + int_of_float (inject_Z (zsum (map snd outputs))
                                        * compute_fee_rate (blended_source_wealth_of inputs)
                                            max_wealth r_min_default r_max_default)))
    as [|Hcov]; [discriminate|].
  destruct (spend_all input_ids us) as [us1|] eqn:Hs; [|discriminate].
  destruct (mint_outputs outputs _ us1) as [new us2] eqn:Hm.
  intros [= <- <- <-]. exists inputs. split; [reflexivity|].
  assert (Hwf1 : ref_wf us1).
  { destruct (spend_all_Some _ _ _ Hs) as (_ & _ & Hnext & Hlook).
    intros k u. rewrite Hlook, Hnext. case_decide; [discriminate | apply Hwf]. }
  destruct (mint_outputs_total _ _ _ _ _ Hwf1 Hm) as [Hwf2 Htot].
  pose proof (spend_all_total _ _ _ _ Hg Hs) as Hspent.
  split; [lia|]. split; [lia | exact Hwf2].
Qed.

Lemma reference_transfer_value_witness :
  ref_wf ref_example
  /\ exists fee new_utxos us',
      transfer ref_example [0; 1] [("recipient"%string, 95000)] 1000000
      = Returned true fee new_utxos us'
      /\ ref_total_value us' = 95000
      /\ ref_total_value us' + fee <= ref_total_value ref_example.
Proof.
  split; [exact ref_example_wf|].
  destruct ref_example_transfer as (fee & new & us' & E).
  exists fee, new, us'. split; [exact E|].
  destruct (reference_transfer_value _ _ _ _ _ _ _ ref_example_wf E)
    as (inputs & Hg & Htot & Hle & _).
  split; [|exact Hle].
  rewrite Htot. vm_compute in Hg. injection Hg as <-. vm_compute. reflexivity.
Defined.




End ReferenceEffects.

(** ** The Gini coefficient *)

Lemma zsum_Permutation (l l' : list Z) : l ≡ₚ l' -> zsum l = zsum l'.
Proof.
  induction 1 as [|x l l' _ IH|x y l|l l' l'' _ IH1 _ IH2].
  - reflexivity.
  - rewrite !zsum_cons. lia.
  - rewrite !zsum_cons. lia.
  - congruence.
Qed.

Lemma weighted_cons (k x : Z) (l : list Z) :
  zsum (imap (fun i b => (Z.of_nat i + k) * b) (x :: l))
  = k * x + zsum (imap (fun i b => (Z.of_nat i + (k + 1)) * b) l).
Proof.
  cbn [imap]. rewrite zsum_cons. f_equal.
  f_equal. apply imap_ext. intros i b _. simpl. f_equal. lia.
Qed.

Lemma weighted_shift (k : Z) (l : list Z) :
  zsum (imap (fun i b => (Z.of_nat i + (k + 1)) * b) l)
  = zsum (imap (fun i b => (Z.of_nat i + k) * b) l) + zsum l.
Proof.
  revert k. induction l as [|x l IH]; intros k.
  - reflexivity.
  - rewrite !weighted_cons, zsum_cons, !IH. lia.
Qed.

Lemma sum_idx_cons (x : Z) (l : list Z) :
  sum_idx (x :: l) = x + sum_idx l + zsum l.
Proof. unfold sum_idx. rewrite weighted_cons, weighted_shift. lia. Qed.

Lemma Qltb_inject_Z (x y : Z) : Qltb (inject_Z x) (inject_Z y) = (x <? y).
Proof.
  destruct (Qltb_spec (inject_Z x) (inject_Z y)) as [H|H], (Z.ltb_spec x y) as [H'|H'];
    try reflexivity; exfalso.
  - rewrite <- Zlt_Qlt in H. lia.
  - apply H. by rewrite <- Zlt_Qlt.
Qed.

Lemma sorted_insert_ascending (x : Z) (l : list Z) :
  StronglySorted Z.le l -> StronglySorted Z.le (sorted_insert inject_Z x l).
Proof.
  induction 1 as [|y l Hs IH Hy]; cbn [sorted_insert].
  - repeat constructor.
  - rewrite Qltb_inject_Z. destruct (Z.ltb_spec y x) as [Hlt|Hge].
    + constructor; [exact IH|]. rewrite Forall_forall. intros z Hz.
      apply list_elem_of_In, sorted_insert_In in Hz as [->|Hz]; [lia|].
      rewrite Forall_forall in Hy. apply Hy. by apply list_elem_of_In.
    + constructor; [by constructor|]. constructor; [exact Hge|].
      eapply Forall_impl; [exact Hy|]. simpl. intros. lia.
Qed.

Lemma sorted_ascending (l : list Z) : StronglySorted Z.le (sorted inject_Z l).
Proof.
  unfold sorted. induction l as [|x l IH]; cbn [foldr].
  - constructor.
  - by apply sorted_insert_ascending.
Qed.

Lemma sorted_of_Permutation (l l' : list Z) :
  l ≡ₚ l' -> sorted inject_Z l = sorted inject_Z l'.
Proof.
  intros Hp. apply (StronglySorted_unique_strong Z.le).
  - intros. lia.
  - apply sorted_ascending.
  - apply sorted_ascending.
  - by rewrite !sorted_Permutation.
Qed.

Lemma sorted_of_ascending (l : list Z) :
  StronglySorted Z.le l -> sorted inject_Z l = l.
Proof.
  intros Hl. apply (StronglySorted_unique_strong Z.le).
  - intros. lia.
  - apply sorted_ascending.
  - exact Hl.
  - apply sorted_Permutation.
Qed.

Lemma zsum_at_least (x : Z) (l : list Z) :
  Forall (Z.le x) l -> Z.of_nat (length l) * x <= zsum l.
Proof.
  induction 1 as [|y l Hy _ IH].
  - unfold zsum. simpl. lia.
  - rewrite zsum_cons. cbn [length]. lia.
Qed.

Lemma sum_idx_lower (l : list Z) :
  StronglySorted Z.le l ->
  (Z.of_nat (length l) + 1) * zsum l <= 2 * sum_idx l.
Proof.
  induction 1 as [|x l _ IH Hx].
  - unfold sum_idx, zsum. simpl. lia.
  - rewrite sum_idx_cons, zsum_cons. cbn [length].
    pose proof (zsum_at_least x l Hx). nia.
Qed.

Lemma sum_idx_upper (l : list Z) :
  Forall (fun b => 0 <= b) l ->
  0 <= zsum l /\ sum_idx l <= Z.of_nat (length l) * zsum l.
Proof.
  induction 1 as [|x l Hx _ [IH0 IH]].
  - unfold sum_idx, zsum. simpl. lia.
  - rewrite sum_idx_cons, zsum_cons. cbn [length]. split; [lia | nia].
Qed.

Lemma clamp_inactive (x : Q) : (0 <= x <= 1)%Q -> (py_max 0 (py_min 1 x) == x)%Q.
Proof.
  intros [H0 H1]. unfold py_min.
  destruct (Qltb_spec x 1); unfold py_max.
  - destruct (Qltb_spec 0 x); lra.
  - destruct (Qltb_spec 0 1); lra.
Qed.

Lemma calculate_gini_unfold (balances : list Z) :
  (2 <= length balances)%nat -> zsum balances <> 0 ->
  calculate_gini balances
  = py_max 0 (py_min 1 (inject_Z (2 * sum_idx (sorted inject_Z balances)
                                  - (Z.of_nat (length balances) + 1) * zsum balances)
                        / inject_Z (Z.of_nat (length balances) * zsum balances)))%Q.
Proof.
  intros Hn Ht. unfold calculate_gini.
  destruct (Nat.ltb_spec (length balances) 2); [lia|].
  destruct (Z.eqb_spec (zsum balances) 0); [contradiction|].
  cbv zeta. by rewrite (Permutation_length (sorted_Permutation inject_Z balances)).
Qed.

(** X22.  The Gini coefficient of non-negative balances: with at least two
    balances and a positive total the clamp to [[0, 1]] is not active, the
    result is the quotient itself, and it is at most [(n - 1) / n], so it
    stays strictly below 1. *)
Theorem gini_of_nonnegative_balances (balances : list Z) :
  Forall (fun b => 0 <= b) balances ->
  (2 <= length balances)%nat ->
  0 < zsum balances ->
  let n := Z.of_nat (length balances) in
  (calculate_gini balances
   == inject_Z (2 * sum_idx (sorted inject_Z balances) - (n + 1) * zsum balances)
      / inject_Z (n * zsum balances))%Q
  /\ (0 <= calculate_gini balances)%Q
  /\ (calculate_gini balances <= inject_Z (n - 1) / inject_Z n)%Q
  /\ (calculate_gini balances < 1)%Q.
Proof.
  intros Hnn Hlen Hpos n.
  rewrite calculate_gini_unfold by (try exact Hlen; lia). fold n.
  set (S := sorted inject_Z balances).
  assert (HpS : S ≡ₚ balances) by apply sorted_Permutation.
  assert (HlenS : Z.of_nat (length S) = n) by (unfold n; by rewrite HpS).
  assert (HsumS : zsum S = zsum balances) by (by apply zsum_Permutation).
  pose proof (sum_idx_lower S (sorted_ascending balances)) as Hlo.
  assert (HnnS : Forall (fun b => 0 <= b) S) by (by rewrite HpS).
  destruct (sum_idx_upper S HnnS) as [_ Hhi].
  rewrite HlenS, HsumS in Hlo, Hhi.
  assert (Hn : 2 <= n) by (unfold n; lia).
  set (num := 2 * sum_idx S - (n + 1) * zsum balances) in *.
  assert (Hnum : 0 <= num <= (n - 1) * zsum balances) by (unfold num; lia).
  assert (Hden : (0 < inject_Z (n * zsum balances))%Q).
  { change 0%Q with (inject_Z 0). rewrite <- Zlt_Qlt. nia. }
  assert (HnQ : (0 < inject_Z n)%Q).
  { change 0%Q with (inject_Z 0). rewrite <- Zlt_Qlt. lia. }
  assert (H0 : (0 <= inject_Z num / inject_Z (n * zsum balances))%Q).
  { apply Qle_shift_div_l; [exact Hden|]. rewrite Qmult_0_l.
    change 0%Q with (inject_Z 0). rewrite <- Zle_Qle. lia. }
  assert (H1 : (inject_Z num / inject_Z (n * zsum balances)
                <= inject_Z (n - 1) / inject_Z n)%Q).
  { apply Qle_shift_div_r; [exact Hden|].
    assert (E : (inject_Z (n - 1) / inject_Z n * inject_Z (n * zsum balances)
                 == inject_Z ((n - 1) * zsum balances))%Q).
    { rewrite !inject_Z_mult. field. lra. }
    rewrite E. rewrite <- Zle_Qle. lia. }
  assert (H2 : (inject_Z (n - 1) / inject_Z n < 1)%Q).
  { apply Qlt_shift_div_r; [exact HnQ|]. rewrite Qmult_1_l. rewrite <- Zlt_Qlt. lia. }
  rewrite clamp_inactive by lra.
  split; [reflexivity|]. split; [exact H0|]. split; [exact H1 | lra].
Qed.

Lemma gini_of_nonnegative_balances_witness :
  (calculate_gini [30; 10; 20]%Z == 2 # 9)%Q /\ (calculate_gini [30; 10; 20]%Z < 1)%Q.
Proof.
  destruct (gini_of_nonnegative_balances [30; 10; 20]) as (E & _ & _ & Hlt).
  - repeat constructor; lia.
  - simpl. lia.
  - vm_compute. reflexivity.
  - split; [|exact Hlt]. etransitivity; [exact E|]. vm_compute. reflexivity.
Defined.

Lemma sorted_replicate (n : nat) (c : Z) :
  sorted inject_Z (replicate n c) = replicate n c.
Proof.
  apply sorted_of_ascending. induction n as [|n IH]; cbn [replicate].
  - constructor.
  - constructor; [exact IH|]. apply Forall_replicate. lia.
Qed.

Lemma zsum_replicate (n : nat) (c : Z) : zsum (replicate n c) = Z.of_nat n * c.
Proof.
  induction n as [|n IH]; cbn [replicate].
  - reflexivity.
  - rewrite zsum_cons, IH. lia.
Qed.

Lemma sum_idx_replicate (n : nat) (c : Z) :
  2 * sum_idx (replicate n c) = Z.of_nat n * (Z.of_nat n + 1) * c.
Proof.
  induction n as [|n IH]; cbn [replicate].
  - reflexivity.
  - rewrite sum_idx_cons, zsum_replicate. nia.
Qed.

(** X23.  Equal balances have Gini coefficient 0, whatever their number and
    their common value. *)
Theorem gini_of_equal_balances (n : nat) (c : Z) :
  (calculate_gini (replicate n c) == 0)%Q.
Proof.
  unfold calculate_gini.
  destruct (_ <? _)%nat; [reflexivity|].
  destruct (_ =? _); [reflexivity|]. cbv zeta.
  rewrite sorted_replicate, length_replicate, zsum_replicate.
  replace (2 * sum_idx (replicate n c) - (Z.of_nat n + 1) * (Z.of_nat n * c)) with 0
    by (rewrite sum_idx_replicate; lia).
  set (d := inject_Z (_ * _)).
  assert (E : (inject_Z 0 / d == 0)%Q) by (unfold Qdiv; change (inject_Z 0) with 0%Q; ring).
  etransitivity; [apply clamp_inactive | exact E]. rewrite E. lra.
Qed.

(** X24.  The Gini coefficient does not depend on the order of the
    balances. *)
Theorem gini_order_independent (balances balances' : list Z) :
  balances ≡ₚ balances' -> calculate_gini balances = calculate_gini balances'.
Proof.
  intros Hp. unfold calculate_gini.
  rewrite (sorted_of_Permutation _ _ Hp), (zsum_Permutation _ _ Hp).
  by rewrite (Permutation_length Hp).
Qed.

Lemma gini_order_independent_witness :
  calculate_gini [30; 10; 20] = calculate_gini [10; 20; 30].
Proof.
  apply gini_order_independent.
  etransitivity; [apply Permutation_swap|]. apply Permutation_skip, Permutation_swap.
Defined.

(** X25.  When one account holds everything and the [m >= 1] others hold
    nothing, the Gini coefficient is [m / (m + 1)]: the largest value the
    coefficient of non-negative balances takes. *)
Theorem gini_of_single_holder (balances : list Z) (c : Z) (m : nat) :
  0 < c -> (1 <= m)%nat -> balances ≡ₚ c :: replicate m 0 ->
  (calculate_gini balances == inject_Z (Z.of_nat m) / inject_Z (Z.of_nat m + 1))%Q.
Proof.
  intros Hc Hm Hp.
  assert (Hlen : length balances = S m).
  { rewrite (Permutation_length Hp). cbn [length]. by rewrite length_replicate. }
  assert (Hsum : zsum balances = c).
  { rewrite (zsum_Permutation _ _ Hp), zsum_cons, zsum_replicate. lia. }
  assert (Hsorted : sorted inject_Z balances = replicate m 0 ++ [c]).
  { rewrite (sorted_of_Permutation _ _ Hp).
    apply (StronglySorted_unique_strong Z.le).
    - intros. lia.
    - apply sorted_ascending.
    - apply StronglySorted_app_2.
      + intros x y Hx Hy. apply elem_of_replicate in Hx as [-> _].
        apply list_elem_of_singleton in Hy as ->. lia.
      + rewrite <- (sorted_replicate m 0). apply sorted_ascending.
      + repeat constructor.
    - rewrite sorted_Permutation. apply Permutation_cons_append. }
  assert (Hidx : sum_idx (replicate m 0 ++ [c]) = (Z.of_nat m + 1) * c).
  { clear. induction m as [|m IH].
    - unfold sum_idx, zsum. simpl. lia.
    - cbn [replicate app]. rewrite sum_idx_cons, IH, zsum_app, zsum_replicate.
      unfold zsum at 1. simpl. lia. }
  rewrite calculate_gini_unfold by lia.
  rewrite Hsorted, Hidx, Hlen, Hsum.
  replace (2 * ((Z.of_nat m + 1) * c) - (Z.of_nat (S m) + 1) * c) with (Z.of_nat m * c)
    by lia.
  replace (Z.of_nat (S m)) with (Z.of_nat m + 1) by lia.
  assert (HcQ : (0 < inject_Z c)%Q).
  { change 0%Q with (inject_Z 0). by rewrite <- Zlt_Qlt. }
  assert (HmQ : (0 < inject_Z (Z.of_nat m))%Q).
  { change 0%Q with (inject_Z 0). rewrite <- Zlt_Qlt. lia. }
  assert (E : (inject_Z (Z.of_nat m * c) / inject_Z ((Z.of_nat m + 1) * c)
               == inject_Z (Z.of_nat m) / inject_Z (Z.of_nat m + 1))%Q).
  { rewrite !inject_Z_mult, inject_Z_plus. field.
    change (inject_Z 1) with 1%Q. split; lra. }
  assert (Hr : (0 <= inject_Z (Z.of_nat m) / inject_Z (Z.of_nat m + 1) <= 1)%Q).
  { rewrite inject_Z_plus. change (inject_Z 1) with 1%Q. split.
    - apply Qle_shift_div_l; lra.
    - apply Qle_shift_div_r; lra. }
  rewrite clamp_inactive by (rewrite E; exact Hr). exact E.
Qed.

Lemma gini_of_single_holder_witness :
  (calculate_gini [0; 500; 0; 0]%Z == 3 # 4)%Q.
Proof.
  apply (gini_of_single_holder [0; 500; 0; 0] 500 3); [lia | lia |].
  apply Permutation_swap.
Defined.

Lemma zsum_scaled (k : Z) (l : list Z) : zsum (map (Z.mul k) l) = k * zsum l.
Proof.
  induction l as [|x l IH]; cbn [map].
  - unfold zsum. simpl. lia.
  - rewrite !zsum_cons, IH. lia.
Qed.

Lemma sum_idx_scaled (k : Z) (l : list Z) : sum_idx (map (Z.mul k) l) = k * sum_idx l.
Proof.
  induction l as [|x l IH]; cbn [map].
  - unfold sum_idx, zsum. simpl. lia.
  - rewrite !sum_idx_cons, IH, zsum_scaled. lia.
Qed.

Lemma sorted_scaled (k : Z) (l : list Z) :
  0 < k -> sorted inject_Z (map (Z.mul k) l) = map (Z.mul k) (sorted inject_Z l).
Proof.
  intros Hk. apply (StronglySorted_unique_strong Z.le).
  - intros. lia.
  - apply sorted_ascending.
  - pose proof (sorted_ascending l) as Hs.
    induction Hs as [|x s _ IH Hx]; cbn [map]; constructor; [exact IH|].
    rewrite Forall_forall in Hx. rewrite Forall_forall. intros y Hy.
    apply list_elem_of_In, in_map_iff in Hy as (z & <- & Hz).
    apply list_elem_of_In, Hx in Hz. nia.
  - rewrite sorted_Permutation. apply Permutation_map. symmetry. apply sorted_Permutation.
Qed.

Lemma clamp_Qeq (x y : Q) :
  (x == y)%Q -> (py_max 0 (py_min 1 x) == py_max 0 (py_min 1 y))%Q.
Proof.
  intros E. unfold py_min.
  destruct (Qltb_spec x 1), (Qltb_spec y 1); unfold py_max; try lra.
  destruct (Qltb_spec 0 x), (Qltb_spec 0 y); lra.
Qed.

(** X26.  The Gini coefficient does not depend on the unit: multiplying
    every balance by the same positive factor leaves it unchanged. *)
Theorem gini_scale_invariant (k : Z) (balances : list Z) :
  0 < k ->
  (calculate_gini (map (Z.mul k) balances) == calculate_gini balances)%Q.
Proof.
  intros Hk. unfold calculate_gini.
  rewrite length_map, zsum_scaled.
  destruct (_ <? _)%nat; [reflexivity|].
  destruct (Z.eqb_spec (zsum balances) 0) as [E0|Hne].
  { rewrite E0, Z.mul_0_r. reflexivity. }
  destruct (Z.eqb_spec (k * zsum balances) 0) as [E0|_]; [nia|].
  cbv zeta. rewrite sorted_scaled by exact Hk. rewrite length_map, sum_idx_scaled.
  apply clamp_Qeq.
  set (n := Z.of_nat (length (sorted inject_Z balances))).
  set (num := 2 * sum_idx (sorted inject_Z balances) - (n + 1) * zsum balances).
  replace (2 * (k * sum_idx (sorted inject_Z balances)) - (n + 1) * (k * zsum balances))
    with (k * num) by (unfold num; lia).
  replace (n * (k * zsum balances)) with (k * (n * zsum balances)) by lia.
  destruct (Z.eq_dec n 0) as [En|Hn].
  { rewrite En, !Z.mul_0_l, Z.mul_0_r. unfold Qdiv. change (inject_Z 0) with 0%Q.
    unfold Qinv. simpl. ring. }
  rewrite !inject_Z_mult. field.
  assert (Hk' : ~ (inject_Z k == 0)%Q).
  { change 0%Q with (inject_Z 0). rewrite inject_Z_injective. lia. }
  assert (Hn' : ~ (inject_Z n == 0)%Q).
  { change 0%Q with (inject_Z 0). rewrite inject_Z_injective. lia. }
  assert (Ht' : ~ (inject_Z (zsum balances) == 0)%Q).
  { change 0%Q with (inject_Z 0). rewrite inject_Z_injective. lia. }
  tauto.
Qed.

Lemma gini_scale_invariant_witness :
  (calculate_gini [3000; 1000; 2000]%Z == calculate_gini [3; 1; 2]%Z)%Q.
Proof. apply (gini_scale_invariant 1000 [3; 1; 2]). lia. Defined.

(** ** The cluster model's transfer *)

Section ClusterTransferFacts.

Import Cluster.

Variable exp : Q -> Q.

Lemma cluster_balance_insert (l : list Agent) (i : nat) (old new : Agent) :
  l !! i = Some old ->
  (qsum (map balance (<[i := new]> l))
   == qsum (map balance l) - balance old + balance new)%Q.
Proof.
  revert i. induction l as [|a l IH]; intros [|i] Hi; try discriminate.
  - injection Hi as ->. simpl. rewrite !qsum_cons. ring.
  - simpl in Hi. simpl. rewrite !qsum_cons.
    change (list_insert i new l) with (<[i := new]> l).
    rewrite (IH i Hi). ring.
Qed.

Lemma cluster_transfer_success (st st' : SimState) (s r : nat) (amount decay : Q)
      (cache : option (gmap Z Q)) :
  transfer exp st s r amount decay cache = Some (true, st') ->
  exists sender receiver1 receiver2,
    let fee := transfer_fee exp st sender amount cache in
    let agents1 := <[s := set_balance sender (balance sender - (amount + fee))%Q]>
                     (agents st) in
    agents st !! s = Some sender
    /\ agents1 !! r = Some receiver1
    /\ (0 < amount)%Q
    /\ (amount + fee <= balance sender)%Q
    /\ balance receiver2 = (balance receiver1 + amount)%Q
    /\ id receiver2 = id receiver1
    /\ agent_type receiver2 = agent_type receiver1
    /\ tags receiver2
       = (if Qltb 0 (balance receiver1 + amount)%Q then
            omap (fun v => if Qltb (1 # 1000) v then Some v else None)
                 (mix_in (fun w => w * (amount / (balance receiver1 + amount)))%Q
                    ((fun w => w * (balance receiver1 / (balance receiver1 + amount)))%Q
                       <$> tags receiver1)
                    (omap (fun weight =>
                             if Qltb (1 # 1000) (weight * (1 - decay))%Q
                             then Some (weight * (1 - decay))%Q else None)
                          (tags sender)))
          else tags receiver1)
    /\ agents st' = <[r := receiver2]> agents1
    /\ total_fees st' = (total_fees st + fee)%Q.
Proof.
  unfold transfer.
  destruct (agents st !! s) as [sender|] eqn:Hs; [|discriminate].
  destruct (agents st !! r) as [receiver|] eqn:Hr; [|discriminate].
  cbn [mbind option_bind].
  destruct (Qltb_spec (balance sender) amount) as [Hb|Hb]; [discriminate|].
  destruct (Qle_bool_spec amount 0) as [Ha|Ha]; [discriminate|].
  cbn [orb]. cbv zeta.
  destruct (Qltb_spec (balance sender) (amount + transfer_fee exp st sender amount cache))
    as [Hc|Hc]; [discriminate|].
  destruct (<[s := _]> (agents st) !! r) as [receiver1|] eqn:Hr1; [|discriminate].
  cbn [mbind option_bind]. intros Heq. injection Heq as Heq. subst st'.
  exists sender, receiver1. eexists. cbv zeta.
  split; [reflexivity|]. split; [exact Hr1|]. split; [lra|]. split; [lra|].
  cbn [agents total_fees].
  split; [|split; [|split; [|split; [|split; reflexivity]]]].
  - reflexivity.
  - destruct (Qltb 0 _); reflexivity.
  - destruct (Qltb 0 _); reflexivity.
  - destruct (Qltb 0 _); reflexivity.
Qed.

(** X27.  The cluster model's transfer conserves value: after a successful
    transfer the balances have lost exactly the fee, [total_fees] has gained
    it, and the list of agents keeps its length.  This holds as well when
    sender and receiver are the same agent. *)
Theorem cluster_transfer_conserves (st st' : SimState) (s r : nat) (amount decay : Q)
        (cache : option (gmap Z Q)) :
  transfer exp st s r amount decay cache = Some (true, st') ->
  exists sender,
    agents st !! s = Some sender
    /\ total_fees st' = (total_fees st + transfer_fee exp st sender amount cache)%Q
    /\ (qsum (map balance (agents st')) + transfer_fee exp st sender amount cache
        == qsum (map balance (agents st)))%Q
    /\ (qsum (map balance (agents st')) + total_fees st'
        == qsum (map balance (agents st)) + total_fees st)%Q
    /\ length (agents st') = length (agents st).
Proof.
  intros Ht.
  destruct (cluster_transfer_success _ _ _ _ _ _ _ Ht)
    as (sender & receiver1 & receiver2 & Hs & Hr1 & _ & _ & Hbal & _ & _ & _ & Hag & Hfees).
  cbv zeta in *. exists sender. split; [exact Hs|]. split; [exact Hfees|].
  assert (Hsum : (qsum (map balance (agents st'))
                  + transfer_fee exp st sender amount cache
                  == qsum (map balance (agents st)))%Q).
  { rewrite Hag, (cluster_balance_insert _ r receiver1 receiver2 Hr1).
    rewrite (cluster_balance_insert _ s sender _ Hs). rewrite Hbal. simpl. ring. }
  split; [exact Hsum|]. split.
  - rewrite Hfees. rewrite <- Hsum. ring.
  - rewrite Hag. by rewrite !length_insert.
Qed.

(** X28.  What a successful transfer of the cluster model between two
    different agents changes: the sender pays the amount and the fee and
    keeps its tags; the receiver gains the amount; when the receiver's new
    balance is positive every tag weight it holds afterwards exceeds the
    pruning threshold 0.001 and belongs to a cluster either the receiver or
    the sender was tagged with; no other agent changes.  The transfer only
    succeeds for a positive amount the sender can pay together with the
    fee. *)
Theorem cluster_transfer_effects (st st' : SimState) (s r : nat) (amount decay : Q)
        (cache : option (gmap Z Q)) (sender receiver : Agent) :
  s <> r -> agents st !! s = Some sender -> agents st !! r = Some receiver ->
  transfer exp st s r amount decay cache = Some (true, st') ->
  (0 < amount)%Q
  /\ (amount + transfer_fee exp st sender amount cache <= balance sender)%Q
  /\ agents st' !! s
     = Some (set_balance sender
               (balance sender - (amount + transfer_fee exp st sender amount cache))%Q)
  /\ (exists receiver',
        agents st' !! r = Some receiver'
        /\ balance receiver' = (balance receiver + amount)%Q
        /\ id receiver' = id receiver
        /\ agent_type receiver' = agent_type receiver
        /\ ((0 < balance receiver + amount)%Q ->
            forall k w, tags receiver' !! k = Some w ->
                        (1 # 1000 < w)%Q
                        /\ (is_Some (tags receiver !! k) \/ is_Some (tags sender !! k))))
  /\ (forall i, i <> s -> i <> r -> agents st' !! i = agents st !! i).
Proof.
  intros Hne Hs Hr Ht.
  destruct (cluster_transfer_success _ _ _ _ _ _ _ Ht)
    as (sender' & receiver1 & receiver2 & Hs' & Hr1 & Ha & Hc & Hbal & Hid & Hty
        & Htags & Hag & _).
  cbv zeta in *. rewrite Hs in Hs'. injection Hs' as <-.
  rewrite list_lookup_insert_ne in Hr1 by exact Hne. rewrite Hr in Hr1.
  injection Hr1 as <-.
  assert (Hlen_s : (s < length (agents st))%nat) by (by eapply lookup_lt_Some).
  assert (Hlen_r : (r < length (agents st))%nat) by (by eapply lookup_lt_Some).
  split; [exact Ha|]. split; [exact Hc|]. split.
  { rewrite Hag. rewrite list_lookup_insert_ne by (intros E; by apply Hne).
    apply list_lookup_insert_eq. exact Hlen_s. }
  split.
  { exists receiver2. split.
    { rewrite Hag. apply list_lookup_insert_eq. by rewrite length_insert. }
    split; [exact Hbal|]. split; [exact Hid|]. split; [exact Hty|].
    intros Hpos k w Hk. rewrite Htags in Hk.
    destruct (Qltb_spec 0 (balance receiver + amount)) as [_|Hn]; [|contradiction].
    rewrite lookup_omap in Hk.
    destruct (mix_in _ _ _ !! k) as [v|] eqn:Hv; [|discriminate].
    cbn [mbind option_bind] in Hk.
    destruct (Qltb_spec (1 # 1000) v) as [Hlt|_]; [|discriminate].
    injection Hk as <-. split; [exact Hlt|].
    unfold mix_in in Hv. rewrite lookup_merge, lookup_fmap, lookup_omap in Hv.
    destruct (tags receiver !! k) as [a|]; [left; by eexists|].
    destruct (tags sender !! k) as [b|]; [right; by eexists|].
    discriminate. }
  intros i His Hir. rewrite Hag.
  rewrite list_lookup_insert_ne by (intros E; by apply Hir).
  apply list_lookup_insert_ne. intros E. by apply His.
Qed.

End ClusterTransferFacts.

Lemma cluster_transfer_conserves_witness :
  exists st',
    Cluster.transfer exp_standin cluster_example 1 0 1000 (5 # 100) None = Some (true, st')
    /\ (qsum (map Cluster.balance (Cluster.agents st')) + Cluster.total_fees st' == 5100)%Q.
Proof.
  assert (E : exists st',
             Cluster.transfer exp_standin cluster_example 1 0 1000 (5 # 100) None
             = Some (true, st')).
  { eexists. vm_compute. reflexivity. }
  destruct E as [st' E]. exists st'. split; [exact E|].
  destruct (cluster_transfer_conserves exp_standin cluster_example st' 1 0 1000 (5 # 100)
              None E) as (sender & _ & _ & _ & Hsum & _).
  etransitivity; [exact Hsum|]. vm_compute. reflexivity.
Defined.

Lemma cluster_transfer_effects_witness :
  exists st' receiver',
    Cluster.transfer exp_standin cluster_example 1 0 1000 (5 # 100) None = Some (true, st')
    /\ Cluster.agents st' !! 0%nat = Some receiver'
    /\ Cluster.balance receiver' = (100 + 1000)%Q.
Proof.
  assert (E : exists st',
             Cluster.transfer exp_standin cluster_example 1 0 1000 (5 # 100) None
             = Some (true, st')).
  { eexists. vm_compute. reflexivity. }
  destruct E as [st' E].
  destruct (cluster_transfer_effects exp_standin cluster_example st' 1 0 1000 (5 # 100)
              None _ _ ltac:(lia) eq_refl eq_refl E)
    as (_ & _ & _ & (receiver' & Hr & Hbal & _) & _).
  exists st', receiver'. split; [exact E|]. split; [exact Hr | exact Hbal].
Defined.
